(** * markdown_db: the lossless Markdown document model

    A shallow embedding of [markdown_db.py].  Python strings are sequences of
    Unicode code points and are modelled as [list N]; Python objects live in
    a heap (a list of node records addressed by their index), so that a
    reference held in the parser's stack and the same reference held in a
    parent's child list denote one object. *)

From Stdlib Require Import NArith Lia Ascii.
From stdpp Require Import strings numbers.
From stdpp Require Import base list.

Local Open Scope N_scope.
Local Open Scope nat_scope.

(** ** Strings *)

Abbreviation str := (list N).

(** A Rocq string literal read as a Python string. *)
Definition py (s : string) : str :=
  (λ a, Ascii.N_of_ascii a) <$> String.list_ascii_of_string s.

(** [span p s] is the longest prefix of [s] whose characters satisfy [p],
    and what follows it: a greedy [c*] of a regular expression. *)
Fixpoint span {A} (p : A → bool) (s : list A) : list A * list A :=
  match s with
  | [] => ([], [])
  | c :: s' =>
      if p c then let '(a, b) := span p s' in (c :: a, b) else ([], s)
  end.

(** The same from the right end: [rspan p s = (a, b)] has [b] the longest
    suffix of [s] whose characters satisfy [p]. *)
Definition rspan {A} (p : A → bool) (s : list A) : list A * list A :=
  let '(b, a) := span p (reverse s) in (reverse a, reverse b).

(** [Py_UNICODE_ISSPACE]: what [\s] matches in a [str] pattern and what
    [str.strip()] removes. *)
Definition isspace (c : N) : bool :=
  ((9 <=? c) && (c <=? 13) || (28 <=? c) && (c <=? 32)
   || (c =? 133) || (c =? 160) || (c =? 5760)
   || (8192 <=? c) && (c <=? 8202)
   || (c =? 8232) || (c =? 8233) || (c =? 8239) || (c =? 8287)
   || (c =? 12288))%N.

(** [str.strip()] *)
Definition strip (s : str) : str :=
  (rspan isspace (span isspace s).2).1.

(** [[ \t]] *)
Definition is_sp_tab (c : N) : bool := ((c =? 32) || (c =? 9))%N.

(** [[^\r\n]*] over a whole string *)
Definition no_crlf (s : str) : bool :=
  forallb (λ c, negb ((c =? 13) || (c =? 10))%N) s.

(** The line boundaries of [str.splitlines]. *)
Definition is_linebreak (c : N) : bool :=
  ((c =? 10) || (c =? 11) || (c =? 12) || (c =? 13)
   || (c =? 28) || (c =? 29) || (c =? 30)
   || (c =? 133) || (c =? 8232) || (c =? 8233))%N.

(** [str.splitlines(keepends=True)], with [cur] the line being read. *)
Fixpoint splitlines_from (cur : str) (s : str) : list str :=
  match s with
  | [] => match cur with [] => [] | _ => [cur] end
  | c :: s' =>
      if (c =? 13)%N then
        match s' with
        | c' :: s'' =>
            if (c' =? 10)%N then (cur ++ [c; c']) :: splitlines_from [] s''
            else (cur ++ [c]) :: splitlines_from [] s'
        | [] => [cur ++ [c]]
        end
      else if is_linebreak c then (cur ++ [c]) :: splitlines_from [] s'
      else splitlines_from (cur ++ [c]) s'
  end.

Definition splitlines (s : str) : list str := splitlines_from [] s.

(** [_split_trivia]: the pattern [( \s* )( .*? )( \s* ) \Z] with DOTALL matches
    every string, so the [if not m] branch of the source is dead; the first
    group is the longest whitespace prefix, the lazy second group leaves the
    longest whitespace suffix of the remainder to the third. *)
Definition _split_trivia (raw : str) : str * str * str :=
  let '(leading, rest) := span isspace raw in
  let '(core, trailing) := rspan isspace rest in
  (leading, core, trailing).

(** ** The line grammar of [MarkdownDocument.Parse] *)

(** The optional group [( \r?\n )? \Z] at the end of a line: the body before
    it and the group itself. *)
Definition split_eol (s : str) : str * str :=
  match reverse s with
  | a :: r =>
      if (a =? 10)%N then
        match r with
        | b :: r' =>
            if (b =? 13)%N then (reverse r', [13; 10]%N)
            else (reverse r, [10]%N)
        | [] => ([], [10]%N)
        end
      else (s, [])
  | [] => (s, [])
  end.

(** [blank_line_re]: [^[ \t]*\r?\n\Z] *)
Definition is_blank (line : str) : bool :=
  let r := (span is_sp_tab line).2 in
  bool_decide (r = [10]%N) || bool_decide (r = [13; 10]%N).

(** Groups of [heading_re]. *)
Record heading_groups := HeadingGroups {
  hg_indent : str; hg_hashes : str; hg_space : str;
  hg_title : str; hg_trailing : str; hg_eol : str }.

(** [heading_re]:
    [^( [ \t]* )( #{1,6} )( [ \t]+ )( .*? )( [ \t]* )( \r?\n )? \Z].  The greedy groups
    take maximal runs; [.] excludes only the line feed; the lazy title
    leaves the longest run of blanks before the end of line to the
    [trailing] group. *)
Definition heading_match (line : str) : option heading_groups :=
  let '(indent, r1) := span is_sp_tab line in
  let '(hashes, r2) := span (N.eqb 35) r1 in
  if (1 <=? length hashes) && (length hashes <=? 6) then
    let '(space, r3) := span is_sp_tab r2 in
    if 1 <=? length space then
      let '(body, eol) := split_eol r3 in
      if forallb (λ c, negb (c =? 10)%N) body then
        let '(title, trailing) := rspan is_sp_tab body in
        Some (HeadingGroups indent hashes space title trailing eol)
      else None
    else None
  else None.

(** Groups of [fence_open_re]. *)
Record fence_groups := FenceGroups {
  fg_indent : str; fg_fence : str; fg_info : str; fg_eol : str }.

(** [fence_open_re]: [^( [ \t]* )( `{3,} | ~{3,} )( [^\r\n]* )( \r?\n )? \Z] *)
Definition fence_open_match (line : str) : option fence_groups :=
  let '(indent, r1) := span is_sp_tab line in
  let run c :=
    let '(fence, r2) := span (N.eqb c) r1 in
    if 3 <=? length fence then Some (fence, r2) else None in
  match (match run 96%N with Some x => Some x | None => run 126%N end) with
  | Some (fence, r2) =>
      let '(info, eol) := split_eol r2 in
      if no_crlf info then Some (FenceGroups indent fence info eol) else None
  | None => None
  end.

(** The tail [[ \t]*[^\r\n]*\r?\n?\Z] of the closing-fence pattern. *)
Definition close_tail (s : str) : bool :=
  let s1 := match reverse s with
            | a :: r => if (a =? 10)%N then r else a :: r
            | [] => []
            end in
  let s2 := match s1 with
            | a :: r => if (a =? 13)%N then r else a :: r
            | [] => []
            end in
  no_crlf s2.

(** The closing-fence pattern built in the loop:
    [^[ \t]*<fence_char>{<fence_len>,}[ \t]*[^\r\n]*\r?\n?\Z] *)
Definition fence_close_match (fence_char : N) (fence_len : nat) (l2 : str)
  : bool :=
  let '(run, r2) := span (N.eqb fence_char) (span is_sp_tab l2).2 in
  (fence_len <=? length run) && close_tail r2.

(** ** Nodes and the object heap *)

Inductive NodeType :=
| Root | Heading1 | Heading2 | Heading3 | Heading4 | Heading5 | Heading6
| Paragraph | Text | Link | Image | CodeBlock | BlockQuote | List | ListItem
| Raw.

Global Instance NodeType_eq_dec : EqDecision NodeType.
Proof. solve_decision. Defined.

(** [NodeType.value] *)
Definition NodeType_value (t : NodeType) : string :=
  match t with
  | Root => "Root" | Heading1 => "Heading1" | Heading2 => "Heading2"
  | Heading3 => "Heading3" | Heading4 => "Heading4" | Heading5 => "Heading5"
  | Heading6 => "Heading6" | Paragraph => "Paragraph" | Text => "Text"
  | Link => "Link" | Image => "Image" | CodeBlock => "CodeBlock"
  | BlockQuote => "BlockQuote" | List => "List" | ListItem => "ListItem"
  | Raw => "Raw"
  end.

(** [_HEADING_TYPES]: a dict with the keys 1 to 6. *)
Definition _HEADING_TYPES (level : nat) : option NodeType :=
  match level with
  | 1 => Some Heading1 | 2 => Some Heading2 | 3 => Some Heading3
  | 4 => Some Heading4 | 5 => Some Heading5 | 6 => Some Heading6
  | _ => None
  end.

(** A reference to an object: its index in the heap. *)
Abbreviation ref := nat.

Record TextNode_fields := TextNodeFields {
  tn_raw_original : str;
  tn_leading : str; tn_core : str; tn_trailing : str }.

Record LinkNode_fields := LinkNodeFields {
  ln_raw_original : str;
  ln_is_image : bool;
  ln_label_leading : str; ln_label_core : str; ln_label_trailing : str;
  ln_href_leading : str; ln_href_core : str; ln_href_trailing : str }.

Record CodeBlockNode_fields := CodeBlockNodeFields {
  cb_opening_line_original : str;
  cb_closing_line_original : str;
  cb_block_suffix_original : str;
  cb_opening_prefix : str; cb_fence : str; cb_info : str;
  cb_opening_eol : str;
  cb_closing_indent : str; cb_closing_fence : str; cb_closing_trailing : str;
  cb_closing_eol : str;
  cb_code_body_original : str;
  cb_code_body_current : str }.

Record HeadingNode_fields := HeadingNodeFields {
  Level : nat;
  hn_raw_line_original : str;
  hn_prefix : str;
  hn_title_leading : str; hn_title_core : str; hn_title_trailing : str;
  hn_line_suffix : str;
  hn_block_suffix : str }.

Record ParagraphNode_fields := ParagraphNodeFields {
  pn_raw_original : str;
  pn_block_suffix : str }.

Record MarkdownDocument_fields := MarkdownDocumentFields {
  _leading_trivia : str;
  _source_path : option str }.

(** The class of an object, with the attributes its [__init__] adds to those
    of [MarkdownNode]. *)
Inductive NodeClass :=
| CMarkdownNode
| CTextNode (f : TextNode_fields)
| CLinkNode (f : LinkNode_fields)
| CCodeBlockNode (f : CodeBlockNode_fields)
| CHeadingNode (f : HeadingNode_fields)
| CParagraphNode (f : ParagraphNode_fields)
| CMarkdownDocument (f : MarkdownDocument_fields).

(** The attributes every node has ([MarkdownNode.__init__]); [Type] is a
    keyword here, hence [NType]. *)
Record MarkdownNode := Node {
  NType : NodeType;
  _parent : option ref;
  _children : list ref;
  _dirty_self : bool;
  fields : NodeClass }.

Abbreviation heap := (list MarkdownNode).

Definition with_parent (p : option ref) (n : MarkdownNode) : MarkdownNode :=
  Node (NType n) p (_children n) (_dirty_self n) (fields n).
Definition with_children (cs : list ref) (n : MarkdownNode) : MarkdownNode :=
  Node (NType n) (_parent n) cs (_dirty_self n) (fields n).
Definition with_dirty_self (d : bool) (n : MarkdownNode) : MarkdownNode :=
  Node (NType n) (_parent n) (_children n) d (fields n).
Definition with_fields (f : NodeClass) (n : MarkdownNode) : MarkdownNode :=
  Node (NType n) (_parent n) (_children n) (_dirty_self n) f.

(** ** Exceptions and the heap monad *)

Inductive exn :=
| AttributeError (msg : string)
    (** [raise AttributeError(msg)] in the source, and the
        [AttributeError] of the interpreter for an assignment to a
        property that defines no setter *)
| IndexError
| KeyError
| OutOfFuel
    (** not a Python exception: a loop of the model ran out of fuel *)
| BadRef
    (** not a Python exception: a reference that is no object of the heap *).

Inductive result (A : Type) :=
| Ok (a : A)
| Raise (e : exn).
Arguments Ok {A} a.
Arguments Raise {A} e.

(** A computation that reads and writes the heap and may raise; the heap
    that comes back with [Raise] is the heap at the moment of the raise. *)
Definition M (A : Type) : Type := heap → result A * heap.

Definition ret {A} (a : A) : M A := λ h, (Ok a, h).
Definition raise {A} (e : exn) : M A := λ h, (Raise e, h).
Definition bind {A B} (m : M A) (k : A → M B) : M B :=
  λ h, match m h with
       | (Ok a, h') => k a h'
       | (Raise e, h') => (Raise e, h')
       end.
Definition lift {A} (r : result A) : M A := λ h, (r, h).

Declare Scope heapM_scope.
Delimit Scope heapM_scope with heapM.
Notation "x <- m ;; k" := (bind m (λ x, k))
  (at level 100, m at next level, right associativity) : heapM_scope.
Notation "m ;; k" := (bind m (λ _, k))
  (at level 100, right associativity) : heapM_scope.
Local Open Scope heapM_scope.

(** Object creation: the new object gets the next free index. *)
Definition alloc (nd : MarkdownNode) : M ref := λ h, (Ok (length h), h ++ [nd]).

Definition get_node (r : ref) : M MarkdownNode :=
  λ h, match h !! r with
       | Some nd => (Ok nd, h)
       | None => (Raise BadRef, h)
       end.

(** Attribute assignment on the object [r]. *)
Definition modify_node (r : ref) (f : MarkdownNode → MarkdownNode) : M unit :=
  λ h, match h !! r with
       | Some _ => (Ok tt, alter f r h)
       | None => (Raise BadRef, h)
       end.

Fixpoint for_each {A} (f : A → M unit) (l : list A) : M unit :=
  match l with
  | [] => ret tt
  | x :: l' => f x ;; for_each f l'
  end.

(** ** [MarkdownNode]: dirty tracking and tree edits *)

(** [any(f(x) for x in l)], which stops at the first true value. *)
Fixpoint py_any {A} (f : A → option bool) (l : list A) : option bool :=
  match l with
  | [] => Some false
  | x :: l' =>
      match f x with
      | Some true => Some true
      | Some false => py_any f l'
      | None => None
      end
  end.

(** The property [IsDirty].  [None]: the recursion is deeper than [fuel]
    (or meets a reference that is no object). *)
Fixpoint IsDirty (fuel : nat) (h : heap) (self : ref) : option bool :=
  match fuel with
  | 0 => None
  | S fuel' =>
      match h !! self with
      | None => None
      | Some nd =>
          if _dirty_self nd then Some true
          else py_any (IsDirty fuel' h) (_children nd)
      end
  end.

Definition MarkDirty (self : ref) : M unit :=
  modify_node self (with_dirty_self true).

(** [self._children.append(child)] *)
Definition add_child (child : ref) (n : MarkdownNode) : MarkdownNode :=
  with_children (_children n ++ [child]) n.

Definition AddChild (self child : ref) : M unit :=
  modify_node child (with_parent (Some self)) ;;
  modify_node self (add_child child) ;;
  MarkDirty self.

Definition _AppendChildParsed (self child : ref) : M unit :=
  modify_node child (with_parent (Some self)) ;;
  modify_node self (add_child child).

(** ** Serialisation *)

(** ["".join(f(c) for c in children)] *)
Definition join_map (f : ref → option str) (cs : list ref) : option str :=
  ks ← mapM f cs; Some (concat ks).

(** [ToMarkdown], by the class of [self].  [None]: the recursion is deeper
    than [fuel]. *)
Fixpoint ToMarkdown (fuel : nat) (h : heap) (self : ref) : option str :=
  match fuel with
  | 0 => None
  | S fuel' =>
      nd ← h !! self;
      match fields nd with
      | CMarkdownNode => join_map (ToMarkdown fuel' h) (_children nd)
      | CTextNode f =>
          d ← IsDirty fuel' h self;
          if negb d then Some (tn_raw_original f)
          else Some (tn_leading f ++ tn_core f ++ tn_trailing f)
      | CLinkNode f =>
          d ← IsDirty fuel' h self;
          if negb d then Some (ln_raw_original f)
          else
            let bang := if ln_is_image f then py "!" else [] in
            let label :=
              ln_label_leading f ++ ln_label_core f ++ ln_label_trailing f in
            let href :=
              ln_href_leading f ++ ln_href_core f ++ ln_href_trailing f in
            Some (bang ++ py "[" ++ label ++ py "](" ++ href ++ py ")")
      | CCodeBlockNode f =>
          d ← IsDirty fuel' h self;
          if negb d then
            Some (cb_opening_line_original f ++ cb_code_body_original f
                  ++ cb_closing_line_original f ++ cb_block_suffix_original f)
          else
            let opening := cb_opening_prefix f ++ cb_fence f ++ cb_info f
                           ++ cb_opening_eol f in
            let closing := cb_closing_indent f ++ cb_closing_fence f
                           ++ cb_closing_trailing f ++ cb_closing_eol f in
            Some (opening ++ cb_code_body_current f ++ closing
                  ++ cb_block_suffix_original f)
      | CHeadingNode f =>
          let line :=
            if negb (_dirty_self nd) then hn_raw_line_original f
            else
              let title := hn_title_leading f ++ hn_title_core f
                           ++ hn_title_trailing f in
              hn_prefix f ++ title ++ hn_line_suffix f in
          kids ← join_map (ToMarkdown fuel' h) (_children nd);
          Some (line ++ hn_block_suffix f ++ kids)
      | CParagraphNode f =>
          dirty ← (if _dirty_self nd then Some true
                   else py_any (IsDirty fuel' h) (_children nd));
          content ← (if negb dirty then Some (pn_raw_original f)
                     else join_map (ToMarkdown fuel' h) (_children nd));
          Some (content ++ pn_block_suffix f)
      | CMarkdownDocument f =>
          kids ← join_map (ToMarkdown fuel' h) (_children nd);
          Some (_leading_trivia f ++ kids)
      end
  end.

(** [_strip_linebreaks_only]: [text.rstrip("\r\n")] *)
Definition _strip_linebreaks_only (text : str) : str :=
  (rspan (λ c, (c =? 13) || (c =? 10))%N text).1.

Definition ToString (fuel : nat) (h : heap) (self : ref) : option str :=
  _strip_linebreaks_only <$> ToMarkdown fuel h self.

Definition ToPlainText (fuel : nat) (h : heap) (self : ref) : option str :=
  nd ← h !! self;
  match fields nd with
  | CTextNode _ => ToMarkdown fuel h self
  | CLinkNode f =>
      Some (ln_label_leading f ++ ln_label_core f ++ ln_label_trailing f)
  | _ => ToString fuel h self
  end.

(** ** The [Text], [Href] and [InfoString] properties *)

(** The getter of [Text]. *)
Definition get_Text (fuel : nat) (h : heap) (self : ref) : option str :=
  nd ← h !! self;
  match fields nd with
  | CMarkdownNode | CMarkdownDocument _ => Some []
  | CTextNode f => Some (tn_core f)
  | CLinkNode f => Some (ln_label_core f)
  | CCodeBlockNode f => Some (cb_code_body_current f)
  | CHeadingNode f => Some (hn_title_core f)
  | CParagraphNode _ =>
      strip <$> join_map (ToPlainText fuel h) (_children nd)
  end.

Definition tn_set_core (v : str) (f : TextNode_fields) : TextNode_fields :=
  TextNodeFields (tn_raw_original f) (tn_leading f) v (tn_trailing f).
Definition ln_set_label_core (v : str) (f : LinkNode_fields)
  : LinkNode_fields :=
  LinkNodeFields (ln_raw_original f) (ln_is_image f)
    (ln_label_leading f) v (ln_label_trailing f)
    (ln_href_leading f) (ln_href_core f) (ln_href_trailing f).
Definition ln_set_href_core (v : str) (f : LinkNode_fields)
  : LinkNode_fields :=
  LinkNodeFields (ln_raw_original f) (ln_is_image f)
    (ln_label_leading f) (ln_label_core f) (ln_label_trailing f)
    (ln_href_leading f) v (ln_href_trailing f).
Definition cb_set_code_body_current (v : str) (f : CodeBlockNode_fields)
  : CodeBlockNode_fields :=
  CodeBlockNodeFields (cb_opening_line_original f)
    (cb_closing_line_original f) (cb_block_suffix_original f)
    (cb_opening_prefix f) (cb_fence f) (cb_info f) (cb_opening_eol f)
    (cb_closing_indent f) (cb_closing_fence f) (cb_closing_trailing f)
    (cb_closing_eol f) (cb_code_body_original f) v.
Definition cb_set_info (v : str) (f : CodeBlockNode_fields)
  : CodeBlockNode_fields :=
  CodeBlockNodeFields (cb_opening_line_original f)
    (cb_closing_line_original f) (cb_block_suffix_original f)
    (cb_opening_prefix f) (cb_fence f) v (cb_opening_eol f)
    (cb_closing_indent f) (cb_closing_fence f) (cb_closing_trailing f)
    (cb_closing_eol f) (cb_code_body_original f) (cb_code_body_current f).
Definition hn_set_title_core (v : str) (f : HeadingNode_fields)
  : HeadingNode_fields :=
  HeadingNodeFields (Level f) (hn_raw_line_original f) (hn_prefix f)
    (hn_title_leading f) v (hn_title_trailing f) (hn_line_suffix f)
    (hn_block_suffix f).

(** The message of the [AttributeError] the interpreter raises when a
    property without setter is assigned, in the wording of CPython from
    3.11 on: it names the property and the class of the object. *)
Definition no_setter_message (prop cls : string) : string :=
  "property '" +:+ prop +:+ "' of '" +:+ cls +:+ "' object has no setter".

(** The setter of [Text]: [self.Text = value].  [MarkdownNode] raises;
    [MarkdownDocument] inherits that setter; [ParagraphNode] redefines the
    property with a getter only, so the interpreter refuses the
    assignment with an [AttributeError] of its own. *)
Definition set_Text (self : ref) (value : str) : M unit :=
  nd <- get_node self ;;
  match fields nd with
  | CMarkdownNode | CMarkdownDocument _ =>
      raise (AttributeError
               (NodeType_value (NType nd) +:+ " does not support Text assignment"))
  | CParagraphNode _ =>
      raise (AttributeError (no_setter_message "Text" "ParagraphNode"))
  | CTextNode f =>
      modify_node self (with_fields (CTextNode (tn_set_core (strip value) f))) ;;
      MarkDirty self
  | CLinkNode f =>
      modify_node self
        (with_fields (CLinkNode (ln_set_label_core (strip value) f))) ;;
      MarkDirty self
  | CCodeBlockNode f =>
      modify_node self
        (with_fields (CCodeBlockNode (cb_set_code_body_current value f))) ;;
      MarkDirty self
  | CHeadingNode f =>
      modify_node self
        (with_fields (CHeadingNode (hn_set_title_core (strip value) f))) ;;
      MarkDirty self
  end.

(** The getter and the setter of [LinkNode.Href].  On an object of another
    class the assignment creates a plain attribute that no method reads:
    nothing of the model changes. *)
Definition get_Href (h : heap) (self : ref) : option str :=
  nd ← h !! self;
  match fields nd with
  | CLinkNode f => Some (ln_href_core f)
  | _ => None
  end.

Definition set_Href (self : ref) (value : str) : M unit :=
  nd <- get_node self ;;
  match fields nd with
  | CLinkNode f =>
      modify_node self
        (with_fields (CLinkNode (ln_set_href_core (strip value) f))) ;;
      MarkDirty self
  | _ => ret tt
  end.

(** The setter of [CodeBlockNode.InfoString]. *)
Definition set_InfoString (self : ref) (value : str) : M unit :=
  nd <- get_node self ;;
  match fields nd with
  | CCodeBlockNode f =>
      let info := match strip value with
                  | [] => []
                  | v => py " " ++ v
                  end in
      modify_node self (with_fields (CCodeBlockNode (cb_set_info info f))) ;;
      MarkDirty self
  | _ => ret tt
  end.

(** The getter of [CodeBlockNode.InfoString]: [self._info.strip()]. *)
Definition get_InfoString (h : heap) (self : ref) : option str :=
  nd ← h !! self;
  match fields nd with
  | CCodeBlockNode f => Some (strip (cb_info f))
  | _ => None
  end.

(** ** Traversal *)

(** [Walk]: the generator yields [self], then what the generator of each
    child yields; here the whole sequence, as a consumer reads it when
    nothing changes the tree in between.  [None]: the recursion is deeper
    than [fuel]. *)
Fixpoint Walk (fuel : nat) (h : heap) (self : ref) : option (list ref) :=
  match fuel with
  | 0 => None
  | S fuel' =>
      nd ← h !! self;
      ks ← mapM (Walk fuel' h) (_children nd);
      Some (self :: concat ks)
  end.

(** [FindAll]: the nodes of [Walk] whose [Type] is [node_type]. *)
Definition FindAll (fuel : nat) (h : heap) (self : ref)
    (node_type : NodeType) : option (list ref) :=
  ns ← Walk fuel h self;
  Some (filter (λ r, NType <$> h !! r = Some node_type) ns).

(** ** Constructors *)

Definition new_MarkdownNode (node_type : NodeType) (parent : option ref)
  : M ref :=
  alloc (Node node_type parent [] false CMarkdownNode).

Definition new_TextNode (raw : str) (parent : option ref) : M ref :=
  let '(leading, core, trailing) := _split_trivia raw in
  alloc (Node Text parent [] false
           (CTextNode (TextNodeFields raw leading core trailing))).

Definition new_LinkNode (raw label href : str) (parent : option ref)
    (is_image : bool) : M ref :=
  let '(label_leading, label_core, label_trailing) := _split_trivia label in
  let '(href_leading, href_core, href_trailing) := _split_trivia href in
  alloc (Node (if is_image then Image else Link) parent [] false
           (CLinkNode (LinkNodeFields raw is_image
                         label_leading label_core label_trailing
                         href_leading href_core href_trailing))).

(** [CodeBlockNode._parse_opening] and [_parse_closing]: one pattern, the
    one of [fence_open_re] with a lazy third group, which captures the same
    groups; the fallback is for a line that does not match. *)
Definition _parse_opening (line : str) : str * str * str * str :=
  match fence_open_match line with
  | Some g => (fg_indent g, fg_fence g, fg_info g, fg_eol g)
  | None =>
      ([], py "```", [],
       if bool_decide (last line = Some 10%N) then [10%N] else [])
  end.

Definition _parse_closing (line : str) : str * str * str * str :=
  _parse_opening line.

Definition new_CodeBlockNode (opening_line code_body closing_line
    block_suffix : str) (parent : option ref) : M ref :=
  let '(opening_prefix, fence, info, opening_eol) :=
    _parse_opening opening_line in
  let '(closing_indent, closing_fence, closing_trailing, closing_eol) :=
    _parse_closing closing_line in
  alloc (Node CodeBlock parent [] false
           (CCodeBlockNode
              (CodeBlockNodeFields opening_line closing_line block_suffix
                 opening_prefix fence info opening_eol
                 closing_indent closing_fence closing_trailing closing_eol
                 code_body code_body))).

Definition new_HeadingNode (level : nat) (raw_line prefix title_raw
    line_suffix block_suffix : str) (parent : option ref) : M ref :=
  match _HEADING_TYPES level with
  | None => raise KeyError
  | Some node_type =>
      let '(title_leading, title_core, title_trailing) :=
        _split_trivia title_raw in
      alloc (Node node_type parent [] false
               (CHeadingNode
                  (HeadingNodeFields level raw_line prefix
                     title_leading title_core title_trailing
                     line_suffix block_suffix)))
  end.

(** ** The inline scanner *)

(** [s[i]] *)
Definition py_index {A} (s : list A) (i : nat) : result A :=
  match s !! i with
  | Some c => Ok c
  | None => Raise IndexError
  end.

(** [s[a:b]] for indices that are not negative *)
Definition slice {A} (s : list A) (a b : nat) : list A := drop a (take b s).

(** [s.startswith(pre, pos)] *)
Definition startswith (s pre : str) (pos : nat) : bool :=
  bool_decide (take (length pre) (drop pos s) = pre).

Fixpoint find_index (c : N) (s : str) : option nat :=
  match s with
  | [] => None
  | x :: s' => if (x =? c)%N then Some 0 else S <$> find_index c s'
  end.

(** [s.find(c, start)] for a single character [c]; [None] is the -1 of
    Python. *)
Definition str_find (s : str) (c : N) (start : nat) : option nat :=
  (λ j, start + j) <$> find_index c (drop start s).

Definition _try_parse_link (raw : str) (pos : nat) (is_image : bool)
  : result (option (nat * nat * str * str)) :=
  let start := pos in
  let continue (label_start : nat) :=
    match str_find raw 93%N label_start with
    | None => Ok None
    | Some close_bracket =>
        let href_of :=
          let href_start := close_bracket + 2 in
          match str_find raw 41%N href_start with
          | None => Ok None
          | Some close_paren =>
              let end_ := close_paren + 1 in
              let label := slice raw label_start close_bracket in
              let href := slice raw href_start close_paren in
              Ok (Some (start, end_, label, href))
          end in
        if length raw <=? close_bracket + 1 then Ok None
        else
          match py_index raw (close_bracket + 1) with
          | Raise e => Raise e
          | Ok c => if negb (c =? 40)%N then Ok None else href_of
          end
    end in
  if is_image then
    if negb (startswith raw (py "![") pos) then Ok None
    else continue (pos + 2)
  else
    match py_index raw pos with
    | Raise e => Raise e
    | Ok c => if negb (c =? 91)%N then Ok None else continue (pos + 1)
    end.

(** The closure [flush_text] of [_parse_inlines]; [nodes] and
    [buffer_start] are the variables it shares with the loop. *)
Definition flush_text (raw : str) (until : nat) (nodes : list ref)
    (buffer_start : nat) : M (list ref * nat) :=
  if buffer_start <? until then
    t <- new_TextNode (slice raw buffer_start until) None ;;
    ret (nodes ++ [t], until)
  else ret (nodes, until).

(** The [while i < len(raw)] loop of [_parse_inlines] and the final flush.
    Every round moves [i] forward, so [length raw] rounds are enough. *)
Fixpoint _parse_inlines_loop (fuel : nat) (raw : str) (nodes : list ref)
    (buffer_start i : nat) : M (list ref) :=
  if i <? length raw then
    match fuel with
    | 0 => raise OutOfFuel
    | S fuel' =>
        let emit (is_image : bool) (parsed : nat * nat * str * str) :=
          let '(start, end_, label, href) := parsed in
          nb <- flush_text raw start nodes buffer_start ;;
          l <- new_LinkNode (slice raw start end_) label href None is_image ;;
          _parse_inlines_loop fuel' raw (nb.1 ++ [l]) end_ end_ in
        let next := _parse_inlines_loop fuel' raw nodes buffer_start (i + 1) in
        let try_link :=
          c <- lift (py_index raw i) ;;
          if (c =? 91)%N then
            parsed <- lift (_try_parse_link raw i false) ;;
            match parsed with
            | Some p => emit false p
            | None => next
            end
          else next in
        if startswith raw (py "![") i then
          parsed <- lift (_try_parse_link raw i true) ;;
          match parsed with
          | Some p => emit true p
          | None => try_link
          end
        else try_link
    end
  else
    nb <- flush_text raw (length raw) nodes buffer_start ;;
    ret nb.1.

Definition _parse_inlines (raw : str) : M (list ref) :=
  _parse_inlines_loop (length raw) raw [] 0 0.

Definition new_ParagraphNode (raw_content block_suffix : str)
    (parent : option ref) : M ref :=
  self <- alloc (Node Paragraph parent [] false
                   (CParagraphNode
                      (ParagraphNodeFields raw_content block_suffix))) ;;
  kids <- _parse_inlines raw_content ;;
  modify_node self (with_children kids) ;;
  for_each (λ c, modify_node c (with_parent (Some self))) kids ;;
  ret self.

(** ** [MarkdownDocument.Parse] *)

(** The loops [while i < len(lines) and is_blank(lines[i])] collect the
    blank lines that start at [lines[i]]: the longest blank prefix of
    [drop i lines]. *)
Definition blank_run (rest : list str) : list str := (span is_blank rest).1.

(** The search for the closing fence, over the lines after the opening
    one: the body lines, the closing line (empty when the input ends first,
    as in the source) and the number of lines read. *)
Fixpoint find_close (fence_char : N) (fence_len : nat) (rest : list str)
    (body_lines : list str) (read : nat) : list str * str * nat :=
  match rest with
  | [] => (body_lines, [], read)
  | l2 :: rest' =>
      if fence_close_match fence_char fence_len l2
      then (body_lines, l2, read + 1)
      else find_close fence_char fence_len rest' (body_lines ++ [l2])
             (read + 1)
  end.

(** The three [break] tests of the paragraph loop. *)
Definition para_stops (l : str) : bool :=
  if is_blank l then true
  else if heading_match l is Some _ then true
  else if fence_open_match l is Some _ then true
  else false.

Definition para_run (rest : list str) : list str :=
  (span (λ l, negb (para_stops l)) rest).1.

(** The two stacks are Python lists used from their end; here the top is
    the head: [stack[-1]] is the head, [pop()] drops it, [append] conses. *)
Record parse_state := ParseState {
  ps_i : nat;
  ps_stack : list ref;
  ps_stack_levels : list nat }.

Definition stack_top (stack : list ref) : result ref :=
  match stack with
  | r :: _ => Ok r
  | [] => Raise IndexError
  end.

(** [while stack_levels and stack_levels[-1] >= level: stack.pop();
    stack_levels.pop()] *)
Fixpoint pop_levels (level : nat) (stack : list ref) (stack_levels : list nat)
  : result (list ref * list nat) :=
  match stack_levels with
  | top :: stack_levels' =>
      if level <=? top then
        match stack with
        | _ :: stack' => pop_levels level stack' stack_levels'
        | [] => Raise IndexError
        end
      else Ok (stack, stack_levels)
  | [] => Ok (stack, stack_levels)
  end.

(** The heading and paragraph branches of the loop body, for the line
    [line = lines[i]]. *)
Definition parse_heading_or_paragraph (lines : list str) (line : str)
    (i : nat) (stack : list ref) (stack_levels : list nat) : M parse_state :=
  match heading_match line with
  | Some hm =>
      let level := length (hg_hashes hm) in
      let prefix := hg_indent hm ++ hg_hashes hm ++ hg_space hm in
      let title_raw := hg_title hm in
      let line_suffix := hg_trailing hm ++ hg_eol hm in
      let raw_line := line in
      let i := i + 1 in
      let blanks := blank_run (drop i lines) in
      let block_suffix := concat blanks in
      let i := i + length blanks in
      sl <- lift (pop_levels level stack stack_levels) ;;
      parent <- lift (stack_top sl.1) ;;
      heading_node <- new_HeadingNode level raw_line prefix title_raw
                        line_suffix block_suffix None ;;
      _AppendChildParsed parent heading_node ;;
      ret (ParseState i (heading_node :: sl.1) (level :: sl.2))
  | None =>
      let rest := para_run (drop (i + 1) lines) in
      let para_lines := line :: rest in
      let i := i + 1 + length rest in
      let raw_para := concat para_lines in
      let blanks := blank_run (drop i lines) in
      let block_suffix := concat blanks in
      let i := i + length blanks in
      top <- lift (stack_top stack) ;;
      p <- new_ParagraphNode raw_para block_suffix None ;;
      _AppendChildParsed top p ;;
      ret (ParseState i stack stack_levels)
  end.

(** One round of [while i < len(lines)]. *)
Definition Parse_step (lines : list str) (st : parse_state) : M parse_state :=
  let i := ps_i st in
  let stack := ps_stack st in
  let stack_levels := ps_stack_levels st in
  line <- lift (py_index lines i) ;;
  match fence_open_match line with
  | Some fm =>
      let opening_line := line in
      let fence := fg_fence fm in
      fence_char <- lift (py_index fence 0) ;;
      let fence_len := length fence in
      let i := i + 1 in
      let '(body_lines, closing_line, read) :=
        find_close fence_char fence_len (drop i lines) [] 0 in
      let i := i + read in
      if negb (bool_decide (closing_line = [])) then
        let code_body := concat body_lines in
        let blanks := blank_run (drop i lines) in
        let block_suffix := concat blanks in
        let i := i + length blanks in
        top <- lift (stack_top stack) ;;
        c <- new_CodeBlockNode opening_line code_body closing_line
               block_suffix None ;;
        _AppendChildParsed top c ;;
        ret (ParseState i stack stack_levels)
      else
        (* No closing fence: rewind and parse as paragraph *)
        let i := i - length body_lines - 1 in
        line <- lift (py_index lines i) ;;
        parse_heading_or_paragraph lines line i stack stack_levels
  | None => parse_heading_or_paragraph lines line i stack stack_levels
  end.

(** [while i < len(lines)]: every round leaves [i] larger than it found
    it, so [length lines] rounds are enough. *)
Fixpoint Parse_loop (fuel : nat) (lines : list str) (st : parse_state)
  : M parse_state :=
  if ps_i st <? length lines then
    match fuel with
    | 0 => raise OutOfFuel
    | S fuel' => st' <- Parse_step lines st ;; Parse_loop fuel' lines st'
    end
  else ret st.

Definition set_leading_trivia (f : str → str) (n : MarkdownNode)
  : MarkdownNode :=
  match fields n with
  | CMarkdownDocument d =>
      with_fields
        (CMarkdownDocument
           (MarkdownDocumentFields (f (_leading_trivia d)) (_source_path d))) n
  | _ => n
  end.

(** The body of [Parse]; it returns the state in which the main loop
    ends. *)
Definition Parse_run (self : ref) (markdown : str) : M parse_state :=
  modify_node self (with_children []) ;;
  modify_node self (set_leading_trivia (λ _, [])) ;;
  let lines := splitlines markdown in
  let blanks := blank_run lines in
  for_each (λ l, modify_node self (set_leading_trivia (λ t, t ++ l)))
    blanks ;;
  let i := length blanks in
  Parse_loop (length lines) lines (ParseState i [self] [0]).

Definition Parse (self : ref) (markdown : str) : M unit :=
  Parse_run self markdown ;; ret tt.

(** [MarkdownDocument(markdown)] *)
Definition new_MarkdownDocument (markdown : str) (source_path : option str)
  : M ref :=
  self <- alloc (Node Root None [] false
                   (CMarkdownDocument (MarkdownDocumentFields [] source_path))) ;;
  (if bool_decide (markdown = []) then ret tt else Parse self markdown) ;;
  ret self.

Definition FromString (markdown : str) : M ref :=
  new_MarkdownDocument markdown None.


(** * Properties *)

(** ** Strings *)

Lemma span_app {A} (p : A → bool) s : (span p s).1 ++ (span p s).2 = s.
Proof.
  induction s as [|c s IH]; simpl; [done|].
  destruct (p c); [|done]. destruct (span p s) as [a b]; simpl in *.
  by rewrite IH.
Qed.

Lemma span_Forall {A} (p : A → bool) s : Forall (λ c, p c = true) (span p s).1.
Proof.
  induction s as [|c s IH]; simpl; [constructor|].
  destruct (p c) eqn:E; [|constructor].
  destruct (span p s) as [a b]; simpl in *. by constructor.
Qed.

Lemma rspan_app {A} (p : A → bool) s : (rspan p s).1 ++ (rspan p s).2 = s.
Proof.
  unfold rspan. pose proof (span_app p (reverse s)) as E.
  destruct (span p (reverse s)) as [b a]; simpl in *.
  rewrite <- reverse_app, E. apply reverse_involutive.
Qed.

Lemma _split_trivia_app raw leading core trailing :
  _split_trivia raw = (leading, core, trailing) →
  leading ++ core ++ trailing = raw.
Proof.
  unfold _split_trivia. pose proof (span_app isspace raw) as E1.
  destruct (span isspace raw) as [l rest]; simpl in *.
  pose proof (rspan_app isspace rest) as E2.
  destruct (rspan isspace rest) as [c t]; simpl in *.
  intros [= <- <- <-]. by rewrite E2.
Qed.

Lemma splitlines_from_concat s : ∀ cur, concat (splitlines_from cur s) = cur ++ s.
Proof.
  remember (length s) as n eqn:Hn. revert s Hn.
  induction n as [n IH] using lt_wf_ind. intros s Hn cur.
  destruct s as [|c s].
  { destruct cur; simpl; by rewrite ?app_nil_r. }
  simpl in Hn. cbn [splitlines_from].
  destruct (c =? 13)%N.
  - destruct s as [|c' s].
    { simpl. by rewrite app_nil_r. }
    simpl in Hn. destruct (c' =? 10)%N; cbn [concat].
    + rewrite (IH (length s)); [|lia|done]. by rewrite <- app_assoc.
    + rewrite (IH (length (c' :: s))); [|simpl; lia|done].
      by rewrite <- app_assoc.
  - destruct (is_linebreak c); cbn [concat].
    + rewrite (IH (length s)); [|lia|done]. by rewrite <- app_assoc.
    + rewrite (IH (length s)); [|lia|done]. by rewrite <- app_assoc.
Qed.

Lemma splitlines_concat s : concat (splitlines s) = s.
Proof. apply splitlines_from_concat. Qed.

(** ** The heap monad *)

Lemma bind_Ok {A B} (m : M A) (k : A → M B) h a h1 :
  m h = (Ok a, h1) → bind m k h = k a h1.
Proof. unfold bind. by intros ->. Qed.

Lemma bind_Raise {A B} (m : M A) (k : A → M B) h e h1 :
  m h = (Raise e, h1) → bind m k h = (Raise e, h1).
Proof. unfold bind. by intros ->. Qed.

Lemma modify_node_Ok r f (h : heap) nd :
  h !! r = Some nd → modify_node r f h = (Ok tt, alter f r h).
Proof. unfold modify_node. by intros ->. Qed.

Lemma MarkDirty_Ok r (h : heap) nd :
  h !! r = Some nd → MarkDirty r h = (Ok tt, alter (with_dirty_self true) r h).
Proof. apply modify_node_Ok. Qed.

Lemma lookup_alter_Some (f : MarkdownNode → MarkdownNode) r (h : heap) nd :
  h !! r = Some nd → alter f r h !! r = Some (f nd).
Proof. intros E. by rewrite list_lookup_alter_eq, E. Qed.

(** ** Fuel: more of it never changes a result *)

Lemma py_any_mono {A} (f g : A → option bool) l b :
  (∀ x b, f x = Some b → g x = Some b) →
  py_any f l = Some b → py_any g l = Some b.
Proof.
  intros Hfg. induction l as [|x l IH]; simpl; [done|].
  destruct (f x) as [[]|] eqn:E; [| |done].
  - intros [= <-]. by rewrite (Hfg _ _ E).
  - intros Hl. rewrite (Hfg _ _ E). auto.
Qed.

Lemma IsDirty_mono fuel : ∀ fuel' (h : heap) r b,
  fuel ≤ fuel' → IsDirty fuel h r = Some b → IsDirty fuel' h r = Some b.
Proof.
  induction fuel as [|fuel IH]; intros fuel' h r b Hle; simpl; [done|].
  destruct fuel' as [|fuel']; [lia|]. simpl.
  destruct (h !! r) as [nd|]; [|done].
  destruct (_dirty_self nd); [done|].
  apply py_any_mono. intros x b'. apply IH. lia.
Qed.

Lemma mapM_mono {A B} (f g : A → option B) l k :
  (∀ x y, f x = Some y → g x = Some y) →
  mapM f l = Some k → mapM g l = Some k.
Proof.
  intros Hfg. rewrite !mapM_Some. intros Hf.
  eapply Forall2_impl; [exact Hf|]. auto.
Qed.

Lemma join_map_mono (f g : ref → option str) cs s :
  (∀ x y, f x = Some y → g x = Some y) →
  join_map f cs = Some s → join_map g cs = Some s.
Proof.
  intros Hfg. unfold join_map.
  destruct (mapM f cs) as [ks|] eqn:E; simpl; [|done].
  by rewrite (mapM_mono f g _ _ Hfg E).
Qed.

Lemma ToMarkdown_mono fuel : ∀ fuel' (h : heap) r s,
  fuel ≤ fuel' → ToMarkdown fuel h r = Some s → ToMarkdown fuel' h r = Some s.
Proof.
  induction fuel as [|fuel IH]; intros fuel' h r s Hle; simpl; [done|].
  destruct fuel' as [|fuel']; [lia|]. simpl.
  destruct (h !! r) as [nd|]; simpl; [|done].
  assert (Hj : ∀ cs s, join_map (ToMarkdown fuel h) cs = Some s →
                       join_map (ToMarkdown fuel' h) cs = Some s).
  { intros cs s'. apply join_map_mono. intros x y. apply IH. lia. }
  assert (Hd : ∀ x b, IsDirty fuel h x = Some b → IsDirty fuel' h x = Some b).
  { intros x b. apply IsDirty_mono. lia. }
  destruct (fields nd) as [|f|f|f|f|f|f].
  - apply Hj.
  - destruct (IsDirty fuel h r) as [d|] eqn:E; simpl; [|done].
    by rewrite (Hd _ _ E).
  - destruct (IsDirty fuel h r) as [d|] eqn:E; simpl; [|done].
    by rewrite (Hd _ _ E).
  - destruct (IsDirty fuel h r) as [d|] eqn:E; simpl; [|done].
    by rewrite (Hd _ _ E).
  - destruct (join_map (ToMarkdown fuel h) (_children nd)) as [ks|] eqn:E;
      simpl; [|done].
    by rewrite (Hj _ _ E).
  - destruct (_dirty_self nd); simpl.
    + destruct (join_map (ToMarkdown fuel h) (_children nd)) as [ks|] eqn:E;
        simpl; [|done].
      by rewrite (Hj _ _ E).
    + destruct (py_any (IsDirty fuel h) (_children nd)) as [d|] eqn:E;
        simpl; [|done].
      rewrite (py_any_mono _ (IsDirty fuel' h) _ _ Hd E). simpl.
      destruct d; simpl; [|done].
      destruct (join_map (ToMarkdown fuel h) (_children nd)) as [ks|] eqn:E';
        simpl; [|done].
      by rewrite (Hj _ _ E').
  - destruct (join_map (ToMarkdown fuel h) (_children nd)) as [ks|] eqn:E;
      simpl; [|done].
    by rewrite (Hj _ _ E).
Qed.

(** ** Slices and searches *)

Lemma slice_split {A} (s : list A) a b c :
  a ≤ b → b ≤ c → c ≤ length s → slice s a c = slice s a b ++ slice s b c.
Proof.
  intros Hab Hbc Hc. unfold slice.
  replace c with (b + (c - b)) at 1 by lia.
  rewrite <- take_take_drop, drop_app_le by (rewrite length_take; lia).
  f_equal. rewrite take_drop_commute. do 2 f_equal. lia.
Qed.

Lemma slice_single {A} (s : list A) j c :
  s !! j = Some c → slice s j (S j) = [c].
Proof.
  intros E. unfold slice. rewrite (take_S_r _ _ _ E).
  pose proof (lookup_lt_Some _ _ _ E).
  rewrite drop_app_le by (rewrite length_take; lia).
  rewrite drop_ge by (rewrite length_take; lia). done.
Qed.

Lemma slice_to_end {A} (s : list A) a : slice s a (length s) = drop a s.
Proof. unfold slice. by rewrite firstn_all. Qed.

Lemma find_index_Some c s j :
  find_index c s = Some j → s !! j = Some c.
Proof.
  revert j. induction s as [|x s IH]; intros j; simpl; [done|].
  destruct (N.eqb_spec x c) as [->|].
  - by intros [= <-].
  - destruct (find_index c s) as [k|]; simpl; [|done].
    intros [= <-]. simpl. by apply IH.
Qed.

Lemma str_find_Some s c start j :
  str_find s c start = Some j → start ≤ j ∧ j < length s ∧ s !! j = Some c.
Proof.
  unfold str_find. destruct (find_index c (drop start s)) as [k|] eqn:E;
    simpl; [|done].
  intros [= <-]. apply find_index_Some in E. rewrite lookup_drop in E.
  split; [lia|]. split; [|done]. by apply lookup_lt_Some in E.
Qed.

Lemma py_index_lt {A} (s : list A) i :
  i < length s → ∃ c, py_index s i = Ok c ∧ s !! i = Some c.
Proof.
  intros Hi. unfold py_index.
  destruct (lookup_lt_is_Some_2 s i Hi) as [c ->]. eauto.
Qed.

Lemma startswith_bang s pos :
  startswith s (py "![") pos = true →
  s !! pos = Some 33%N ∧ s !! (pos + 1) = Some 91%N.
Proof.
  unfold startswith. intros E. apply bool_decide_eq_true in E.
  change (py "![") with [33%N; 91%N] in E. simpl in E.
  split.
  - replace pos with (pos + 0) by lia. rewrite <- lookup_drop.
    rewrite <- (lookup_take_lt _ 2) by lia. by rewrite E.
  - rewrite <- lookup_drop.
    rewrite <- (lookup_take_lt _ 2) by lia. by rewrite E.
Qed.

(** ** The inline scanner *)

(** The text of a link rebuilt from its fields, as [LinkNode.ToMarkdown]
    writes it once the node is dirty. *)
Definition rebuilt_link (f : LinkNode_fields) : str :=
  (if ln_is_image f then py "!" else []) ++ py "["
  ++ (ln_label_leading f ++ ln_label_core f ++ ln_label_trailing f)
  ++ py "]("
  ++ (ln_href_leading f ++ ln_href_core f ++ ln_href_trailing f)
  ++ py ")".

(** The raw text an inline leaf was created from. *)
Definition leaf_raw (nd : MarkdownNode) : str :=
  match fields nd with
  | CTextNode f => tn_raw_original f
  | CLinkNode f => ln_raw_original f
  | _ => []
  end.

(** What a leaf without children serialises to. *)
Definition leaf_text (nd : MarkdownNode) : str :=
  match fields nd with
  | CTextNode f =>
      if _dirty_self nd then tn_leading f ++ tn_core f ++ tn_trailing f
      else tn_raw_original f
  | CLinkNode f =>
      if _dirty_self nd then rebuilt_link f else ln_raw_original f
  | _ => []
  end.

(** A leaf as the scanner creates it: a clean Text, Link or Image node
    without children whose fields spell its raw text. *)
Definition inline_leaf (nd : MarkdownNode) : Prop :=
  _children nd = [] ∧ _dirty_self nd = false ∧
  match fields nd with
  | CTextNode f =>
      NType nd = Text
      ∧ tn_leading f ++ tn_core f ++ tn_trailing f = tn_raw_original f
  | CLinkNode f =>
      NType nd = (if ln_is_image f then Image else Link)
      ∧ rebuilt_link f = ln_raw_original f
  | _ => False
  end.

Lemma _try_parse_link_total raw pos is_image :
  pos < length raw → ∃ o, _try_parse_link raw pos is_image = Ok o.
Proof.
  intros Hpos. unfold _try_parse_link.
  assert (Hc : ∀ ls, ∃ o,
    match str_find raw 93%N ls with
    | None => Ok None
    | Some close_bracket =>
        if length raw <=? close_bracket + 1 then Ok None
        else
          match py_index raw (close_bracket + 1) with
          | Raise e => Raise e
          | Ok c =>
              if negb (c =? 40)%N then Ok None
              else
                match str_find raw 41%N (close_bracket + 2) with
                | None => Ok None
                | Some close_paren =>
                    Ok (Some (pos, close_paren + 1,
                              slice raw ls close_bracket,
                              slice raw (close_bracket + 2) close_paren))
                end
          end
    end = Ok o).
  { intros ls. destruct (str_find raw 93%N ls) as [cb|]; [|eauto].
    destruct (Nat.leb_spec (length raw) (cb + 1)); [eauto|].
    destruct (py_index_lt raw (cb + 1)) as (c & -> & _); [lia|].
    destruct (negb (c =? 40)%N); [eauto|].
    destruct (str_find raw 41%N (cb + 2)); eauto. }
  destruct is_image.
  - destruct (negb (startswith raw (py "![") pos)); [eauto|]. apply Hc.
  - destruct (py_index_lt raw pos Hpos) as (c & -> & _).
    destruct (negb (c =? 91)%N); [eauto|]. apply Hc.
Qed.

Lemma _try_parse_link_Some raw pos is_image start end_ label href :
  _try_parse_link raw pos is_image = Ok (Some (start, end_, label, href)) →
  start = pos ∧ pos < end_ ∧ end_ ≤ length raw ∧
  slice raw start end_ =
    (if is_image then py "!" else []) ++ py "[" ++ label ++ py "]("
    ++ href ++ py ")".
Proof.
  unfold _try_parse_link.
  assert (Hc : ∀ ls,
    pos < ls → ls ≤ length raw →
    slice raw pos ls = (if is_image then py "!" else []) ++ py "[" →
    match str_find raw 93%N ls with
    | None => Ok None
    | Some close_bracket =>
        if length raw <=? close_bracket + 1 then Ok None
        else
          match py_index raw (close_bracket + 1) with
          | Raise e => Raise e
          | Ok c =>
              if negb (c =? 40)%N then Ok None
              else
                match str_find raw 41%N (close_bracket + 2) with
                | None => Ok None
                | Some close_paren =>
                    Ok (Some (pos, close_paren + 1,
                              slice raw ls close_bracket,
                              slice raw (close_bracket + 2) close_paren))
                end
          end
    end = Ok (Some (start, end_, label, href)) →
    start = pos ∧ pos < end_ ∧ end_ ≤ length raw ∧
    slice raw start end_ =
      (if is_image then py "!" else []) ++ py "[" ++ label ++ py "]("
      ++ href ++ py ")").
  { intros ls Hls Hls' Hpre.
    destruct (str_find raw 93%N ls) as [cb|] eqn:Ecb; [|done].
    apply str_find_Some in Ecb as (Hcb1 & Hcb2 & Hcb3).
    destruct (Nat.leb_spec (length raw) (cb + 1)); [done|].
    destruct (py_index_lt raw (cb + 1)) as (c & -> & Hc1); [lia|].
    destruct (N.eqb_spec c 40) as [->|]; simpl; [|done].
    destruct (str_find raw 41%N (cb + 2)) as [cp|] eqn:Ecp; [|done].
    apply str_find_Some in Ecp as (Hcp1 & Hcp2 & Hcp3).
    intros [= <- <- <- <-]. split; [done|]. split; [lia|]. split; [lia|].
    rewrite (slice_split raw pos ls (cp + 1)) by lia.
    rewrite Hpre, <- !app_assoc. f_equal. f_equal.
    rewrite (slice_split raw ls cb (cp + 1)) by lia. f_equal.
    rewrite (slice_split raw cb (cb + 2) (cp + 1)) by lia.
    rewrite (slice_split raw cb (cb + 1) (cb + 2)) by lia.
    replace (cb + 1) with (S cb) at 1 by lia.
    rewrite (slice_single raw cb _ Hcb3).
    replace (cb + 2) with (S (cb + 1)) at 1 by lia.
    rewrite (slice_single raw (cb + 1) _ Hc1).
    rewrite (slice_split raw (cb + 2) cp (cp + 1)) by lia.
    replace (cp + 1) with (S cp) by lia.
    by rewrite (slice_single raw cp _ Hcp3). }
  destruct is_image.
  - destruct (startswith raw (py "![") pos) eqn:Es; simpl; [|done].
    apply startswith_bang in Es as [E1 E2].
    pose proof (lookup_lt_Some _ _ _ E2).
    apply Hc; [lia|lia|].
    rewrite (slice_split raw pos (pos + 1) (pos + 2)) by lia.
    replace (pos + 1) with (S pos) at 1 by lia.
    rewrite (slice_single raw pos _ E1).
    replace (pos + 2) with (S (pos + 1)) by lia.
    by rewrite (slice_single raw (pos + 1) _ E2).
  - destruct (py_index raw pos) as [c|] eqn:Ec; [|done].
    unfold py_index in Ec. destruct (raw !! pos) as [c'|] eqn:E1; [|done].
    injection Ec as ->. pose proof (lookup_lt_Some _ _ _ E1).
    destruct (N.eqb_spec c 91) as [->|]; simpl; [|done].
    apply Hc; [lia|lia|].
    replace (pos + 1) with (S pos) by lia.
    by rewrite (slice_single raw pos _ E1).
Qed.

Lemma new_TextNode_spec raw parent (h : heap) :
  ∃ nd, new_TextNode raw parent h = (Ok (length h), h ++ [nd])
        ∧ inline_leaf nd ∧ leaf_raw nd = raw ∧ _parent nd = parent.
Proof.
  unfold new_TextNode. destruct (_split_trivia raw) as [[l c] t] eqn:E.
  eexists. split; [reflexivity|]. unfold inline_leaf, leaf_raw; simpl.
  by rewrite (_split_trivia_app _ _ _ _ E).
Qed.

Lemma new_LinkNode_spec raw label href parent (is_image : bool) (h : heap) :
  raw = (if is_image then py "!" else []) ++ py "[" ++ label ++ py "]("
        ++ href ++ py ")" →
  ∃ nd, new_LinkNode raw label href parent is_image h
        = (Ok (length h), h ++ [nd])
        ∧ inline_leaf nd ∧ leaf_raw nd = raw ∧ _parent nd = parent.
Proof.
  intros Hraw. unfold new_LinkNode.
  destruct (_split_trivia label) as [[ll lc] lt] eqn:E1.
  destruct (_split_trivia href) as [[hl hc] ht] eqn:E2.
  eexists. split; [reflexivity|].
  unfold inline_leaf, leaf_raw, rebuilt_link; simpl.
  by rewrite (_split_trivia_app _ _ _ _ E1), (_split_trivia_app _ _ _ _ E2).
Qed.

(** What a run of the scanner leaves behind: the new objects [nds] at the
    end of the heap, in order, and the references to them. *)
Definition scanned (h : heap) (nodes : list ref) (nds : list MarkdownNode)
    (r : result (list ref) * heap) : Prop :=
  r = (Ok (nodes ++ seq (length h) (length nds)), h ++ nds)
  ∧ Forall inline_leaf nds ∧ Forall (λ nd, _parent nd = None) nds.

Lemma flush_text_spec raw until nodes bs (h : heap) :
  ∃ nds, flush_text raw until nodes bs h
         = (Ok (nodes ++ seq (length h) (length nds), until), h ++ nds)
         ∧ Forall inline_leaf nds ∧ Forall (λ nd, _parent nd = None) nds
         ∧ concat (leaf_raw <$> nds) = slice raw bs until.
Proof.
  unfold flush_text. destruct (Nat.ltb_spec bs until) as [Hlt|Hge].
  - destruct (new_TextNode_spec (slice raw bs until) None h)
      as (nd & E & Hl & Hr & Hp).
    exists [nd]. rewrite (bind_Ok _ _ _ _ _ E). unfold ret. simpl.
    rewrite Hr, app_nil_r. repeat split; auto.
  - exists []. unfold ret. simpl. rewrite !app_nil_r.
    repeat split; auto. unfold slice.
    rewrite drop_ge; [done|]. rewrite length_take. lia.
Qed.

Lemma _parse_inlines_loop_spec fuel raw : ∀ nodes bs i (h : heap),
  bs ≤ i → i ≤ length raw → length raw ≤ fuel + i →
  ∃ nds, scanned h nodes nds (_parse_inlines_loop fuel raw nodes bs i h)
         ∧ concat (leaf_raw <$> nds) = drop bs raw.
Proof.
  induction fuel as [|fuel IH]; intros nodes bs i h Hbs Hi Hfuel.
  - (* no round left: [i] is at the end *)
    assert (i = length raw) as -> by lia. simpl.
    rewrite Nat.ltb_irrefl.
    destruct (flush_text_spec raw (length raw) nodes bs h)
      as (nds & E & Hl & Hp & Hc).
    exists nds. rewrite (bind_Ok _ _ _ _ _ E). unfold ret, scanned. simpl.
    by rewrite Hc, slice_to_end.
  - cbn [_parse_inlines_loop].
    destruct (Nat.ltb_spec i (length raw)) as [Hlt|Hge].
    2:{ assert (i = length raw) as -> by lia.
        destruct (flush_text_spec raw (length raw) nodes bs h)
          as (nds & E & Hl & Hp & Hc).
        exists nds. rewrite (bind_Ok _ _ _ _ _ E). unfold ret, scanned. simpl.
        by rewrite Hc, slice_to_end. }
    (* the three ways a round ends *)
    assert (Hnext : ∃ nds,
      scanned h nodes nds (_parse_inlines_loop fuel raw nodes bs (i + 1) h)
      ∧ concat (leaf_raw <$> nds) = drop bs raw).
    { apply IH; lia. }
    assert (Hemit : ∀ is_image start end_ label href,
      _try_parse_link raw i is_image = Ok (Some (start, end_, label, href)) →
      ∃ nds, scanned h nodes nds
        ((nb <- flush_text raw start nodes bs ;;
          l <- new_LinkNode (slice raw start end_) label href None is_image ;;
          _parse_inlines_loop fuel raw (nb.1 ++ [l]) end_ end_) h)
        ∧ concat (leaf_raw <$> nds) = drop bs raw).
    { intros is_image start end_ label href Ep.
      apply _try_parse_link_Some in Ep as (-> & Hend1 & Hend2 & Hsl).
      destruct (flush_text_spec raw i nodes bs h)
        as (n1 & E1 & Hl1 & Hp1 & Hc1).
      rewrite (bind_Ok _ _ _ _ _ E1). simpl.
      destruct (new_LinkNode_spec _ label href None is_image (h ++ n1) Hsl)
        as (nd & E2 & Hl2 & Hr2 & Hp2).
      rewrite (bind_Ok _ _ _ _ _ E2).
      destruct (IH ((nodes ++ seq (length h) (length n1))
                    ++ [length (h ++ n1)]) end_ end_ ((h ++ n1) ++ [nd]))
        as (n3 & (E3 & Hl3 & Hp3) & Hc3); [lia..|].
      exists (n1 ++ [nd] ++ n3). split; [split; [|split]|].
      - rewrite E3. f_equal; [|by rewrite <- !app_assoc].
        f_equal. rewrite !length_app, <- !app_assoc. f_equal.
        simpl. rewrite !seq_app. simpl. do 2 f_equal.
        f_equal. lia.
      - rewrite !Forall_app. auto.
      - rewrite !Forall_app. auto.
      - rewrite !fmap_app, !concat_app, Hc1, Hc3. simpl.
        rewrite Hr2, app_nil_r.
        rewrite <- !slice_to_end.
        rewrite <- (slice_split raw i end_ (length raw)) by lia.
        symmetry. apply slice_split; lia. }
    assert (Htry : ∃ nds, scanned h nodes nds
      ((c <- lift (py_index raw i) ;;
        if (c =? 91)%N then
          parsed <- lift (_try_parse_link raw i false) ;;
          match parsed with
          | Some p =>
              let '(start, end_, label, href) := p in
              nb <- flush_text raw start nodes bs ;;
              l <- new_LinkNode (slice raw start end_) label href None false ;;
              _parse_inlines_loop fuel raw (nb.1 ++ [l]) end_ end_
          | None => _parse_inlines_loop fuel raw nodes bs (i + 1)
          end
        else _parse_inlines_loop fuel raw nodes bs (i + 1)) h)
      ∧ concat (leaf_raw <$> nds) = drop bs raw).
    { destruct (py_index_lt raw i Hlt) as (c & Ec & _).
      unfold bind at 1, lift at 1; rewrite Ec.
      destruct (c =? 91)%N; [|done].
      destruct (_try_parse_link_total raw i false Hlt) as (o & Eo).
      unfold bind at 1, lift at 1; rewrite Eo.
      destruct o as [[[[start end_] label] href]|]; [|done].
      eapply Hemit, Eo. }
    destruct (startswith raw (py "![") i); [|exact Htry].
    destruct (_try_parse_link_total raw i true Hlt) as (o & Eo).
    unfold bind at 1, lift at 1; rewrite Eo.
    destruct o as [[[[start end_] label] href]|]; [|exact Htry].
    eapply Hemit, Eo.
Qed.

Lemma _parse_inlines_spec raw (h : heap) :
  ∃ nds, scanned h [] nds (_parse_inlines raw h)
         ∧ concat (leaf_raw <$> nds) = raw.
Proof.
  destruct (_parse_inlines_loop_spec (length raw) raw [] 0 0 h) as (nds & H & Hc);
    [lia..|].
  exists nds. split; [exact H|]. by rewrite Hc.
Qed.

(** ** The blocks of the parser *)

Lemma span_length {A} (p : A → bool) s : length (span p s).1 ≤ length s.
Proof. rewrite <- (span_app p s) at 2. rewrite length_app. lia. Qed.

Lemma span_take {A} (p : A → bool) s :
  (span p s).1 = take (length (span p s).1) s.
Proof. rewrite <- (span_app p s) at 3. by rewrite take_app_length. Qed.

Lemma take_drop_slice {A} (l : list A) i n :
  take n (drop i l) = slice l i (i + n).
Proof. unfold slice. by rewrite take_drop_commute. Qed.

Lemma blank_run_slice lines i :
  blank_run (drop i lines)
  = slice lines i (i + length (blank_run (drop i lines))).
Proof. unfold blank_run. rewrite <- take_drop_slice. apply span_take. Qed.

Lemma blank_run_length lines i :
  i ≤ length lines → i + length (blank_run (drop i lines)) ≤ length lines.
Proof.
  intros. unfold blank_run.
  pose proof (span_length is_blank (drop i lines)) as Hl.
  rewrite length_drop in Hl. lia.
Qed.

Lemma para_run_slice lines i :
  para_run (drop i lines)
  = slice lines i (i + length (para_run (drop i lines))).
Proof. unfold para_run. rewrite <- take_drop_slice. apply span_take. Qed.

Lemma para_run_length lines i :
  i ≤ length lines → i + length (para_run (drop i lines)) ≤ length lines.
Proof.
  intros. unfold para_run.
  pose proof (span_length (λ l, negb (para_stops l)) (drop i lines)) as Hl.
  rewrite length_drop in Hl. lia.
Qed.

Lemma find_close_spec c n rest : ∀ body read body' closing read',
  find_close c n rest body read = (body', closing, read') →
  (∃ k, rest !! k = Some closing ∧ fence_close_match c n closing = true
        ∧ Forall (λ l, fence_close_match c n l = false) (take k rest)
        ∧ body' = body ++ take k rest ∧ read' = read + k + 1)
  ∨ (Forall (λ l, fence_close_match c n l = false) rest
     ∧ closing = [] ∧ body' = body ++ rest ∧ read' = read + length rest).
Proof.
  induction rest as [|l2 rest IH]; intros body read body' closing read'; simpl.
  - intros [= <- <- <-]. right. rewrite app_nil_r.
    repeat split; auto with lia.
  - destruct (fence_close_match c n l2) eqn:E.
    + intros [= <- <- <-]. left. exists 0. simpl. rewrite app_nil_r.
      repeat split; auto with lia.
    + intros Hf. apply IH in Hf as [(k & Hk & Hm & Hall & -> & ->)|(Hall & -> & -> & ->)].
      * left. exists (S k). simpl. rewrite <- app_assoc. simpl.
        repeat split; auto with lia.
      * right. rewrite <- app_assoc. simpl. repeat split; auto with lia.
Qed.

Lemma fence_close_match_nonempty c n l :
  0 < n → fence_close_match c n l = true → l ≠ [].
Proof.
  intros Hn Hm ->. unfold fence_close_match in Hm. simpl in Hm.
  apply andb_true_iff in Hm as [Hm _]. apply Nat.leb_le in Hm. lia.
Qed.

Lemma fence_open_match_fence line fm :
  fence_open_match line = Some fm → 3 ≤ length (fg_fence fm).
Proof.
  unfold fence_open_match. destruct (span is_sp_tab line) as [indent r1].
  intros H.
  assert (Hrun : ∀ c fence r2,
    (let '(fence, r2) := span (N.eqb c) r1 in
     if 3 <=? length fence then Some (fence, r2) else None) = Some (fence, r2) →
    3 ≤ length fence).
  { intros c fence r2. destruct (span (N.eqb c) r1) as [f' r'].
    destruct (Nat.leb_spec 3 (length f')); [|done]. by intros [= <- <-]. }
  destruct (let '(fence, r2) := span (N.eqb 96%N) r1 in
            if 3 <=? length fence then Some (fence, r2) else None)
    as [[fence r2]|] eqn:E1.
  - apply Hrun in E1. destruct (split_eol r2) as [info eol].
    destruct (no_crlf info); [|done]. by injection H as <-.
  - destruct (let '(fence, r2) := span (N.eqb 126%N) r1 in
              if 3 <=? length fence then Some (fence, r2) else None)
      as [[fence r2]|] eqn:E2; [|done].
    apply Hrun in E2. destruct (split_eol r2) as [info eol].
    destruct (no_crlf info); [|done]. by injection H as <-.
Qed.

Lemma heading_match_level line hm :
  heading_match line = Some hm →
  1 ≤ length (hg_hashes hm) ∧ length (hg_hashes hm) ≤ 6.
Proof.
  unfold heading_match. destruct (span is_sp_tab line) as [indent r1].
  destruct (span (N.eqb 35) r1) as [hashes r2].
  destruct (Nat.leb_spec 1 (length hashes)); cbn [andb]; [|done].
  destruct (Nat.leb_spec (length hashes) 6); cbn [andb]; [|done].
  destruct (span is_sp_tab r2) as [space r3].
  destruct (1 <=? length space); [|done].
  destruct (split_eol r3) as [body eol].
  destruct (forallb _ body); [|done].
  destruct (rspan is_sp_tab body) as [title trailing].
  by intros [= <-].
Qed.

Lemma _HEADING_TYPES_Some level :
  1 ≤ level → level ≤ 6 → ∃ t, _HEADING_TYPES level = Some t.
Proof.
  intros. do 7 (destruct level as [|level]; [simpl; eauto; lia|]). lia.
Qed.

(** A block as one round of the main loop creates it. *)
Inductive block :=
| BCode (f : CodeBlockNode_fields)
| BHeading (t : NodeType) (f : HeadingNode_fields)
| BPara (f : ParagraphNode_fields) (nds : list MarkdownNode).

(** The objects of a block whose first object gets the reference [c] and
    the parent [top]. *)
Definition block_nodes (top c : ref) (b : block) : list MarkdownNode :=
  match b with
  | BCode f => [Node CodeBlock (Some top) [] false (CCodeBlockNode f)]
  | BHeading t f => [Node t (Some top) [] false (CHeadingNode f)]
  | BPara f nds =>
      Node Paragraph (Some top) (seq (S c) (length nds)) false
        (CParagraphNode f)
      :: (with_parent (Some c) <$> nds)
  end.

(** The input text a block stands for. *)
Definition block_text (b : block) : str :=
  match b with
  | BCode f =>
      cb_opening_line_original f ++ cb_code_body_original f
      ++ cb_closing_line_original f ++ cb_block_suffix_original f
  | BHeading _ f => hn_raw_line_original f ++ hn_block_suffix f
  | BPara f _ => pn_raw_original f ++ pn_block_suffix f
  end.

Definition block_ok (b : block) : Prop :=
  match b with
  | BPara f nds =>
      Forall inline_leaf nds ∧ concat (leaf_raw <$> nds) = pn_raw_original f
  | _ => True
  end.

Definition block_level (b : block) : option nat :=
  match b with
  | BHeading _ f => Some (Level f)
  | _ => None
  end.

(** The heap after the objects [B] were created and the first of them was
    appended to the children of [top]. *)
Definition attach (top : ref) (B : list MarkdownNode) (h : heap) : heap :=
  alter (add_child (length h)) top h ++ B.

Lemma for_each_set_parent p nds : ∀ pre : heap,
  for_each (λ c, modify_node c (with_parent p))
    (seq (length pre) (length nds)) (pre ++ nds)
  = (Ok tt, pre ++ (with_parent p <$> nds)).
Proof.
  induction nds as [|nd nds IH]; intros pre; simpl.
  - done.
  - assert (E : (pre ++ nd :: nds) !! length pre = Some nd).
    { by rewrite lookup_app_r, Nat.sub_diag by lia. }
    rewrite (bind_Ok _ _ _ _ _ (modify_node_Ok _ _ _ _ E)).
    rewrite alter_app_r_alt, Nat.sub_diag by lia.
    change (alter (with_parent p) 0 (nd :: nds)) with (with_parent p nd :: nds).
    specialize (IH (pre ++ [with_parent p nd])).
    rewrite length_app in IH. simpl in IH.
    rewrite Nat.add_1_r, <- !app_assoc in IH. simpl in IH. exact IH.
Qed.

Lemma new_ParagraphNode_spec raw suffix parent (h : heap) :
  ∃ nds,
    new_ParagraphNode raw suffix parent h
    = (Ok (length h),
       h ++ Node Paragraph parent (seq (S (length h)) (length nds)) false
              (CParagraphNode (ParagraphNodeFields raw suffix))
            :: (with_parent (Some (length h)) <$> nds))
    ∧ Forall inline_leaf nds ∧ concat (leaf_raw <$> nds) = raw.
Proof.
  unfold new_ParagraphNode.
  set (p0 := Node Paragraph parent [] false
               (CParagraphNode (ParagraphNodeFields raw suffix))).
  rewrite (bind_Ok (alloc p0) _ h (length h) (h ++ [p0])) by done.
  destruct (_parse_inlines_spec raw (h ++ [p0])) as (nds & (E & Hl & Hp) & Hc).
  exists nds. split; [|done].
  rewrite (bind_Ok _ _ _ _ _ E). simpl.
  assert (E1 : ((h ++ [p0]) ++ nds) !! length h = Some p0).
  { rewrite <- app_assoc. by rewrite lookup_app_r, Nat.sub_diag by lia. }
  rewrite (bind_Ok _ _ _ _ _ (modify_node_Ok _ _ _ _ E1)).
  rewrite <- app_assoc, alter_app_r_alt, Nat.sub_diag by lia. simpl.
  rewrite length_app. simpl. rewrite Nat.add_1_r.
  pose proof (for_each_set_parent (Some (length h)) nds
    (h ++ [with_children (seq (S (length h)) (length nds)) p0])) as E2.
  rewrite length_app in E2. simpl in E2.
  rewrite Nat.add_1_r, <- !app_assoc in E2. simpl in E2.
  rewrite (bind_Ok _ _ _ _ _ E2). done.
Qed.

Lemma _AppendChildParsed_spec top root rest (h : heap) :
  top < length h →
  _AppendChildParsed top (length h) (h ++ root :: rest)
  = (Ok tt, attach top (with_parent (Some top) root :: rest) h).
Proof.
  intros Htop. unfold _AppendChildParsed, attach.
  assert (E1 : (h ++ root :: rest) !! length h = Some root).
  { by rewrite lookup_app_r, Nat.sub_diag by lia. }
  rewrite (bind_Ok _ _ _ _ _ (modify_node_Ok _ _ _ _ E1)).
  rewrite alter_app_r_alt, Nat.sub_diag by lia. simpl.
  destruct (lookup_lt_is_Some_2 h top Htop) as [nd E2].
  rewrite (modify_node_Ok _ _ _ nd) by (by apply lookup_app_l_Some).
  by rewrite alter_app_l.
Qed.

(** ** The open-heading stack *)

Lemma pop_levels_ind (P : list ref → list nat → Prop) level :
  1 ≤ level →
  (∀ r r' s l l' ls, level ≤ l →
     P (r :: r' :: s) (l :: l' :: ls) → P (r' :: s) (l' :: ls)) →
  ∀ stack stack_levels,
    length stack = length stack_levels →
   last stack_levels = Some 0 →
    P stack stack_levels →
    ∃ s' l', pop_levels level stack stack_levels = Ok (s', l')
             ∧ P s' l' ∧ length s' = length l'
             ∧ last l' = Some 0 ∧ last s' = last stack
             ∧ (∀ x, x ∈ s' → x ∈ stack)
             ∧ match l' with l0 :: _ => l0 < level | [] => False end.
Proof.
  intros Hlevel Hpop stack stack_levels. revert stack.
  induction stack_levels as [|l ls IH]; intros stack Hlen Hlast HP; [done|].
  destruct stack as [|r s]; [done|]. simpl in Hlen.
  cbn [pop_levels]. destruct (Nat.leb_spec level l) as [Hge|Hlt].
  - destruct ls as [|l' ls].
    { simpl in Hlast. injection Hlast as ->. lia. }
    destruct s as [|r' s]; [done|].
    destruct (IH (r' :: s)) as (s' & l2 & E & HP' & Hlen' & Hl' & Hs' & Hin & Hlt');
      [simpl in *; lia|done|by eapply Hpop|].
    exists s', l2. repeat split; auto.
    intros x Hx. apply elem_of_cons. right. by apply Hin.
  - exists (r :: s), (l :: ls). repeat split; auto.
Qed.

Lemma stack_top_nonempty (stack : list ref) (levels : list nat) :
  length stack = length levels → last levels = Some 0 →
  ∃ top, stack_top stack = Ok top ∧ top ∈ stack.
Proof.
  intros Hlen Hlast. destruct stack as [|r s].
  - destruct levels; done.
  - exists r. split; [done|]. apply elem_of_cons. by left.
Qed.

(** ** One round of the main loop *)

Lemma slice_cons {A} (l : list A) i j x :
  l !! i = Some x → i < j → j ≤ length l →
  slice l i j = x :: slice l (i + 1) j.
Proof.
  intros E Hij Hj. rewrite (slice_split l i (i + 1) j) by lia.
  replace (i + 1) with (S i) at 1 by lia. by rewrite (slice_single l i x E).
Qed.

(** What one round does: it reads the lines from [i] up to [i'], makes
    the block [b] of them, pops the stack for a heading, and attaches the
    block to the top of the stack. *)
Definition step_post (lines : list str) (i : nat) (stack : list ref)
    (stack_levels : list nat) (h : heap)
    (res : result parse_state * heap) : Prop :=
  ∃ b i' s' l' top,
    i < i' ∧ i' ≤ length lines
    ∧ block_text b = concat (slice lines i i') ∧ block_ok b
    ∧ match block_level b with
      | Some level =>
          1 ≤ level ∧ pop_levels level stack stack_levels = Ok (s', l')
      | None => s' = stack ∧ l' = stack_levels
      end
    ∧ stack_top s' = Ok top ∧ top < length h
    ∧ res =
        (Ok (ParseState i'
               (match block_level b with
                | Some _ => length h :: s'
                | None => s'
                end)
               (match block_level b with
                | Some level => level :: l'
                | None => l'
                end)),
         attach top (block_nodes top (length h) b) h).

Lemma parse_heading_or_paragraph_spec lines line i stack stack_levels
    (h : heap) :
  lines !! i = Some line →
  length stack = length stack_levels →
 last stack_levels = Some 0 →
  Forall (λ r, r < length h) stack →
  step_post lines i stack stack_levels h
    (parse_heading_or_paragraph lines line i stack stack_levels h).
Proof.
  intros Hline Hlen Hlast Hrefs.
  pose proof (lookup_lt_Some _ _ _ Hline) as Hi.
  unfold parse_heading_or_paragraph.
  destruct (heading_match line) as [hm|] eqn:Ehm.
  - (* heading *)
    destruct (heading_match_level _ _ Ehm) as [Hl1 Hl6].
    set (level := length (hg_hashes hm)) in *.
    set (nb := length (blank_run (drop (i + 1) lines))).
    destruct (pop_levels_ind (λ _ _, True) level Hl1 (λ _ _ _ _ _ _ _ _, I)
                stack stack_levels Hlen Hlast I)
      as (s' & l' & Epop & _ & Hlen' & Hlast' & _ & Hin & _).
    destruct (stack_top_nonempty s' l' Hlen' Hlast') as (top & Etop & Htop).
    assert (Htop' : top < length h).
    { rewrite Forall_forall in Hrefs. apply Hrefs, Hin, Htop. }
    destruct (_HEADING_TYPES_Some level Hl1 Hl6) as [t Et].
    destruct (_split_trivia (hg_title hm)) as [[tl tc] tt] eqn:Etriv.
    set (f := HeadingNodeFields level line
                (hg_indent hm ++ hg_hashes hm ++ hg_space hm) tl tc tt
                (hg_trailing hm ++ hg_eol hm)
                (concat (blank_run (drop (i + 1) lines)))).
    exists (BHeading t f), (i + 1 + nb), s', l', top.
    pose proof (blank_run_length lines (i + 1) ltac:(lia)).
    split; [lia|]. split; [subst nb; lia|].
    split.
    { simpl. rewrite (slice_cons lines i _ line Hline) by (subst nb; lia).
      simpl. f_equal. subst nb. by rewrite <- blank_run_slice. }
    split; [done|]. split; [done|]. split; [done|]. split; [done|].
    unfold bind at 1, lift at 1. rewrite Epop. simpl.
    unfold bind at 1, lift at 1. rewrite Etop.
    unfold new_HeadingNode. rewrite Et, Etriv.
    unfold bind at 1, alloc at 1.
    rewrite (bind_Ok _ _ _ _ _ (_AppendChildParsed_spec top _ [] h Htop')).
    done.
  - (* paragraph *)
    set (rest := para_run (drop (i + 1) lines)).
    set (nr := length rest).
    set (blanks := blank_run (drop (i + 1 + nr) lines)).
    destruct (stack_top_nonempty stack stack_levels Hlen Hlast)
      as (top & Etop & Htop).
    assert (Htop' : top < length h).
    { rewrite Forall_forall in Hrefs. by apply Hrefs. }
    destruct (new_ParagraphNode_spec (concat (line :: rest)) (concat blanks)
                None h)
      as (nds & Enew & Hleaf & Hraw).
    exists (BPara (ParagraphNodeFields (concat (line :: rest)) (concat blanks)) nds),
      (i + 1 + nr + length blanks), stack, stack_levels, top.
    pose proof (para_run_length lines (i + 1) ltac:(lia)) as Hr.
    fold rest in Hr. fold nr in Hr.
    pose proof (blank_run_length lines (i + 1 + nr) ltac:(lia)) as Hb.
    fold blanks in Hb.
    split; [lia|]. split; [lia|].
    split.
    { simpl. rewrite (slice_cons lines i _ line Hline) by lia.
      simpl. rewrite <- app_assoc. f_equal.
      rewrite (slice_split lines (i + 1) (i + 1 + nr)) by lia.
      rewrite concat_app. f_equal.
      - subst rest nr. by rewrite <- para_run_slice.
      - subst blanks. by rewrite <- blank_run_slice. }
    split; [done|]. split; [done|]. split; [done|]. split; [done|].
    unfold bind at 1, lift at 1. rewrite Etop.
    rewrite (bind_Ok _ _ _ _ _ Enew).
    rewrite (bind_Ok _ _ _ _ _ (_AppendChildParsed_spec top _ _ h Htop')).
    done.
Qed.

Lemma new_CodeBlockNode_spec opening body closing suffix parent (h : heap) :
  ∃ f, new_CodeBlockNode opening body closing suffix parent h
       = (Ok (length h),
          h ++ [Node CodeBlock parent [] false (CCodeBlockNode f)])
       ∧ cb_opening_line_original f = opening
       ∧ cb_code_body_original f = body
       ∧ cb_code_body_current f = body
       ∧ cb_closing_line_original f = closing
       ∧ cb_block_suffix_original f = suffix.
Proof.
  unfold new_CodeBlockNode.
  destruct (_parse_opening opening) as [[[a1 a2] a3] a4].
  destruct (_parse_closing closing) as [[[b1 b2] b3] b4].
  eexists. split; [reflexivity|]. done.
Qed.

Lemma Parse_step_spec lines i stack stack_levels (h : heap) :
  i < length lines →
  length stack = length stack_levels →
 last stack_levels = Some 0 →
  Forall (λ r, r < length h) stack →
  step_post lines i stack stack_levels h
    (Parse_step lines (ParseState i stack stack_levels) h).
Proof.
  intros Hi Hlen Hlast Hrefs.
  destruct (py_index_lt lines i Hi) as (line & Eline & Hline).
  unfold Parse_step. cbn [ps_i ps_stack ps_stack_levels].
  unfold bind at 1, lift at 1. rewrite Eline.
  destruct (fence_open_match line) as [fm|] eqn:Efm;
    [|by apply parse_heading_or_paragraph_spec].
  pose proof (fence_open_match_fence _ _ Efm) as Hfence.
  destruct (py_index_lt (fg_fence fm) 0 ltac:(lia)) as (fc & Efc & _).
  unfold bind at 1, lift at 1. rewrite Efc.
  destruct (find_close fc (length (fg_fence fm)) (drop (i + 1) lines) [] 0)
    as [[body_lines closing_line] read] eqn:Efind.
  apply find_close_spec in Efind
    as [(k & Hk & Hm & _ & -> & ->)|(_ & -> & -> & ->)].
  - (* a closing fence: a code block *)
    apply fence_close_match_nonempty in Hm as Hne; [|lia].
    rewrite bool_decide_eq_false_2 by done. cbn [negb].
    rewrite lookup_drop in Hk. pose proof (lookup_lt_Some _ _ _ Hk) as Hk'.
    simpl app. replace (i + 1 + (0 + k + 1)) with (i + 1 + k + 1) by lia.
    set (blanks := blank_run (drop (i + 1 + k + 1) lines)).
    pose proof (blank_run_length lines (i + 1 + k + 1) ltac:(lia)) as Hb.
    fold blanks in Hb.
    destruct (stack_top_nonempty stack stack_levels Hlen Hlast)
      as (top & Etop & Htop).
    assert (Htop' : top < length h).
    { rewrite Forall_forall in Hrefs. by apply Hrefs. }
    destruct (new_CodeBlockNode_spec line (concat (take k (drop (i + 1) lines)))
                closing_line (concat blanks) None h)
      as (f & Enew & Ho & Hb1 & Hb2 & Hc & Hs).
    exists (BCode f), (i + 1 + k + 1 + length blanks), stack, stack_levels, top.
    split; [lia|]. split; [lia|].
    split.
    { simpl. rewrite Ho, Hb1, Hc, Hs.
      rewrite (slice_cons lines i _ line Hline) by lia.
      simpl. f_equal.
      rewrite (slice_split lines (i + 1) (i + 1 + k)) by lia.
      rewrite concat_app, take_drop_slice. f_equal.
      rewrite (slice_cons lines (i + 1 + k) _ closing_line Hk) by lia.
      simpl. f_equal. subst blanks. by rewrite <- blank_run_slice. }
    split; [done|]. split; [done|]. split; [done|]. split; [done|].
    unfold bind at 1, lift at 1. rewrite Etop.
    rewrite (bind_Ok _ _ _ _ _ Enew).
    rewrite (bind_Ok _ _ _ _ _ (_AppendChildParsed_spec top _ [] h Htop')).
    done.
  - (* no closing fence: back to the opening line *)
    rewrite bool_decide_eq_true_2 by done. cbn [negb].
    simpl app.
    replace (i + 1 + (0 + length (drop (i + 1) lines))
             - length (drop (i + 1) lines) - 1) with i by lia.
    unfold bind at 1, lift at 1. rewrite Eline.
    by apply parse_heading_or_paragraph_spec.
Qed.

(** ** Serialisation of a tree that is being built *)

(** [H'] has, below the length of [H], the objects of [H], except possibly
    at the references in [E]. *)
Definition agree (E : list ref) (H H' : heap) : Prop :=
  ∀ x, x < length H → x ∉ E → H' !! x = H !! x.

(** [r] serialises to [s], in [H] and in every heap that [agree]s with
    it: the subtree of [r] is complete and contains no reference of [E]. *)
Definition frozen (E : list ref) (H : heap) (r : ref) (s : str) : Prop :=
  ∃ F, ∀ (H' : heap) fuel,
    F ≤ fuel → agree E H H' → ToMarkdown fuel H' r = Some s.

Lemma agree_refl E (H : heap) : agree E H H.
Proof. by intros x _ _. Qed.

Lemma frozen_weaken E E' (H H' : heap) r s :
  frozen E H r s →
  length H ≤ length H' → agree E H H' →
  (∀ x, x < length H → x ∈ E' → x ∈ E) →
  frozen E' H' r s.
Proof.
  intros [F HF] Hlen Hag HE. exists F. intros H'' fuel Hfuel Hag'.
  apply HF; [done|]. intros x Hx HxE.
  rewrite <- (Hag x Hx HxE). apply Hag'; [lia|]. intros Hx'. by apply HxE, HE.
Qed.

Lemma frozen_list E (H : heap) cs ks :
  Forall2 (frozen E H) cs ks →
  ∃ F, ∀ (H' : heap) fuel,
    F ≤ fuel → agree E H H' → mapM (ToMarkdown fuel H') cs = Some ks.
Proof.
  induction 1 as [|c k cs ks [F HF] _ [F' IH]].
  - exists 0. intros. done.
  - exists (F `max` F'). intros H' fuel Hfuel Hag.
    apply mapM_Some. constructor.
    + apply HF; [lia|done].
    + apply mapM_Some, IH; [lia|done].
Qed.

(** The text a node that holds blocks writes before its children. *)
Definition own_text (nd : MarkdownNode) : option str :=
  match fields nd with
  | CMarkdownNode => Some []
  | CHeadingNode f =>
      Some ((if negb (_dirty_self nd) then hn_raw_line_original f
             else hn_prefix f
                  ++ (hn_title_leading f ++ hn_title_core f
                      ++ hn_title_trailing f)
                  ++ hn_line_suffix f)
            ++ hn_block_suffix f)
  | CMarkdownDocument f => Some (_leading_trivia f)
  | _ => None
  end.

Lemma ToMarkdown_container fuel (H : heap) r nd o ks :
  H !! r = Some nd → own_text nd = Some o →
  mapM (ToMarkdown fuel H) (_children nd) = Some ks →
  ToMarkdown (S fuel) H r = Some (o ++ concat ks).
Proof.
  intros E Ho Hks. simpl. rewrite E. simpl. unfold own_text in Ho.
  unfold join_map. rewrite Hks. simpl.
  destruct (fields nd) as [| | | |f| |]; try done; injection Ho as <-;
    try done.
  by rewrite (app_assoc _ (hn_block_suffix f) (concat ks)).
Qed.

(** [r] is a node of the open-heading stack: its children are complete
    subtrees, followed by [above], the stack entry above it if there is
    one; [P] is its own text and the text of the complete children. *)
Definition open_node (E : list ref) (H : heap) (r : ref) (above : list ref)
    (P : str) : Prop :=
  ∃ nd o cs ks,
    H !! r = Some nd ∧ own_text nd = Some o
    ∧ _children nd = cs ++ above
    ∧ Forall2 (frozen E H) cs ks
    ∧ P = o ++ concat ks.

(** The stack, top first, with the text [Ps] each entry has so far. *)
Fixpoint chain (E : list ref) (H : heap) (above : list ref)
    (stack : list ref) (Ps : list str) : Prop :=
  match stack, Ps with
  | [], [] => True
  | r :: stack', P :: Ps' => open_node E H r above P ∧ chain E H [r] stack' Ps'
  | _, _ => False
  end.

Lemma mapM_app_Some {A B} (f : A → option B) l1 l2 k1 k2 :
  mapM f l1 = Some k1 → mapM f l2 = Some k2 →
  mapM f (l1 ++ l2) = Some (k1 ++ k2).
Proof. rewrite !mapM_Some. apply Forall2_app. Qed.

(** The bottom of the stack serialises to the texts of the stack, bottom
    first. *)
Lemma chain_render E (H : heap) : ∀ stack Ps above sas d,
  chain E H above stack Ps →
 last stack = Some d →
  (∃ F, ∀ fuel, F ≤ fuel → mapM (ToMarkdown fuel H) above = Some sas) →
  ∃ F, ∀ fuel, F ≤ fuel →
    ToMarkdown fuel H d = Some (concat (reverse Ps) ++ concat sas).
Proof.
  induction stack as [|r stack IH]; intros Ps above sas d Hch Hlast [Fa Ha];
    [done|].
  destruct Ps as [|P Ps]; [done|]. destruct Hch as [Hopen Hch].
  destruct Hopen as (nd & o & cs & ks & Hr & Ho & Hcs & Hfr & ->).
  destruct (frozen_list _ _ _ _ Hfr) as [Fc Hc].
  assert (Hrender : ∀ fuel, S (Fa `max` Fc) ≤ fuel →
            ToMarkdown fuel H r = Some ((o ++ concat ks) ++ concat sas)).
  { intros fuel Hfuel. destruct fuel as [|fuel]; [lia|].
    rewrite (ToMarkdown_container fuel H r nd o (ks ++ sas) Hr Ho).
    - by rewrite concat_app, app_assoc.
    - rewrite Hcs. apply mapM_app_Some.
      + apply Hc; [lia|apply agree_refl].
      + apply Ha. lia. }
  rewrite reverse_cons, concat_app. simpl. rewrite app_nil_r, <- app_assoc.
  destruct stack as [|r' stack].
  - injection Hlast as <-. destruct Ps; [|done]. simpl in *.
    eexists. exact Hrender.
  - destruct (IH Ps [r] [(o ++ concat ks) ++ concat sas] d Hch Hlast)
      as [F HF].
    { exists (S (Fa `max` Fc)). intros fuel Hfuel. simpl.
      by rewrite (Hrender fuel Hfuel). }
    exists F. intros fuel Hfuel. rewrite (HF fuel Hfuel). simpl.
    by rewrite app_nil_r.
Qed.

Lemma chain_transfer E E' (H H' : heap) : ∀ stack Ps above,
  chain E H above stack Ps →
  (∀ r, r ∈ stack → H' !! r = H !! r) →
  length H ≤ length H' → agree E H H' →
  (∀ x, x < length H → x ∈ E' → x ∈ E) →
  chain E' H' above stack Ps.
Proof.
  induction stack as [|r stack IH]; intros Ps above Hch Hsame Hlen Hag HE;
    destruct Ps as [|P Ps]; try done.
  destruct Hch as [Hopen Hch]. split.
  - destruct Hopen as (nd & o & cs & ks & Hr & Ho & Hcs & Hfr & ->).
    exists nd, o, cs, ks. repeat split; auto.
    + rewrite Hsame; [done|]. apply elem_of_cons. by left.
    + eapply Forall2_impl; [exact Hfr|]. intros c k Hf.
      by eapply frozen_weaken.
  - apply IH; auto. intros r' Hr'. apply Hsame, elem_of_cons. by right.
Qed.

Lemma length_attach top B (H : heap) :
  length (attach top B H) = length H + length B.
Proof. unfold attach. by rewrite length_app, length_alter. Qed.

Lemma agree_attach E top B (H : heap) :
  top ∈ E → agree E H (attach top B H).
Proof.
  intros Htop x Hx HxE. unfold attach.
  rewrite lookup_app_l by (by rewrite length_alter).
  apply list_lookup_alter_ne. intros ->. done.
Qed.

Lemma attach_lookup_old top B (H : heap) r :
  r < length H → r ≠ top → attach top B H !! r = H !! r.
Proof.
  intros Hr Hne. unfold attach.
  rewrite lookup_app_l by (by rewrite length_alter).
  by apply list_lookup_alter_ne.
Qed.

Lemma attach_lookup_top top B (H : heap) nd :
  H !! top = Some nd →
  attach top B H !! top = Some (add_child (length H) nd).
Proof.
  intros E. unfold attach. pose proof (lookup_lt_Some _ _ _ E).
  rewrite lookup_app_l by (by rewrite length_alter).
  by rewrite list_lookup_alter_eq, E.
Qed.

Lemma attach_lookup_new top B (H : heap) j :
  attach top B H !! (length H + j) = B !! j.
Proof.
  unfold attach. rewrite lookup_app_r by (rewrite length_alter; lia).
  rewrite length_alter. f_equal. lia.
Qed.

Lemma own_text_add_child c nd : own_text (add_child c nd) = own_text nd.
Proof. done. Qed.

(** A complete block is attached to the top of the stack. *)
Lemma chain_attach_frozen top rest P Ps B (H : heap) R :
  chain (top :: rest) H [] (top :: rest) (P :: Ps) →
  NoDup (top :: rest) → Forall (λ r, r < length H) (top :: rest) →
  frozen (top :: rest) (attach top B H) (length H) R →
  chain (top :: rest) (attach top B H) [] (top :: rest) ((P ++ R) :: Ps).
Proof.
  intros [Hopen Hch] Hnd Hlt Hfr.
  apply NoDup_cons in Hnd as [Hnotin _].
  apply Forall_cons in Hlt as [Htop Hrest].
  assert (Hag : agree (top :: rest) H (attach top B H)).
  { apply agree_attach, elem_of_cons. by left. }
  assert (Hlen : length H ≤ length (attach top B H)).
  { rewrite length_attach. lia. }
  split.
  - destruct Hopen as (nd & o & cs & ks & Hr & Ho & Hcs & Hfrs & ->).
    exists (add_child (length H) nd), o, (cs ++ [length H]), (ks ++ [R]).
    split; [by apply attach_lookup_top|]. split; [done|].
    split; [simpl; by rewrite Hcs, !app_nil_r|].
    split.
    + apply Forall2_app; [|by constructor].
      eapply Forall2_impl; [exact Hfrs|]. intros c k Hf.
      by eapply frozen_weaken.
    + rewrite concat_app. simpl. by rewrite app_nil_r, app_assoc.
  - eapply chain_transfer; eauto.
    intros r Hr. apply attach_lookup_old.
    + rewrite Forall_forall in Hrest. by apply Hrest.
    + intros ->. done.
Qed.

(** A heading is attached to the top of the stack and pushed. *)
Lemma chain_attach_push top rest P Ps nd (H : heap) o :
  chain (top :: rest) H [] (top :: rest) (P :: Ps) →
  NoDup (top :: rest) → Forall (λ r, r < length H) (top :: rest) →
  own_text nd = Some o → _children nd = [] →
  chain (length H :: top :: rest) (attach top [nd] H) []
    (length H :: top :: rest) (o :: P :: Ps).
Proof.
  intros [Hopen Hch] Hnd Hlt Ho Hkids.
  apply NoDup_cons in Hnd as [Hnotin _].
  apply Forall_cons in Hlt as [Htop Hrest].
  assert (Hag : agree (top :: rest) H (attach top [nd] H)).
  { apply agree_attach, elem_of_cons. by left. }
  assert (Hlen : length H ≤ length (attach top [nd] H)).
  { rewrite length_attach. lia. }
  assert (HE : ∀ x, x < length H → x ∈ length H :: top :: rest →
                    x ∈ top :: rest).
  { intros x Hx Hin. apply elem_of_cons in Hin as [->|Hin]; [lia|done]. }
  split; [|split].
  - exists nd, o, [], []. repeat split.
    + pose proof (attach_lookup_new top [nd] H 0) as E.
      by rewrite Nat.add_0_r in E.
    + done.
    + by rewrite Hkids.
    + constructor.
    + simpl. by rewrite app_nil_r.
  - destruct Hopen as (nd' & o' & cs & ks & Hr & Ho' & Hcs & Hfrs & ->).
    exists (add_child (length H) nd'), o', cs, ks.
    split; [by apply attach_lookup_top|]. split; [done|].
    split; [simpl; by rewrite Hcs, !app_nil_r|].
    split; [|done].
    eapply Forall2_impl; [exact Hfrs|]. intros c k Hf.
    by eapply frozen_weaken.
  - eapply chain_transfer; eauto.
    intros r Hr. apply attach_lookup_old.
    + rewrite Forall_forall in Hrest. by apply Hrest.
    + intros ->. done.
Qed.

(** The top of the stack is popped: its subtree is complete. *)
Lemma chain_pop r r' rest P P' Ps (H : heap) :
  chain (r :: r' :: rest) H [] (r :: r' :: rest) (P :: P' :: Ps) →
  NoDup (r :: r' :: rest) → r < length H →
  chain (r' :: rest) H [] (r' :: rest) ((P' ++ P) :: Ps).
Proof.
  intros (Hopen & Hopen' & Hch) Hnd Hr.
  apply NoDup_cons in Hnd as [Hnotin _].
  assert (HE : ∀ x, x < length H → x ∈ r' :: rest → x ∈ r :: r' :: rest).
  { intros x _ Hin. apply elem_of_cons. by right. }
  assert (Hfr : frozen (r' :: rest) H r P).
  { destruct Hopen as (nd & o & cs & ks & Hnd & Ho & Hcs & Hfrs & ->).
    rewrite app_nil_r in Hcs.
    assert (Hfrs' : Forall2 (frozen (r' :: rest) H) cs ks).
    { eapply Forall2_impl; [exact Hfrs|]. intros c k Hf.
      eapply frozen_weaken; eauto using agree_refl. }
    destruct (frozen_list _ _ _ _ Hfrs') as [F HF].
    exists (S F). intros H' fuel Hfuel Hag.
    destruct fuel as [|fuel]; [lia|].
    apply ToMarkdown_container with nd; [|done|].
    - rewrite Hag; done.
    - rewrite Hcs. apply HF; [lia|done]. }
  split.
  - destruct Hopen' as (nd & o & cs & ks & Hnd & Ho & Hcs & Hfrs & ->).
    exists nd, o, (cs ++ [r]), (ks ++ [P]). repeat split; auto.
    + by rewrite app_nil_r.
    + apply Forall2_app; [|by constructor].
      eapply Forall2_impl; [exact Hfrs|]. intros c k Hf.
      eapply frozen_weaken; eauto using agree_refl.
    + rewrite concat_app. simpl. by rewrite app_nil_r, app_assoc.
  - eapply chain_transfer; eauto using agree_refl.
Qed.

(** ** Leaves, and a link whose fields were changed *)

(** The change of one link node: new fields and possibly a dirty mark. *)
Definition relink (g : LinkNode_fields → LinkNode_fields) (dirty : bool)
    (n : MarkdownNode) : MarkdownNode :=
  match fields n with
  | CLinkNode f =>
      Node (NType n) (_parent n) (_children n) (dirty || _dirty_self n)
        (CLinkNode (g f))
  | _ => n
  end.

(** A Text or Link node without children. *)
Definition leafish (nd : MarkdownNode) : Prop :=
  _children nd = [] ∧
  match fields nd with
  | CTextNode _ | CLinkNode _ => True
  | _ => False
  end.

Lemma inline_leaf_leafish nd : inline_leaf nd → leafish nd.
Proof.
  intros (Hc & _ & Hf). split; [done|]. by destruct (fields nd).
Qed.

Lemma inline_leaf_text nd : inline_leaf nd → leaf_text nd = leaf_raw nd.
Proof.
  intros (_ & Hd & Hf). unfold leaf_text, leaf_raw. rewrite Hd.
  by destruct (fields nd).
Qed.

Lemma inline_leaf_with_parent p nd :
  inline_leaf nd → inline_leaf (with_parent p nd).
Proof. done. Qed.

Lemma leafish_IsDirty fuel (H : heap) x nd :
  H !! x = Some nd → leafish nd →
  IsDirty (S fuel) H x = Some (_dirty_self nd).
Proof.
  intros E [Hc _]. simpl. rewrite E, Hc. by destruct (_dirty_self nd).
Qed.

Lemma leafish_ToMarkdown fuel (H : heap) x nd :
  H !! x = Some nd → leafish nd →
  ToMarkdown (S (S fuel)) H x = Some (leaf_text nd).
Proof.
  intros E Hl. cbn [ToMarkdown]. rewrite E. cbn [mbind option_bind].
  rewrite (leafish_IsDirty fuel H x nd E Hl).
  destruct Hl as [_ Hf]. unfold leaf_text.
  destruct (fields nd); try done; simpl; by destruct (_dirty_self nd).
Qed.

(** The objects [nds] are in [H] from the reference [b] on. *)
Definition placed (H : heap) (b : ref) (nds : list MarkdownNode) : Prop :=
  ∀ j nd, nds !! j = Some nd → H !! (b + j) = Some nd.

Lemma placed_cons (H : heap) b nd nds :
  placed H b (nd :: nds) → H !! b = Some nd ∧ placed H (S b) nds.
Proof.
  intros Hp. split.
  - specialize (Hp 0 nd eq_refl). by rewrite Nat.add_0_r in Hp.
  - intros j nd' E. specialize (Hp (S j) nd' E).
    by rewrite Nat.add_succ_r in Hp.
Qed.

Lemma leaves_dirty fuel (H : heap) nds : ∀ b,
  placed H b nds → Forall leafish nds →
  py_any (IsDirty (S fuel) H) (seq b (length nds))
  = Some (existsb _dirty_self nds).
Proof.
  induction nds as [|nd nds IH]; intros b Hp Hl; [done|].
  cbn [length seq py_any existsb].
  apply placed_cons in Hp as [E Hp]. apply Forall_cons in Hl as [Hl Hls].
  rewrite (leafish_IsDirty fuel H b nd E Hl).
  destruct (_dirty_self nd); [done|]. by apply IH.
Qed.

Lemma leaves_markdown fuel (H : heap) nds : ∀ b,
  placed H b nds → Forall leafish nds →
  mapM (ToMarkdown (S (S fuel)) H) (seq b (length nds))
  = Some (leaf_text <$> nds).
Proof.
  intros b Hp Hl. apply mapM_Some. revert b Hp.
  induction Hl as [|nd nds Hl Hls IH]; intros b Hp; cbn [length seq fmap list_fmap];
    [constructor|].
  apply placed_cons in Hp as [E Hp]. constructor; [|by apply IH].
  by apply leafish_ToMarkdown.
Qed.

Lemma leaves_clean nds :
  Forall leafish nds → existsb _dirty_self nds = false →
  leaf_text <$> nds = leaf_raw <$> nds.
Proof.
  induction 1 as [|nd nds [_ Hf] _ IH]; [done|].
  cbn [existsb]. intros Hd. apply orb_false_iff in Hd as [Hd Hds].
  rewrite !fmap_cons, (IH Hds). f_equal. unfold leaf_text, leaf_raw.
  rewrite Hd. by destruct (fields nd).
Qed.

Lemma ToMarkdown_paragraph fuel (H : heap) r nd f :
  H !! r = Some nd → fields nd = CParagraphNode f →
  ToMarkdown (S fuel) H r =
    dirty ← (if _dirty_self nd then Some true
             else py_any (IsDirty fuel H) (_children nd));
    content ← (if negb dirty then Some (pn_raw_original f)
               else join_map (ToMarkdown fuel H) (_children nd));
    Some (content ++ pn_block_suffix f).
Proof. intros E Ef. simpl. rewrite E. simpl. by rewrite Ef. Qed.

(** A paragraph and its leaves serialise to the texts of the leaves and
    the block suffix, whether a leaf is dirty or not. *)
Lemma paragraph_frozen E (H : heap) c t p f nds :
  H !! c = Some (Node t p (seq (S c) (length nds)) false (CParagraphNode f)) →
  placed H (S c) nds → Forall leafish nds →
  concat (leaf_raw <$> nds) = pn_raw_original f →
  c + length nds < length H →
  (∀ x, x ∈ E → x < c) →
  frozen E H c (concat (leaf_text <$> nds) ++ pn_block_suffix f).
Proof.
  intros Hc Hp Hl Hraw Hlen HE. exists 3. intros H' fuel Hfuel Hag.
  assert (Hsame : ∀ x, c ≤ x → x < length H → H' !! x = H !! x).
  { intros x Hx1 Hx2. apply Hag; [done|]. intros Hin. apply HE in Hin. lia. }
  assert (Hp' : placed H' (S c) nds).
  { intros j nd Ej. rewrite Hsame; [by apply Hp|lia|].
    apply lookup_lt_Some in Ej. lia. }
  rewrite <- Hsame in Hc by lia.
  destruct fuel as [|fuel]; [lia|].
  rewrite (ToMarkdown_paragraph fuel H' c _ f Hc eq_refl).
  cbn [_dirty_self _children].
  destruct fuel as [|[|fuel]]; [lia..|].
  rewrite (leaves_dirty (S fuel) H' nds (S c) Hp' Hl). cbn [mbind option_bind].
  destruct (existsb _dirty_self nds) eqn:Ed; cbn [negb].
  - unfold join_map. rewrite (leaves_markdown fuel H' nds (S c) Hp' Hl). done.
  - cbn [mbind option_bind]. by rewrite (leaves_clean nds Hl Ed), Hraw.
Qed.

(** A code block that nobody touched serialises to its original text. *)
Lemma code_frozen E (H : heap) c p f :
  H !! c = Some (Node CodeBlock p [] false (CCodeBlockNode f)) →
  (∀ x, x ∈ E → x < c) →
  frozen E H c (block_text (BCode f)).
Proof.
  intros Hc HE. exists 2. intros H' fuel Hfuel Hag.
  pose proof (lookup_lt_Some _ _ _ Hc) as Hlt.
  assert (Hc' : H' !! c = Some (Node CodeBlock p [] false (CCodeBlockNode f))).
  { rewrite Hag; [done..|]. intros Hin. apply HE in Hin. lia. }
  destruct fuel as [|fuel]; [lia|].
  assert (Hu : ToMarkdown (S fuel) H' c =
    d ← IsDirty fuel H' c;
    if negb d then Some (block_text (BCode f))
    else Some ((cb_opening_prefix f ++ cb_fence f ++ cb_info f
                ++ cb_opening_eol f) ++ cb_code_body_current f
               ++ (cb_closing_indent f ++ cb_closing_fence f
                   ++ cb_closing_trailing f ++ cb_closing_eol f)
               ++ cb_block_suffix_original f)).
  { simpl. rewrite Hc'. done. }
  rewrite Hu. destruct fuel as [|fuel]; [lia|].
  assert (Hd : IsDirty (S fuel) H' c = Some false).
  { simpl. by rewrite Hc'. }
  by rewrite Hd.
Qed.

Lemma alter_ge {A} (f : A → A) (l : list A) i :
  length l ≤ i → alter f i l = l.
Proof.
  revert i. induction l as [|x l IH]; intros [|i] Hi; simpl in *;
    try done; try lia.
  f_equal. apply IH. lia.
Qed.

Lemma concat_take_slice {A} (ls : list (list A)) i i' :
  i ≤ i' → i' ≤ length ls →
  concat (take i' ls) = concat (take i ls) ++ concat (slice ls i i').
Proof.
  intros H1 H2. rewrite <- concat_app. f_equal.
  change (take i' ls) with (slice ls 0 i').
  change (take i ls) with (slice ls 0 i).
  apply slice_split; lia.
Qed.

(** [d] is a [MarkdownDocument] of the heap. *)
Definition is_doc (h : heap) (d : ref) : Prop :=
  ∃ nd f, h !! d = Some nd ∧ fields nd = CMarkdownDocument f.

Lemma attach_is_doc top B (h : heap) d :
  is_doc h d → is_doc (attach top B h) d.
Proof.
  intros (nd & f & E & Ef). pose proof (lookup_lt_Some _ _ _ E).
  destruct (decide (d = top)) as [->|Hne].
  - exists (add_child (length h) nd), f. split; [|done].
    by apply attach_lookup_top.
  - exists nd, f. split; [|done]. by rewrite attach_lookup_old.
Qed.

(** ** The parser, seen through the change of one link

    The invariant of the main loop is stated on the heap in which the link
    with the reference [L] (if the parser has created it already, and if it
    is a link) has the fields [g] gives it.  With the identity for [g] this
    is the heap of the parser itself. *)
Section Relink.
Variable L : ref.
Variable g : LinkNode_fields → LinkNode_fields.
Variable dirty : bool.
Hypothesis g_raw : ∀ f, ln_raw_original (g f) = ln_raw_original f.

Local Abbreviation mutf := (relink g dirty).

Lemma relink_nonlink n : (∀ f, fields n ≠ CLinkNode f) → mutf n = n.
Proof. unfold relink. destruct (fields n); try done. intros H. by destruct (H f). Qed.

Lemma relink_own_text n o : own_text n = Some o → mutf n = n.
Proof.
  intros Ho. apply relink_nonlink. intros f Hf.
  unfold own_text in Ho. by rewrite Hf in Ho.
Qed.

Lemma relink_add_child c n : mutf (add_child c n) = add_child c (mutf n).
Proof. unfold relink. simpl. by destruct (fields n). Qed.

Lemma relink_leafish n : leafish n → leafish (mutf n).
Proof.
  intros [Hc Hf]. unfold relink, leafish in *.
  destruct (fields n) eqn:E; simpl; rewrite ?E; auto.
Qed.

Lemma relink_leaf_raw n : leaf_raw (mutf n) = leaf_raw n.
Proof.
  unfold relink, leaf_raw. destruct (fields n) eqn:E; simpl; rewrite ?E; auto.
Qed.

Lemma relink_islink n f :
  fields (mutf n) = CLinkNode f → ∃ f0, fields n = CLinkNode f0.
Proof. unfold relink. destruct (fields n) eqn:E; simpl; rewrite ?E; eauto; done. Qed.

Lemma alter_attach top B (h : heap) :
  alter mutf L (attach top B h)
  = attach top (if decide (L < length h) then B
                else alter mutf (L - length h) B)
      (alter mutf L h).
Proof.
  unfold attach. rewrite length_alter. case_decide as Hlt.
  - rewrite alter_app_l by (by rewrite length_alter). f_equal.
    destruct (decide (L = top)) as [->|Hne].
    + rewrite !list_alter_alter_eq. apply list_alter_ext; [|done].
      intros x _. simpl. apply relink_add_child.
    + by apply list_alter_alter_ne.
  - rewrite alter_app_r_alt by (rewrite length_alter; lia).
    rewrite length_alter. f_equal. f_equal. symmetry. apply alter_ge. lia.
Qed.

(** [out] is the text read so far and [out'] the serialisation of the
    document after the change: they differ in the span of the link. *)
Definition Rel (h : heap) (out out' : str) : Prop :=
  match h !! L with
  | Some nd0 =>
      match fields nd0 with
      | CLinkNode f =>
          inline_leaf nd0
          ∧ ∃ a b, out = a ++ ln_raw_original f ++ b
                   ∧ out' = a ++ leaf_text (mutf nd0) ++ b
      | _ => out' = out
      end
  | None => out' = out
  end.

Lemma Rel_old top B (h : heap) out out' x :
  L < length h →
  (∀ nd f, h !! top = Some nd → fields nd ≠ CLinkNode f) →
  Rel h out out' → Rel (attach top B h) (out ++ x) (out' ++ x).
Proof.
  intros Hlt Htop. unfold Rel.
  destruct (lookup_lt_is_Some_2 h L Hlt) as [nd0 E]. rewrite E.
  assert (Hcase : attach top B h !! L = Some nd0
                  ∨ (L = top ∧ attach top B h !! L
                               = Some (add_child (length h) nd0))).
  { destruct (decide (L = top)) as [->|Hne].
    - right. split; [done|]. by apply attach_lookup_top.
    - left. rewrite attach_lookup_old; done. }
  destruct Hcase as [->|[-> ->]].
  - destruct (fields nd0).
    1,2,4,5,6,7: by intros ->.
    intros (Hl & a & b & -> & ->). split; [done|].
    exists a, (b ++ x). by rewrite <- !app_assoc.
  - specialize (Htop nd0). simpl.
    destruct (fields nd0).
    1,2,4,5,6,7: by intros ->.
    by destruct (Htop f E).
Qed.

Lemma Rel_new_plain top B (h : heap) out out' x :
  length h ≤ L →
  (∀ nd f, B !! (L - length h) = Some nd → fields nd ≠ CLinkNode f) →
  Rel h out out' → Rel (attach top B h) (out ++ x) (out' ++ x).
Proof.
  intros Hge HB. unfold Rel. rewrite (lookup_ge_None_2 h L) by lia.
  intros ->.
  assert (E1 : attach top B h !! L = B !! (L - length h)).
  { rewrite <- (attach_lookup_new top B h). f_equal. lia. }
  rewrite E1.
  destruct (B !! (L - length h)) as [nd|] eqn:E; [|done].
  specialize (HB nd). destruct (fields nd); try done.
  by destruct (HB f eq_refl).
Qed.

(** The leaves of a new paragraph, when [L] is one of them. *)
Lemma Rel_new_leaf top p (nds : list MarkdownNode) (h : heap) out out' suffix :
  length h < L →
  Forall inline_leaf nds →
  Rel h out out' →
  Rel (attach top (p :: nds) h)
    (out ++ concat (leaf_raw <$> nds) ++ suffix)
    (out' ++ concat (leaf_text <$> alter mutf (L - length h - 1) nds)
         ++ suffix).
Proof.
  intros Hgt Hl. unfold Rel. rewrite (lookup_ge_None_2 h L) by lia.
  intros ->.
  assert (E1 : attach top (p :: nds) h !! L = nds !! (L - length h - 1)).
  { change (nds !! (L - length h - 1))
      with ((p :: nds) !! S (L - length h - 1)).
    rewrite <- (attach_lookup_new top (p :: nds) h). f_equal. lia. }
  rewrite E1.
  set (j := L - length h - 1).
  destruct (nds !! j) as [nd0|] eqn:E.
  2:{ rewrite alter_ge by (by apply lookup_ge_None).
      do 3 f_equal. apply Forall_fmap_ext. eapply Forall_impl; [exact Hl|].
      apply inline_leaf_text. }
  pose proof (take_drop_middle _ _ _ E) as Hsplit.
  assert (Hl1 : leaf_text <$> take j nds = leaf_raw <$> take j nds).
  { apply Forall_fmap_ext. eapply Forall_impl; [by apply Forall_take|].
    apply inline_leaf_text. }
  assert (Hl2 : leaf_text <$> drop (S j) nds = leaf_raw <$> drop (S j) nds).
  { apply Forall_fmap_ext. eapply Forall_impl; [by apply Forall_drop|].
    apply inline_leaf_text. }
  assert (Hnd0 : inline_leaf nd0).
  { rewrite Forall_forall in Hl. eapply Hl, list_elem_of_lookup_2, E. }
  assert (Halt : alter mutf j nds
                 = take j nds ++ mutf nd0 :: drop (S j) nds).
  { rewrite <- Hsplit at 1.
    pose proof (lookup_lt_Some _ _ _ E) as Hj.
    rewrite alter_app_r_alt by (rewrite length_take; lia).
    rewrite length_take. replace (j - j `min` length nds) with 0 by lia.
    done. }
  assert (Hraw : concat (leaf_raw <$> nds)
                 = concat (leaf_raw <$> take j nds) ++ leaf_raw nd0
                   ++ concat (leaf_raw <$> drop (S j) nds)).
  { rewrite <- Hsplit at 1. by rewrite fmap_app, fmap_cons, concat_app. }
  assert (Htext : concat (leaf_text <$> alter mutf j nds)
                  = concat (leaf_raw <$> take j nds) ++ leaf_text (mutf nd0)
                    ++ concat (leaf_raw <$> drop (S j) nds)).
  { by rewrite Halt, fmap_app, fmap_cons, concat_app, Hl1, Hl2. }
  rewrite Hraw, Htext. clear Hraw Htext.
  destruct (fields nd0) eqn:Ef.
  1,2,4,5,6,7:
    (rewrite (relink_nonlink nd0) by (intros f' Hf'; by rewrite Ef in Hf');
     by rewrite (inline_leaf_text nd0 Hnd0)).
  split; [done|].
  exists (out ++ concat (leaf_raw <$> take j nds)),
    (concat (leaf_raw <$> drop (S j) nds) ++ suffix).
  unfold leaf_raw at 2. rewrite Ef. by rewrite <- !app_assoc.
Qed.

(** The stack [s] is open in [h]: its texts, bottom first, make up
    [out']. *)
Definition Open (h : heap) (out' : str) (s : list ref) (l : list nat)
  : Prop :=
  NoDup s ∧ Forall (λ r, r < length h) s
  ∧ ∃ Ps, chain s (alter mutf L h) [] s Ps ∧ concat (reverse Ps) = out'.

Lemma Open_pop (h : heap) out' r r' s l l' ls :
  Open h out' (r :: r' :: s) (l :: l' :: ls) →
  Open h out' (r' :: s) (l' :: ls).
Proof.
  intros (Hnd & Hlt & Ps & Hch & Hout).
  destruct Ps as [|P [|P' Ps]];
    [destruct Hch|destruct Hch as [_ []]|].
  split; [by apply NoDup_cons in Hnd as [_ ?]|].
  split; [by apply Forall_cons in Hlt as [_ ?]|].
  exists ((P' ++ P) :: Ps). split.
  - apply (chain_pop r); [done|done|]. rewrite length_alter.
    by apply Forall_cons in Hlt as [? _].
  - rewrite <- Hout, !reverse_cons, !concat_app. simpl.
    by rewrite !app_nil_r, <- !app_assoc.
Qed.

Lemma Open_top_nonlink (h : heap) out' top rest l nd f :
  Open h out' (top :: rest) l → h !! top = Some nd →
  fields nd ≠ CLinkNode f.
Proof.
  intros (_ & _ & Ps & Hch & _) E Hf.
  destruct Ps as [|P Ps]; [done|]. destruct Hch as [Hopen _].
  destruct Hopen as (nd' & o & cs & ks & Hnd' & Ho & _).
  rewrite list_lookup_alter in Hnd'.
  assert (∃ f', fields nd' = CLinkNode f') as [f' Hf'].
  { case_decide; subst; rewrite E in Hnd'; simplify_eq/=; [|eauto].
    unfold relink. rewrite Hf. simpl. eauto. }
  unfold own_text in Ho. by rewrite Hf' in Ho.
Qed.

(** A block is attached: the stack stays open, with the text of the
    block at its end. *)
Lemma block_attach top rest l b (h : heap) out out' :
  Open h out' (top :: rest) l → Rel h out out' → block_ok b →
  ∃ out'',
    Open (attach top (block_nodes top (length h) b) h) out''
      (match block_level b with
       | Some _ => length h :: top :: rest
       | None => top :: rest
       end) l
    ∧ Rel (attach top (block_nodes top (length h) b) h)
        (out ++ block_text b) out''.
Proof.
  intros HO HR Hok.
  pose proof (Open_top_nonlink h out' top rest l) as Hnl.
  specialize (λ nd f, Hnl nd f HO).
  destruct HO as (Hnd & Hlt & Ps & Hch & Hout).
  destruct Ps as [|P Ps]; [done|].
  set (H := alter mutf L h) in *.
  assert (HlenH : length H = length h) by apply length_alter.
  assert (HltH : Forall (λ r, r < length H) (top :: rest))
    by (by rewrite HlenH).
  assert (Hfresh : ∀ x, x ∈ top :: rest → x < length H).
  { by apply Forall_forall. }
  assert (HltA : ∀ B, Forall (λ r, r < length (attach top B h))
                        (top :: rest)).
  { intros B. eapply Forall_impl; [exact Hlt|]. intros x Hx.
    rewrite length_attach. simpl in *. lia. }
  assert (Hone : ∀ nd : MarkdownNode, mutf nd = nd →
            (if decide (L < length h) then [nd]
             else alter mutf (L - length h) [nd]) = [nd]).
  { intros nd Hm. case_decide; [done|].
    destruct (L - length h) as [|k]; simpl; by rewrite ?Hm. }
  assert (Hrev : ∀ R, concat (reverse ((P ++ R) :: Ps)) = out' ++ R).
  { intros R. rewrite <- Hout, !reverse_cons, !concat_app. simpl.
    by rewrite !app_nil_r, <- !app_assoc. }
  assert (Hplain : ∀ nd : MarkdownNode,
            (∀ f, fields nd ≠ CLinkNode f) → ∀ x,
            Rel (attach top [nd] h) (out ++ x) (out' ++ x)).
  { intros nd Hnd' x. destruct (decide (L < length h)).
    - apply Rel_old; [done| |done]. intros nd' f' E. by apply Hnl.
    - apply Rel_new_plain; [lia| |done]. intros nd' f' E.
      destruct (L - length h); simplify_eq/=. apply Hnd'. }
  destruct b as [f|t f|f nds]; cbn [block_level block_nodes block_text].
  - (* code block *)
    set (c := Node CodeBlock (Some top) [] false (CCodeBlockNode f)).
    exists (out' ++ block_text (BCode f)). split; [|by apply Hplain].
    split; [done|]. split; [apply HltA|].
    exists ((P ++ block_text (BCode f)) :: Ps). split; [|apply Hrev].
    rewrite alter_attach, (Hone c) by done. fold H.
    apply chain_attach_frozen; [done..|].
    apply code_frozen with (Some top); [|done].
    pose proof (attach_lookup_new top [c] H 0) as E.
    by rewrite Nat.add_0_r in E.
  - (* heading *)
    set (c := Node t (Some top) [] false (CHeadingNode f)).
    exists (out' ++ (hn_raw_line_original f ++ hn_block_suffix f)).
    split; [|by apply Hplain].
    split.
    { apply NoDup_cons. split; [|done]. intros Hin.
      rewrite Forall_forall in Hlt. apply Hlt in Hin. lia. }
    split.
    { apply Forall_cons. split; [rewrite length_attach; simpl; lia|].
      apply HltA. }
    exists ((hn_raw_line_original f ++ hn_block_suffix f) :: P :: Ps).
    split.
    + rewrite alter_attach, (Hone c) by done. fold H. rewrite <- HlenH.
      by apply chain_attach_push.
    + rewrite reverse_cons, concat_app, Hout. simpl. by rewrite app_nil_r.
  - (* paragraph *)
    destruct Hok as [Hleaf Hraw].
    set (c := length h).
    set (nds' := with_parent (Some c) <$> nds).
    set (p := Node Paragraph (Some top) (seq (S c) (length nds)) false
                (CParagraphNode f)).
    assert (Hleaf' : Forall inline_leaf nds').
    { apply Forall_fmap. eapply Forall_impl; [exact Hleaf|]. done. }
    assert (Hraw' : concat (leaf_raw <$> nds') = pn_raw_original f).
    { rewrite <- Hraw. f_equal. subst nds'. rewrite <- list_fmap_compose.
      by apply list_fmap_ext. }
    assert (Hfrozen : ∀ nds'' : list MarkdownNode,
      Forall leafish nds'' → length nds'' = length nds →
      concat (leaf_raw <$> nds'') = pn_raw_original f →
      frozen (top :: rest) (attach top (p :: nds'') H) (length H)
        (concat (leaf_text <$> nds'') ++ pn_block_suffix f)).
    { intros nds'' Hl'' Hlen'' Hraw''.
      eapply paragraph_frozen; [| |done|done| |done].
      - pose proof (attach_lookup_new top (p :: nds'') H 0) as E.
        rewrite Nat.add_0_r in E. rewrite E. simpl. subst p.
        by rewrite HlenH, Hlen''.
      - intros j nd Ej.
        pose proof (attach_lookup_new top (p :: nds'') H (S j)) as E.
        rewrite Nat.add_succ_r in E.
        change (S (length H) + j) with (S (length H + j)). by rewrite E.
      - rewrite length_attach. simpl. lia. }
    destruct (decide (L ≤ length h)) as [Hle|Hgt].
    + (* the link is not among the new leaves *)
      exists (out' ++ block_text (BPara f nds)).
      assert (Htext : concat (leaf_text <$> nds') ++ pn_block_suffix f
                      = block_text (BPara f nds)).
      { simpl. rewrite <- Hraw'. do 2 f_equal. apply Forall_fmap_ext.
        eapply Forall_impl; [exact Hleaf'|]. apply inline_leaf_text. }
      split.
      * split; [done|]. split; [apply HltA|].
        exists ((P ++ block_text (BPara f nds)) :: Ps). split; [|apply Hrev].
        rewrite alter_attach.
        replace (if decide (L < length h) then p :: nds'
                 else alter mutf (L - length h) (p :: nds'))
          with (p :: nds').
        2:{ case_decide; [done|].
            replace (L - length h) with 0 by lia. done. }
        fold H. apply chain_attach_frozen; [done..|].
        rewrite <- Htext.
        apply Hfrozen; [|subst nds'; by rewrite length_fmap|done].
        eapply Forall_impl; [exact Hleaf'|]. apply inline_leaf_leafish.
      * destruct (decide (L < length h)).
        -- apply Rel_old; [done| |done]. intros nd' f' E. by apply Hnl.
        -- apply Rel_new_plain; [lia| |done]. intros nd' f' E.
           replace (L - length h) with 0 in E by lia. by simplify_eq/=.
    + (* the link may be one of the new leaves *)
      set (nds'' := alter mutf (L - length h - 1) nds').
      exists (out' ++ concat (leaf_text <$> nds'') ++ pn_block_suffix f).
      split.
      * split; [done|]. split; [apply HltA|].
        exists ((P ++ concat (leaf_text <$> nds'') ++ pn_block_suffix f)
                :: Ps).
        split; [|apply Hrev].
        rewrite alter_attach.
        replace (if decide (L < length h) then p :: nds'
                 else alter mutf (L - length h) (p :: nds'))
          with (p :: nds'').
        2:{ case_decide; [lia|].
            replace (L - length h) with (S (L - length h - 1)) by lia.
            done. }
        fold H. apply chain_attach_frozen; [done..|].
        apply Hfrozen.
        -- apply Forall_alter.
           ++ eapply Forall_impl; [exact Hleaf'|]. apply inline_leaf_leafish.
           ++ intros x _. apply relink_leafish.
        -- subst nds'' nds'. by rewrite length_alter, length_fmap.
        -- rewrite <- Hraw'. f_equal. subst nds''.
           rewrite (list_fmap_alter leaf_raw mutf id).
           ++ by rewrite list_alter_id.
           ++ apply Forall_forall. intros x _. apply relink_leaf_raw.
      * pose proof (Rel_new_leaf top p nds' h out out' (pn_block_suffix f)
                      ltac:(lia) Hleaf' HR) as HR'.
        simpl. by rewrite Hraw' in HR'.
Qed.

(** The invariant of the main loop. *)
Definition Inv (lines : list str) (d : ref) (st : parse_state) (h : heap)
  : Prop :=
  ps_i st ≤ length lines
  ∧ length (ps_stack st) = length (ps_stack_levels st)
  ∧ last (ps_stack_levels st) = Some 0
  ∧ last (ps_stack st) = Some d
  ∧ is_doc h d
  ∧ ∃ out', Open h out' (ps_stack st) (ps_stack_levels st)
            ∧ Rel h (concat (take (ps_i st) lines)) out'.

Lemma Parse_step_Inv lines d st (h : heap) :
  Inv lines d st h → ps_i st < length lines →
  ∃ st' h', Parse_step lines st h = (Ok st', h')
            ∧ Inv lines d st' h'
            ∧ ps_i st < ps_i st' ∧ length h ≤ length h'.
Proof.
  destruct st as [i stack levels]. cbn [ps_i ps_stack ps_stack_levels].
  intros (Hi & Hlen & Hlast & Hbot & Hdoc & out' & HO & HR) Hlt.
  destruct (Parse_step_spec lines i stack levels h Hlt Hlen Hlast)
    as (b & i' & s' & l' & top & Hi1 & Hi2 & Htext & Hok & Hpop & Etop
        & Htop & Estep).
  { by destruct HO as (_ & ? & _). }
  assert (Hs' : Open h out' s' l' ∧ length s' = length l'
                ∧ last l' = Some 0 ∧ last s' = Some d).
  { destruct (block_level b) as [level|].
    - destruct Hpop as [Hl1 Epop].
      destruct (pop_levels_ind (Open h out') level Hl1
                  (λ r r' s l l0 ls _, Open_pop h out' r r' s l l0 ls)
                  stack levels Hlen Hlast HO)
        as (s2 & l2 & E2 & HO2 & Hlen2 & Hlast2 & Hbot2 & _).
      rewrite Epop in E2. injection E2 as <- <-.
      by rewrite Hbot2.
    - by destruct Hpop as [-> ->]. }
  destruct Hs' as (HO' & Hlen' & Hlast' & Hbot').
  destruct s' as [|top' rest]; [done|]. injection Etop as ->.
  destruct (block_attach top rest l' b h _ out' HO' HR Hok)
    as (out'' & HO'' & HR'').
  eexists _, _. split; [exact Estep|].
  split; [|split; [done|rewrite length_attach; lia]].
  unfold Inv. cbn [ps_i ps_stack ps_stack_levels].
  split; [done|].
  split; [simpl in Hlen'; destruct (block_level b); simpl; lia|].
  split; [destruct (block_level b); [by rewrite last_cons, Hlast'|done]|].
  split; [destruct (block_level b); [by rewrite last_cons, Hbot'|done]|].
  split; [by apply attach_is_doc|].
  exists out''. split.
  - destruct HO'' as (? & ? & ?). done.
  - by rewrite (concat_take_slice lines i i'), <- Htext by lia.
Qed.

Lemma Parse_loop_Inv lines d fuel : ∀ st (h : heap),
  Inv lines d st h → length lines ≤ fuel + ps_i st →
  ∃ st' h', Parse_loop fuel lines st h = (Ok st', h')
            ∧ Inv lines d st' h'
            ∧ ps_i st' = length lines ∧ length h ≤ length h'.
Proof.
  assert (Hend : ∀ st (h : heap),
    Inv lines d st h → length lines ≤ ps_i st →
    ∃ st' h', (Ok st, h) = (Ok st', h') ∧ Inv lines d st' h'
              ∧ ps_i st' = length lines ∧ length h ≤ length h').
  { intros st h HI Hge. pose proof HI as (Hi & _).
    exists st, h. split; [done|]. split; [done|]. split; lia. }
  induction fuel as [|fuel IH]; intros st h HI Hfuel; cbn [Parse_loop];
    destruct (Nat.ltb_spec (ps_i st) (length lines)) as [Hlt|Hge];
    [lia|by apply Hend| |by apply Hend].
  destruct (Parse_step_Inv lines d st h HI Hlt)
    as (st1 & h1 & E1 & HI1 & Hprog & Hlen1).
  rewrite (bind_Ok _ _ _ _ _ E1).
  destruct (IH st1 h1 HI1 ltac:(lia)) as (st2 & h2 & E2 & HI2 & Hend2 & Hlen2).
  exists st2, h2. split; [done|]. split; [done|]. split; lia.
Qed.

(** The document node once [Parse] has cleared it and collected the
    leading blank lines [t]. *)
Definition doc_node (nd : MarkdownNode) (f : MarkdownDocument_fields)
    (t : str) : MarkdownNode :=
  Node (NType nd) (_parent nd) [] (_dirty_self nd)
    (CMarkdownDocument (MarkdownDocumentFields t (_source_path f))).

Lemma alter_insert (h : heap) i x fn :
  h !! i = Some x → alter fn i h = <[i := fn x]> h.
Proof.
  intros E. rewrite list_insert_alter. apply list_alter_ext; [|done].
  intros y Ey. by simplify_eq.
Qed.

Lemma for_each_leading d nd f blanks : ∀ acc (h : heap),
  h !! d = Some (doc_node nd f acc) →
  for_each (λ l, modify_node d (set_leading_trivia (λ t, t ++ l))) blanks h
  = (Ok tt, <[d := doc_node nd f (acc ++ concat blanks)]> h).
Proof.
  induction blanks as [|l blanks IH]; intros acc h E; simpl.
  - unfold ret. by rewrite app_nil_r, list_insert_id.
  - rewrite (bind_Ok _ _ _ _ _ (modify_node_Ok _ _ _ _ E)).
    rewrite (alter_insert _ _ _ _ E).
    change (set_leading_trivia (λ t, t ++ l) (doc_node nd f acc))
      with (doc_node nd f (acc ++ l)).
    rewrite (IH (acc ++ l)).
    + by rewrite list_insert_insert_eq, <- app_assoc.
    + apply list_lookup_insert_eq. by apply lookup_lt_Some in E.
Qed.

(** [Parse] on a document: the loop ends at the last line, and the
    document serialises to the input, up to the span of the link. *)
Lemma Parse_run_spec (h : heap) d nd f markdown :
  h !! d = Some nd → fields nd = CMarkdownDocument f → length h ≤ L →
  ∃ st h',
    Parse_run d markdown h = (Ok st, h')
    ∧ ps_i st = length (splitlines markdown)
    ∧ length h ≤ length h' ∧ is_doc h' d
    ∧ ∃ out',
        (∃ F, ∀ fuel, F ≤ fuel →
                ToMarkdown fuel (alter mutf L h') d = Some out')
        ∧ Rel h' markdown out'.
Proof.
  intros E Ef HL. unfold Parse_run.
  pose proof (lookup_lt_Some _ _ _ E) as Hd.
  set (lines := splitlines markdown).
  set (blanks := blank_run lines).
  rewrite (bind_Ok _ _ _ _ _ (modify_node_Ok _ _ _ _ E)).
  rewrite (alter_insert _ _ _ _ E).
  assert (E1 : <[d := with_children [] nd]> h !! d
               = Some (with_children [] nd)).
  { by apply list_lookup_insert_eq. }
  rewrite (bind_Ok _ _ _ _ _ (modify_node_Ok _ _ _ _ E1)).
  rewrite (alter_insert _ _ _ _ E1), list_insert_insert_eq.
  assert (E2 : set_leading_trivia (λ _, []) (with_children [] nd)
               = doc_node nd f []).
  { unfold set_leading_trivia. simpl. by rewrite Ef. }
  rewrite E2.
  assert (E3 : <[d := doc_node nd f []]> h !! d = Some (doc_node nd f [])).
  { by apply list_lookup_insert_eq. }
  rewrite (bind_Ok _ _ _ _ _ (for_each_leading d nd f blanks [] _ E3)).
  rewrite list_insert_insert_eq. simpl app.
  set (h0 := <[d := doc_node nd f (concat blanks)]> h).
  assert (Hlen0 : length h0 = length h) by apply length_insert.
  assert (E0 : h0 !! d = Some (doc_node nd f (concat blanks))).
  { by apply list_lookup_insert_eq. }
  assert (HI : Inv lines d (ParseState (length blanks) [d] [0]) h0).
  { split; [apply span_length|]. split; [done|]. split; [done|].
    split; [done|]. split; [by eexists _, _|].
    exists (concat blanks). cbn [ps_i ps_stack ps_stack_levels].
    split.
    - split; [apply NoDup_singleton|].
      split; [apply Forall_singleton; lia|].
      exists [concat blanks ++ []]. split.
      + split; [|done].
        exists (doc_node nd f (concat blanks)), (concat blanks), [], [].
        split; [by rewrite alter_ge by lia|]. repeat split; auto.
      + cbn. by rewrite !app_nil_r.
    - unfold Rel. rewrite (lookup_ge_None_2 h0 L) by lia.
      unfold blanks, blank_run. by rewrite <- span_take. }
  destruct (Parse_loop_Inv lines d (length lines) _ h0 HI ltac:(simpl; lia))
    as (st' & h' & Eloop & HI' & Hend & Hlen').
  exists st', h'. split; [done|]. split; [done|]. split; [lia|].
  destruct HI' as (_ & _ & _ & Hbot & Hdoc' & out'
                   & (_ & _ & Ps & Hch & Hout) & HR).
  split; [done|].
  exists out'. split.
  - destruct (chain_render _ _ _ _ [] [] d Hch Hbot) as [F HF].
    { exists 0. done. }
    exists F. intros fuel Hfuel. rewrite (HF fuel Hfuel).
    by rewrite Hout, app_nil_r.
  - rewrite Hend, take_ge in HR by done.
    unfold lines in HR. by rewrite splitlines_concat in HR.
Qed.
End Relink.

Lemma relink_id n : relink id false n = n.
Proof. unfold relink. destruct n as [t p c d f]. by destruct f. Qed.


(** * The claims *)

(** The lines of a text, each closed by a line feed. *)
Definition py_lines (ls : list string) : str :=
  concat ((λ l, py l ++ [10%N]) <$> ls).

Lemma FromString_unfold s (h : heap) :
  FromString s h =
    let root := Node Root None [] false
                  (CMarkdownDocument (MarkdownDocumentFields [] None)) in
    if bool_decide (s = []) then (Ok (length h), h ++ [root])
    else match Parse_run (length h) s (h ++ [root]) with
         | (Ok _, h') => (Ok (length h), h')
         | (Raise e, h') => (Raise e, h')
         end.
Proof.
  unfold FromString, new_MarkdownDocument, Parse, bind, alloc, ret.
  case_bool_decide; [done|].
  by destruct (Parse_run (length h) s (h ++ _)) as [[?|?] ?].
Qed.

(** C1 (round trip).  For every text [s], and in every heap, building a
    document from [s] and serialising it, with nothing changed in between,
    gives back exactly [s]; and that serialisation is the leading trivia of
    the document followed by the serialisations of its top-level
    children. *)
Theorem round_trip (h : heap) (s : str) :
  ∃ d h',
    FromString s h = (Ok d, h')
    ∧ ∃ F, ∀ fuel, F ≤ fuel →
        ToMarkdown (S fuel) h' d = Some s
        ∧ ∃ nd f ks,
            h' !! d = Some nd ∧ fields nd = CMarkdownDocument f
            ∧ mapM (ToMarkdown fuel h') (_children nd) = Some ks
            ∧ _leading_trivia f ++ concat ks = s.
Proof.
  set (root := Node Root None [] false
                 (CMarkdownDocument (MarkdownDocumentFields [] None))).
  assert (Hdoc : ∀ (h' : heap) fuel,
    is_doc h' (length h) →
    ToMarkdown (S fuel) h' (length h) = Some s →
    ∃ nd f ks,
      h' !! length h = Some nd ∧ fields nd = CMarkdownDocument f
      ∧ mapM (ToMarkdown fuel h') (_children nd) = Some ks
      ∧ _leading_trivia f ++ concat ks = s).
  { intros h' fuel (nd & f & E & Ef) Hs. simpl in Hs. rewrite E in Hs.
    simpl in Hs. rewrite Ef in Hs. unfold join_map in Hs.
    destruct (mapM (ToMarkdown fuel h') (_children nd)) as [ks|] eqn:Ek;
      [|done].
    simpl in Hs. injection Hs as Hs. by exists nd, f, ks. }
  exists (length h). rewrite FromString_unfold. cbv zeta. fold root.
  assert (Eroot : (h ++ [root]) !! length h = Some root).
  { by rewrite lookup_app_r, Nat.sub_diag by lia. }
  case_bool_decide as Hs.
  - subst s. exists (h ++ [root]). split; [done|]. exists 0.
    intros fuel _.
    assert (E : ToMarkdown (S fuel) (h ++ [root]) (length h) = Some []).
    { simpl. by rewrite Eroot. }
    split; [done|]. apply Hdoc; [|done]. by eexists root, _.
  - destruct (Parse_run_spec (length (h ++ [root])) id false (λ _, eq_refl)
                (h ++ [root]) (length h) root _ s Eroot eq_refl)
      as (st & h' & Erun & _ & Hlen & Hd & out' & [F HF] & HR); [done|].
    rewrite Erun. exists h'. split; [done|].
    rewrite list_alter_id in HF by apply relink_id.
    assert (out' = s) as ->.
    { unfold Rel in HR. destruct (h' !! length (h ++ [root])) as [nd0|]; [|done].
      destruct (fields nd0) eqn:Ef; try done.
      destruct HR as (Hl & a & b & -> & ->).
      rewrite relink_id, (inline_leaf_text _ Hl). unfold leaf_raw.
      by rewrite Ef. }
    exists F. intros fuel Hfuel.
    assert (E : ToMarkdown (S fuel) h' (length h) = Some s).
    { apply HF. lia. }
    split; [done|]. by apply Hdoc.
Qed.

Lemma set_Href_link L v (h : heap) nd f :
  h !! L = Some nd → fields nd = CLinkNode f →
  set_Href L v h
  = (Ok tt, alter (relink (ln_set_href_core (strip v)) true) L h).
Proof.
  intros E Ef. unfold set_Href, bind, get_node. rewrite E, Ef.
  rewrite (modify_node_Ok _ _ _ _ E).
  rewrite (MarkDirty_Ok _ _ _ (lookup_alter_Some _ _ _ _ E)).
  rewrite list_alter_alter_eq. f_equal. apply list_alter_ext; [|done].
  intros x Ex. simplify_eq. unfold relink. by rewrite Ef.
Qed.

(** C2 (minimal-diff mutation).  In a document built from any text [s],
    assigning a new [Href] to a link node [L] of the document changes, in
    the serialisation, the span of that link only: what is before and what
    is after the link is, byte for byte, what the input has there.  The
    link span of the input is the link as its fields spell it, and the new
    span is the same with the stripped value as the core of the target. *)
Theorem minimal_diff (h0 : heap) (s v : str) (d : ref) (h : heap) (L : ref)
    (nd : MarkdownNode) (f : LinkNode_fields) :
  FromString s h0 = (Ok d, h) →
  length h0 < L → h !! L = Some nd → fields nd = CLinkNode f →
  ∃ h' pre post,
    set_Href L v h = (Ok tt, h')
    ∧ s = pre ++ ln_raw_original f ++ post
    ∧ ln_raw_original f = rebuilt_link f
    ∧ ∃ F, ∀ fuel, F ≤ fuel →
        ToMarkdown fuel h' d
        = Some (pre ++ rebuilt_link (ln_set_href_core (strip v) f) ++ post).
Proof.
  rewrite FromString_unfold. cbv zeta.
  set (root := Node Root None [] false
                 (CMarkdownDocument (MarkdownDocumentFields [] None))).
  intros Hfrom HL E Ef.
  assert (Eroot : (h0 ++ [root]) !! length h0 = Some root).
  { by rewrite lookup_app_r, Nat.sub_diag by lia. }
  case_bool_decide as Hs.
  { injection Hfrom as <- <-. apply lookup_lt_Some in E.
    rewrite length_app in E. simpl in E. lia. }
  destruct (Parse_run_spec L (ln_set_href_core (strip v)) true (λ _, eq_refl)
              (h0 ++ [root]) (length h0) root _ s Eroot eq_refl)
    as (st & h1 & Erun & _ & Hlen & Hd & out' & HF & HR).
  { rewrite length_app. simpl. lia. }
  rewrite Erun in Hfrom. injection Hfrom as <- ->.
  unfold Rel in HR. rewrite E, Ef in HR.
  destruct HR as (Hleaf & a & b & -> & ->).
  exists (alter (relink (ln_set_href_core (strip v)) true) L h), a, b.
  split; [by eapply set_Href_link|]. split; [done|].
  split.
  { destruct Hleaf as (_ & _ & Hf). rewrite Ef in Hf. by destruct Hf. }
  assert (Etext : leaf_text (relink (ln_set_href_core (strip v)) true nd)
                  = rebuilt_link (ln_set_href_core (strip v) f)).
  { unfold relink. rewrite Ef. done. }
  by rewrite <- Etext.
Qed.

(** C4 (the parser is total).  On every text, [Parse] on a document
    returns, within the fuel of the model, without raising; its main loop
    ends with every line read; and the tree it leaves serialises to the
    text, so every line is in the leading trivia or in one heading, code
    block or paragraph. *)
Theorem Parse_total (h : heap) (d : ref) (markdown : str) :
  is_doc h d →
  ∃ st h',
    Parse_run d markdown h = (Ok st, h')
    ∧ Parse d markdown h = (Ok tt, h')
    ∧ ps_i st = length (splitlines markdown)
    ∧ is_doc h' d
    ∧ ∃ F, ∀ fuel, F ≤ fuel → ToMarkdown fuel h' d = Some markdown.
Proof.
  intros (nd & f & E & Ef).
  destruct (Parse_run_spec (length h) id false (λ _, eq_refl)
              h d nd f markdown E Ef (Nat.le_refl _))
    as (st & h' & Erun & Hend & Hlen & Hd & out' & [F HF] & HR).
  exists st, h'. split; [done|].
  split; [unfold Parse; by rewrite (bind_Ok _ _ _ _ _ Erun)|].
  split; [done|]. split; [done|].
  rewrite list_alter_id in HF by apply relink_id.
  assert (out' = markdown) as ->; [|by exists F].
  unfold Rel in HR. destruct (h' !! length h) as [nd0|]; [|done].
  destruct (fields nd0) eqn:Ef0; try done.
  destruct HR as (Hl & a & b & -> & ->).
  rewrite relink_id, (inline_leaf_text _ Hl). unfold leaf_raw.
  by rewrite Ef0.
Qed.

(** C6 (the inline scanner reconstructs its input).  For every raw text
    the scanner returns, without raising, the references of a finite list
    of new Text, Link and Image leaves, in order, and the concatenation of
    their serialisations is the raw text. *)
Theorem inline_scanner_reconstruction (h : heap) (raw : str) :
  ∃ nds,
    _parse_inlines raw h = (Ok (seq (length h) (length nds)), h ++ nds)
    ∧ Forall (λ nd, (NType nd = Text ∨ NType nd = Link ∨ NType nd = Image)
                    ∧ _children nd = []) nds
    ∧ ∀ fuel, 2 ≤ fuel →
        join_map (ToMarkdown fuel (h ++ nds)) (seq (length h) (length nds))
        = Some raw.
Proof.
  destruct (_parse_inlines_spec raw h) as (nds & (E & Hl & _) & Hraw).
  exists nds. split; [exact E|]. split.
  - eapply Forall_impl; [exact Hl|]. intros nd (Hc & _ & Hf).
    split; [|done]. destruct (fields nd) as [|f|f| | | |]; try done.
    + destruct Hf as [-> _]. auto.
    + destruct Hf as [-> _]. destruct (ln_is_image f); auto.
  - intros fuel Hfuel. destruct fuel as [|[|fuel]]; [lia..|].
    unfold join_map.
    rewrite (leaves_markdown fuel (h ++ nds) nds (length h)).
    + simpl. f_equal. rewrite <- Hraw. f_equal. apply Forall_fmap_ext.
      eapply Forall_impl; [exact Hl|]. apply inline_leaf_text.
    + intros j nd Ej. by rewrite lookup_app_r, Nat.add_comm, Nat.add_sub by lia.
    + eapply Forall_impl; [exact Hl|]. apply inline_leaf_leafish.
Qed.

(** ** Examples used as witnesses *)

Definition ex_root : MarkdownNode :=
  Node Root None [] false (CMarkdownDocument (MarkdownDocumentFields [] None)).

(** Three paragraphs, the first with one link. *)
Definition ex_text : str :=
  py_lines ["See [docs](http://x) and more."; ""; "Second paragraph.";
            ""; "Third."].

Definition ex_doc : heap := Eval vm_compute in (FromString ex_text []).2.

Definition ex_link : MarkdownNode :=
  Eval vm_compute in default ex_root (ex_doc !! 3).

Definition ex_link_fields : LinkNode_fields :=
  Eval vm_compute in
    match fields ex_link with
    | CLinkNode f => f
    | _ => LinkNodeFields [] false [] [] [] [] [] []
    end.

Lemma minimal_diff_witness :
  FromString ex_text [] = (Ok 0, ex_doc)
  ∧ length ([] : heap) < 3
  ∧ ex_doc !! 3 = Some ex_link
  ∧ fields ex_link = CLinkNode ex_link_fields
  ∧ ∃ h' pre post,
      set_Href 3 (py " http://y ") ex_doc = (Ok tt, h')
      ∧ ex_text = pre ++ ln_raw_original ex_link_fields ++ post
      ∧ ln_raw_original ex_link_fields = rebuilt_link ex_link_fields
      ∧ ∃ F, ∀ fuel, F ≤ fuel →
          ToMarkdown fuel h' 0
          = Some (pre
                  ++ rebuilt_link
                       (ln_set_href_core (strip (py " http://y "))
                          ex_link_fields)
                  ++ post).
Proof.
  assert (H1 : FromString ex_text [] = (Ok 0, ex_doc)) by (vm_compute; reflexivity).
  assert (H2 : length ([] : heap) < 3) by (simpl; lia).
  assert (H3 : ex_doc !! 3 = Some ex_link) by reflexivity.
  assert (H4 : fields ex_link = CLinkNode ex_link_fields) by reflexivity.
  split; [exact H1|]. split; [exact H2|]. split; [exact H3|].
  split; [exact H4|].
  exact (minimal_diff [] ex_text (py " http://y ") 0 ex_doc 3 ex_link
           ex_link_fields H1 H2 H3 H4).
Defined.

Lemma Parse_total_witness :
  is_doc [ex_root] 0
  ∧ ∃ st h',
      Parse_run 0 (py_lines ["```"; "never closed"]) [ex_root] = (Ok st, h')
      ∧ Parse 0 (py_lines ["```"; "never closed"]) [ex_root] = (Ok tt, h')
      ∧ ps_i st = length (splitlines (py_lines ["```"; "never closed"]))
      ∧ is_doc h' 0
      ∧ ∃ F, ∀ fuel, F ≤ fuel →
          ToMarkdown fuel h' 0 = Some (py_lines ["```"; "never closed"]).
Proof.
  assert (H1 : is_doc [ex_root] 0).
  { exists ex_root, (MarkdownDocumentFields [] None). split; reflexivity. }
  split; [exact H1|].
  exact (Parse_total [ex_root] 0 (py_lines ["```"; "never closed"]) H1).
Defined.

(** ** The [Text] setter *)

Lemma set_field_Ok self (h : heap) nd c :
  h !! self = Some nd →
  (modify_node self (with_fields c) ;; MarkDirty self) h
  = (Ok tt, <[self := Node (NType nd) (_parent nd) (_children nd) true c]> h).
Proof.
  intros E. rewrite (bind_Ok _ _ _ _ _ (modify_node_Ok _ _ _ _ E)).
  rewrite (MarkDirty_Ok _ _ _ (lookup_alter_Some _ _ _ _ E)).
  rewrite list_alter_alter_eq, (alter_insert _ _ _ _ E). done.
Qed.

(** C9 (what the [Text] setter keeps).  After [node.Text = v] the getter
    returns [v.strip()] on a TextNode, on a LinkNode (the label) and on a
    HeadingNode (the title): the node keeps the leading and trailing
    trivia it captured, which go on being serialised around the new core.
    On a CodeBlockNode the getter returns [v] as it is. *)
Theorem Text_setter_normalization (h : heap) (self : ref)
    (nd : MarkdownNode) (v : str) :
  h !! self = Some nd →
  let set c := <[self := Node (NType nd) (_parent nd) (_children nd) true c]> h in
  (∀ f, fields nd = CTextNode f →
     let h' := set (CTextNode (TextNodeFields (tn_raw_original f)
                                 (tn_leading f) (strip v) (tn_trailing f))) in
     set_Text self v h = (Ok tt, h')
     ∧ (∀ fuel, get_Text fuel h' self = Some (strip v))
     ∧ ∀ fuel, ToMarkdown (S (S fuel)) h' self
               = Some (tn_leading f ++ strip v ++ tn_trailing f))
  ∧ (∀ f, fields nd = CLinkNode f →
       let f' := LinkNodeFields (ln_raw_original f) (ln_is_image f)
                   (ln_label_leading f) (strip v) (ln_label_trailing f)
                   (ln_href_leading f) (ln_href_core f) (ln_href_trailing f) in
       let h' := set (CLinkNode f') in
       set_Text self v h = (Ok tt, h')
       ∧ (∀ fuel, get_Text fuel h' self = Some (strip v))
       ∧ ∀ fuel, ToMarkdown (S (S fuel)) h' self = Some (rebuilt_link f'))
  ∧ (∀ f, fields nd = CHeadingNode f →
       let h' := set (CHeadingNode
                        (HeadingNodeFields (Level f) (hn_raw_line_original f)
                           (hn_prefix f) (hn_title_leading f) (strip v)
                           (hn_title_trailing f) (hn_line_suffix f)
                           (hn_block_suffix f))) in
       set_Text self v h = (Ok tt, h')
       ∧ ∀ fuel, get_Text fuel h' self = Some (strip v))
  ∧ (∀ f, fields nd = CCodeBlockNode f →
       ∃ h', set_Text self v h = (Ok tt, h')
             ∧ ∀ fuel, get_Text fuel h' self = Some v).
Proof.
  intros E set. pose proof (lookup_lt_Some _ _ _ E) as Hlt.
  assert (Hset : ∀ c, set c !! self
                      = Some (Node (NType nd) (_parent nd) (_children nd) true c)).
  { intros c. by apply list_lookup_insert_eq. }
  assert (Hrun : ∀ c, fields nd = c → ∀ c',
            (∀ f, c = CTextNode f → c' = CTextNode (tn_set_core (strip v) f)) →
            (∀ f, c = CLinkNode f → c' = CLinkNode (ln_set_label_core (strip v) f)) →
            (∀ f, c = CHeadingNode f → c' = CHeadingNode (hn_set_title_core (strip v) f)) →
            (∀ f, c = CCodeBlockNode f → c' = CCodeBlockNode (cb_set_code_body_current v f)) →
            (∃ f, c = CTextNode f) ∨ (∃ f, c = CLinkNode f)
            ∨ (∃ f, c = CHeadingNode f) ∨ (∃ f, c = CCodeBlockNode f) →
            set_Text self v h = (Ok tt, set c')).
  { intros c Ec c' H1 H2 H3 H4 Hc. unfold set_Text, bind at 1, get_node.
    rewrite E, Ec.
    destruct Hc as [[f ->]|[[f ->]|[[f ->]|[f ->]]]].
    - rewrite (H1 f eq_refl). by apply set_field_Ok.
    - rewrite (H2 f eq_refl). by apply set_field_Ok.
    - rewrite (H3 f eq_refl). by apply set_field_Ok.
    - rewrite (H4 f eq_refl). by apply set_field_Ok. }
  split; [|split; [|split]]; intros f Ef; cbv zeta.
  - split; [|split].
    + apply (Hrun _ Ef); eauto; try (intros ? [=]; done).
      by intros f' [= <-].
    + intros fuel. unfold get_Text. by rewrite Hset.
    + intros fuel. simpl. by rewrite !Hset.
  - split; [|split].
    + apply (Hrun _ Ef); eauto 6; try (intros ? [=]; done).
      by intros f' [= <-].
    + intros fuel. unfold get_Text. by rewrite Hset.
    + intros fuel. simpl. by rewrite !Hset.
  - split.
    + apply (Hrun _ Ef); eauto 6; try (intros ? [=]; done).
      by intros f' [= <-].
    + intros fuel. unfold get_Text. by rewrite Hset.
  - eexists. split.
    + apply (Hrun _ Ef (CCodeBlockNode (cb_set_code_body_current v f)));
        eauto 6; try (intros ? [=]; done).
      by intros f' [= <-].
    + intros fuel. unfold get_Text. by rewrite Hset.
Qed.

Lemma Text_setter_normalization_witness :
  ex_doc !! 3 = Some ex_link
  ∧ ∃ h', set_Text 3 (py "  manual ") ex_doc = (Ok tt, h')
          ∧ get_Text 0 h' 3 = Some (py "manual")
          ∧ ToMarkdown 2 h' 3 = Some (py "[manual](http://x)").
Proof.
  assert (H1 : ex_doc !! 3 = Some ex_link) by reflexivity.
  split; [exact H1|].
  destruct (Text_setter_normalization ex_doc 3 ex_link (py "  manual ") H1)
    as (_ & Hlink & _).
  destruct (Hlink ex_link_fields eq_refl) as (Hset & Hget & Hmd).
  eexists. split; [exact Hset|]. split; [exact (Hget 0)|exact (Hmd 0)].
Defined.

(** Which classes define a setter for [Text]: TextNode, LinkNode,
    CodeBlockNode and HeadingNode. *)
Definition Text_setter_supported (nd : MarkdownNode) : bool :=
  match fields nd with
  | CTextNode _ | CLinkNode _ | CCodeBlockNode _ | CHeadingNode _ => true
  | CMarkdownNode | CParagraphNode _ | CMarkdownDocument _ => false
  end.

(** The message of the error an assignment to [Text] ends with on a node
    whose class has no setter for it: the one of [MarkdownNode.Text]'s
    setter, and for a ParagraphNode the one of the interpreter. *)
Definition unsupported_Text_message (nd : MarkdownNode) : string :=
  match fields nd with
  | CParagraphNode _ => no_setter_message "Text" "ParagraphNode"
  | _ => NodeType_value (NType nd) +:+ " does not support Text assignment"
  end.

Lemma set_Text_supported_Ok self v (h : heap) nd :
  h !! self = Some nd → Text_setter_supported nd = true →
  ∃ h', set_Text self v h = (Ok tt, h').
Proof.
  intros E Hs. unfold set_Text, bind at 1, get_node. rewrite E.
  unfold Text_setter_supported in Hs.
  destruct (fields nd); try done; rewrite (set_field_Ok _ _ _ _ E); eauto.
Qed.

Lemma set_Text_unsupported_Raise (h : heap) self nd v :
  h !! self = Some nd → Text_setter_supported nd = false →
  set_Text self v h
  = (Raise (AttributeError (unsupported_Text_message nd)), h).
Proof.
  intros E Hs. unfold set_Text, bind, get_node. rewrite E.
  unfold Text_setter_supported in Hs. unfold unsupported_Text_message.
  by destruct (fields nd).
Qed.



(** C10 (a failed assignment changes nothing).  When an assignment to
    [Text] raises, the heap is the heap before the assignment: no node has
    become dirty and every node serialises as before. *)
Theorem failed_Text_assignment_atomic (h : heap) (self : ref) (v : str)
    (e : exn) (h' : heap) :
  set_Text self v h = (Raise e, h') →
  h' = h
  ∧ ∀ fuel r, IsDirty fuel h' r = IsDirty fuel h r
              ∧ ToMarkdown fuel h' r = ToMarkdown fuel h r.
Proof.
  intros Hset. assert (h' = h) as ->; [|done].
  destruct (h !! self) as [nd|] eqn:E.
  - destruct (Text_setter_supported nd) eqn:Hs.
    + destruct (set_Text_supported_Ok self v h nd E Hs) as [h1 E1].
      rewrite E1 in Hset. discriminate Hset.
    + rewrite (set_Text_unsupported_Raise h self nd v E Hs) in Hset.
      by injection Hset.
  - unfold set_Text, bind, get_node in Hset. rewrite E in Hset.
    by injection Hset.
Qed.

Lemma failed_Text_assignment_atomic_witness :
  set_Text 0 (py "title") ex_doc
  = (Raise (AttributeError "Root does not support Text assignment"), ex_doc)
  ∧ ex_doc = ex_doc
  ∧ ∀ fuel r, IsDirty fuel ex_doc r = IsDirty fuel ex_doc r
              ∧ ToMarkdown fuel ex_doc r = ToMarkdown fuel ex_doc r.
Proof.
  assert (H1 : set_Text 0 (py "title") ex_doc
               = (Raise (AttributeError "Root does not support Text assignment"),
                  ex_doc)) by reflexivity.
  split; [exact H1|].
  exact (failed_Text_assignment_atomic ex_doc 0 (py "title") _ ex_doc H1).
Defined.

(** ** Fences and headings *)

Lemma span_run_head c (s : str) :
  1 ≤ length (span (N.eqb c) s).1 → ∃ s', s = c :: s'.
Proof.
  destruct s as [|a s]; simpl; [lia|].
  destruct (N.eqb_spec c a) as [->|]; simpl; [eauto|lia].
Qed.

Lemma span_eqb_replicate c (s : str) :
  (span (N.eqb c) s).1 = replicate (length (span (N.eqb c) s).1) c.
Proof.
  induction s as [|a s IH]; simpl; [done|].
  destruct (N.eqb_spec c a) as [->|]; [|done].
  destruct (span (N.eqb a) s) as [x y]; simpl in *. by rewrite <- IH.
Qed.

(** A line that opens a fence is no heading line. *)
Lemma fence_not_heading line fm :
  fence_open_match line = Some fm → heading_match line = None.
Proof.
  unfold fence_open_match, heading_match.
  destruct (span is_sp_tab line) as [indent r1].
  assert (Hrun : ∀ c, c ≠ 35%N →
    (let '(fence, r2) := span (N.eqb c) r1 in
     if 3 <=? length fence then Some (fence, r2) else None) ≠ None →
    (span (N.eqb 35) r1).1 = []).
  { intros c Hc Hr.
    destruct (span (N.eqb c) r1) as [fence r2] eqn:E.
    destruct (Nat.leb_spec 3 (length fence)); [|done].
    destruct (span_run_head c r1) as [s' ->]; [rewrite E; simpl; lia|].
    cbn [span]. destruct (N.eqb_spec 35 c) as [<-|]; done. }
  intros H.
  assert (Hh : (span (N.eqb 35) r1).1 = []).
  { destruct (let '(fence, r2) := span (N.eqb 96%N) r1 in
              if 3 <=? length fence then Some (fence, r2) else None) eqn:E1.
    - apply (Hrun 96%N); [done|]. by rewrite E1.
    - destruct (let '(fence, r2) := span (N.eqb 126%N) r1 in
                if 3 <=? length fence then Some (fence, r2) else None) eqn:E2;
        [|done].
      apply (Hrun 126%N); [done|]. by rewrite E2. }
  destruct (span (N.eqb 35) r1) as [hashes r2]. simpl in Hh. by subst hashes.
Qed.

Lemma fence_close_match_inv c n l :
  fence_close_match c n l = true →
  ∃ indent k rest,
    l = indent ++ replicate k c ++ rest
    ∧ Forall (λ x, is_sp_tab x = true) indent ∧ n ≤ k.
Proof.
  unfold fence_close_match.
  pose proof (span_app is_sp_tab l) as E1.
  pose proof (span_Forall is_sp_tab l) as F1.
  destruct (span is_sp_tab l) as [indent r1]. simpl in *.
  pose proof (span_app (N.eqb c) r1) as E2.
  pose proof (span_eqb_replicate c r1) as R2.
  destruct (span (N.eqb c) r1) as [run r2]. simpl in *.
  intros H. apply andb_true_iff in H as [H _]. apply Nat.leb_le in H.
  exists indent, (length run), r2. rewrite <- R2, E2, E1. done.
Qed.

Lemma find_close_found c n rest : ∀ k closing body read,
  rest !! k = Some closing → fence_close_match c n closing = true →
  (∀ j l, j < k → rest !! j = Some l → fence_close_match c n l = false) →
  find_close c n rest body read = (body ++ take k rest, closing, read + k + 1).
Proof.
  induction rest as [|l2 rest IH]; intros k closing body read Hk Hm Hbefore;
    [done|].
  destruct k as [|k]; simpl in *.
  - injection Hk as ->. rewrite Hm, app_nil_r. f_equal; lia.
  - rewrite (Hbefore 0 l2) by (done || lia).
    rewrite (IH k closing) by (auto; intros j l Hj; apply (Hbefore (S j)); lia).
    rewrite <- app_assoc. simpl. f_equal; lia.
Qed.

Lemma find_close_none c n rest : ∀ body read,
  (∀ j l, rest !! j = Some l → fence_close_match c n l = false) →
  find_close c n rest body read = (body ++ rest, [], read + length rest).
Proof.
  induction rest as [|l2 rest IH]; intros body read Hnone; simpl.
  - rewrite app_nil_r. f_equal; lia.
  - rewrite (Hnone 0 l2) by done.
    rewrite IH by (intros j l; apply (Hnone (S j))).
    rewrite <- app_assoc. simpl. f_equal; lia.
Qed.

(** The line at which a run of [span] ends does not have the property. *)
Lemma span_next {A} (p : A → bool) s x :
  s !! length (span p s).1 = Some x → p x = false.
Proof.
  induction s as [|a s IH]; simpl; [done|].
  destruct (p a) eqn:Ea.
  - destruct (span p s) as [u w]. exact IH.
  - simpl. by intros [= <-].
Qed.

(** C3, amended (fence matching).  A line of exactly three backticks does
    not close a fence of four.  A closing line has, after its indentation,
    the fence character of the opening line at least as many times as the
    opening line.  When such a line follows, the round makes a code block
    whose body is every line between the opening line and the first such
    line, whatever fences those lines have.  When none follows before the
    input ends, the round does not raise: it goes back to the opening line
    and makes a paragraph of that line and the lines after it up to the
    next blank line, heading line or fence-open line; the line index then
    stands after the blank lines that follow the paragraph, so the rest of
    the region is read by the next rounds as any other text. *)
Theorem fence_matching (lines : list str) (i : nat) (stack : list ref)
    (stack_levels : list nat) (h : heap) (line : str) (fm : fence_groups)
    (c : N) :
  lines !! i = Some line → fence_open_match line = Some fm →
  fg_fence fm !! 0 = Some c →
  length stack = length stack_levels → last stack_levels = Some 0 →
  Forall (λ r, r < length h) stack →
  let n := length (fg_fence fm) in
  let st := ParseState i stack stack_levels in
  fence_close_match 96 4 (py_lines ["```"]) = false
  ∧ (∀ l, fence_close_match c n l = true →
       ∃ indent k rest,
         l = indent ++ replicate k c ++ rest
         ∧ Forall (λ x, is_sp_tab x = true) indent ∧ n ≤ k)
  ∧ (∀ k closing,
       lines !! (i + 1 + k) = Some closing →
       fence_close_match c n closing = true →
       (∀ j l, j < k → lines !! (i + 1 + j) = Some l →
               fence_close_match c n l = false) →
       ∃ f top i',
         Parse_step lines st h
         = (Ok (ParseState i' stack stack_levels),
            attach top [Node CodeBlock (Some top) [] false (CCodeBlockNode f)] h)
         ∧ cb_opening_line_original f = line
         ∧ cb_code_body_original f = concat (slice lines (i + 1) (i + 1 + k))
         ∧ cb_closing_line_original f = closing)
  ∧ ((∀ j l, i < j → lines !! j = Some l → fence_close_match c n l = false) →
       let rest := para_run (drop (i + 1) lines) in
       let blanks := blank_run (drop (i + 1 + length rest) lines) in
       Parse_step lines st h
       = parse_heading_or_paragraph lines line i stack stack_levels h
       ∧ (∀ l, lines !! (i + 1 + length rest) = Some l → para_stops l = true)
       ∧ ∃ nds top,
           Parse_step lines st h
           = (Ok (ParseState (i + 1 + length rest + length blanks)
                    stack stack_levels),
              attach top
                (block_nodes top (length h)
                   (BPara (ParagraphNodeFields (concat (line :: rest))
                             (concat blanks)) nds)) h)).
Proof.
  intros Hline Hfm Hc Hlen Hlast Hrefs n st.
  split; [by vm_compute|]. split; [apply fence_close_match_inv|].
  assert (Estep : ∀ X, Parse_step lines st h = X ↔
    (let '(body_lines, closing_line, read) :=
       find_close c n (drop (i + 1) lines) [] 0 in
     if negb (bool_decide (closing_line = [])) then
       (top <- lift (stack_top stack) ;;
        cb <- new_CodeBlockNode line (concat body_lines) closing_line
                (concat (blank_run (drop (i + 1 + read) lines))) None ;;
        _AppendChildParsed top cb ;;
        ret (ParseState
               (i + 1 + read
                + length (blank_run (drop (i + 1 + read) lines)))
               stack stack_levels)) h
     else
       (line <- lift (py_index lines (i + 1 + read - length body_lines - 1)) ;;
        parse_heading_or_paragraph lines line
          (i + 1 + read - length body_lines - 1) stack stack_levels) h) = X).
  { intros X. unfold Parse_step. subst st. cbn [ps_i ps_stack ps_stack_levels].
    unfold bind at 1, lift at 1, py_index at 1. rewrite Hline, Hfm.
    unfold bind at 1, lift at 1, py_index at 1. rewrite Hc. fold n.
    destruct (find_close c n (drop (i + 1) lines) [] 0) as [[? cl] ?].
    by destruct (negb (bool_decide (cl = []))). }
  destruct (stack_top_nonempty stack stack_levels Hlen Hlast)
    as (top & Etop & Htop).
  assert (Htop' : top < length h).
  { rewrite Forall_forall in Hrefs. by apply Hrefs. }
  split.
  - intros k closing Hk Hm Hbefore.
    assert (Hfind : find_close c n (drop (i + 1) lines) [] 0
                    = (take k (drop (i + 1) lines), closing, k + 1)).
    { rewrite (find_close_found c n _ k closing); [done| |done|].
      - by rewrite lookup_drop.
      - intros j l Hj. rewrite lookup_drop. by apply Hbefore. }
    destruct (new_CodeBlockNode_spec line (concat (take k (drop (i + 1) lines)))
                closing
                (concat (blank_run (drop (i + 1 + (k + 1)) lines))) None h)
      as (f & Enew & Ho & Hb1 & _ & Hcl & _).
    eexists f, top, _. split; [|split; [done|split; [|done]]].
    + apply Estep. rewrite Hfind.
      rewrite bool_decide_eq_false_2
        by (eapply fence_close_match_nonempty; [|exact Hm];
            pose proof (fence_open_match_fence _ _ Hfm); lia).
      cbn [negb]. unfold bind at 1, lift at 1. rewrite Etop.
      rewrite (bind_Ok _ _ _ _ _ Enew).
      rewrite (bind_Ok _ _ _ _ _ (_AppendChildParsed_spec top _ [] h Htop')).
      done.
    + by rewrite Hb1, take_drop_slice.
  - intros Hnone.
    assert (Hfind : find_close c n (drop (i + 1) lines) [] 0
                    = (drop (i + 1) lines, [], length (drop (i + 1) lines))).
    { rewrite find_close_none; [done|]. intros j l. rewrite lookup_drop.
      apply Hnone. lia. }
    assert (Eback : Parse_step lines st h
                    = parse_heading_or_paragraph lines line i stack
                        stack_levels h).
    { apply Estep. rewrite Hfind. rewrite bool_decide_eq_true_2 by done.
      cbn [negb].
      replace (i + 1 + length (drop (i + 1) lines)
               - length (drop (i + 1) lines) - 1) with i by lia.
      unfold bind at 1, lift at 1, py_index at 1. by rewrite Hline. }
    intros rest blanks. split; [exact Eback|]. split.
    { intros l El. rewrite <- lookup_drop in El.
      apply span_next in El. by apply negb_false_iff in El. }
    rewrite Eback.
    unfold parse_heading_or_paragraph.
    rewrite (fence_not_heading _ _ Hfm).
    destruct (new_ParagraphNode_spec
                (concat (line :: para_run (drop (i + 1) lines)))
                (concat (blank_run
                           (drop (i + 1 + length (para_run (drop (i + 1) lines)))
                              lines))) None h)
      as (nds & Enew & _).
    exists nds, top.
    unfold bind at 1, lift at 1. rewrite Etop.
    rewrite (bind_Ok _ _ _ _ _ Enew).
    rewrite (bind_Ok _ _ _ _ _ (_AppendChildParsed_spec top _ _ h Htop')).
    done.
Qed.

(** A fence of four backticks, a line of three in its body, and a
    closing fence of four. *)
Definition ex_fence_lines : list str :=
  Eval vm_compute in
    splitlines (py_lines ["````"; "code"; "```"; "more"; "````"]).

Lemma fence_matching_witness :
  ex_fence_lines !! 0 = Some (py_lines ["````"])
  ∧ fence_open_match (py_lines ["````"])
    = Some (FenceGroups [] (py "````") [] [10%N])
  ∧ py "````" !! 0 = Some 96%N
  ∧ length [0] = length [0]
  ∧ last [0] = Some 0
  ∧ Forall (λ r, r < length [ex_root]) [0]
  ∧ ∃ f top i',
      Parse_step ex_fence_lines (ParseState 0 [0] [0]) [ex_root]
      = (Ok (ParseState i' [0] [0]),
         attach top [Node CodeBlock (Some top) [] false (CCodeBlockNode f)]
           [ex_root])
      ∧ cb_opening_line_original f = py_lines ["````"]
      ∧ cb_code_body_original f = py_lines ["code"; "```"; "more"]
      ∧ cb_closing_line_original f = py_lines ["````"].
Proof.
  assert (H1 : ex_fence_lines !! 0 = Some (py_lines ["````"])) by reflexivity.
  assert (H2 : fence_open_match (py_lines ["````"])
               = Some (FenceGroups [] (py "````") [] [10%N]))
    by (vm_compute; reflexivity).
  assert (H3 : py "````" !! 0 = Some 96%N) by reflexivity.
  assert (H4 : length [0] = length [0]) by reflexivity.
  assert (H5 : last [0] = Some 0) by reflexivity.
  assert (H6 : Forall (λ r, r < length [ex_root]) [0]).
  { apply Forall_cons. split; [simpl; lia|constructor]. }
  repeat (split; [assumption|]).
  destruct (fence_matching ex_fence_lines 0 [0] [0] [ex_root] _ _ 96%N
              H1 H2 H3 H4 H5 H6) as (_ & _ & Hclose & _).
  apply (Hclose 3 (py_lines ["````"])).
  - reflexivity.
  - vm_compute. reflexivity.
  - intros j l Hj Hl.
    destruct j as [|[|[|j]]]; [| | |lia]; simpl in Hl;
      injection Hl as <-; vm_compute; reflexivity.
Defined.

(** C3, as the claim states it, fails.  A fence of four backticks that
    nothing closes, then [code] and two lines of three backticks: the
    paragraph that starts at the opening line ends before the first line
    of three backticks, which opens a code block that the second one
    closes; so a line of three backticks after an opening fence of four is
    neither in the code body of that fence nor paragraph content.  After a
    fence of three backticks that nothing closes, a heading line makes a
    heading.  The region from the opening line to the end of the input is
    not, in general, the content of one paragraph. *)
Lemma unclosed_fence_region_not_paragraph :
  (∀ j l, 0 < j →
     splitlines (py_lines ["````"; "code"; "```"; "```"]) !! j = Some l →
     fence_close_match 96 4 l = false)
  ∧ (∃ h p b fp fb,
       FromString (py_lines ["````"; "code"; "```"; "```"]) [] = (Ok 0, h)
       ∧ NType <$> h = [Root; Paragraph; Text; CodeBlock]
       ∧ h !! 1 = Some p ∧ fields p = CParagraphNode fp
       ∧ pn_raw_original fp = py_lines ["````"; "code"]
       ∧ h !! 3 = Some b ∧ fields b = CCodeBlockNode fb
       ∧ cb_opening_line_original fb = py_lines ["```"]
       ∧ cb_code_body_original fb = []
       ∧ cb_closing_line_original fb = py_lines ["```"])
  ∧ NType <$> (FromString (py_lines ["```"; "# T"; "text"]) []).2
    = [Root; Paragraph; Text; Heading1; Paragraph; Text]
  ∧ ¬ (∀ (lines : list str) (i : nat) (stack : list ref)
         (stack_levels : list nat) (h : heap) (line : str)
         (fm : fence_groups) (c : N),
         lines !! i = Some line → fence_open_match line = Some fm →
         fg_fence fm !! 0 = Some c →
         length stack = length stack_levels → last stack_levels = Some 0 →
         Forall (λ r, r < length h) stack →
         (∀ j l, i < j → lines !! j = Some l →
                 fence_close_match c (length (fg_fence fm)) l = false) →
         ∃ nds top suffix i',
           Parse_step lines (ParseState i stack stack_levels) h
           = (Ok (ParseState i' stack stack_levels),
              attach top
                (block_nodes top (length h)
                   (BPara (ParagraphNodeFields (concat (drop i lines)) suffix)
                      nds)) h)).
Proof.
  assert (Hnone : ∀ j l, 0 < j →
            splitlines (py_lines ["````"; "code"; "```"; "```"]) !! j = Some l →
            fence_close_match 96 4 l = false).
  { intros j l Hj E. destruct j as [|[|[|[|j]]]]; [lia| | | |];
      vm_compute in E; try discriminate E; by injection E as <-. }
  split; [exact Hnone|]. split.
  { eexists _, _, _, _, _. split; [by vm_compute|]. by vm_compute. }
  split; [by vm_compute|].
  intros Hall.
  destruct (Hall (splitlines (py_lines ["````"; "code"; "```"; "```"]))
              0 [0] [0] [ex_root] (py_lines ["````"])
              (FenceGroups [] (py "````") [] [10%N]) 96%N)
    as (nds & top & suffix & i' & E);
    [reflexivity|by vm_compute|reflexivity|reflexivity|reflexivity| |
     exact Hnone|].
  { apply Forall_cons. split; [simpl; lia|constructor]. }
  apply (f_equal (λ r, r.2 !! (length [ex_root] + 0))) in E.
  cbv beta in E. cbn [snd] in E. rewrite attach_lookup_new in E.
  vm_compute in E. discriminate E.
Qed.

Lemma heading_not_fence line hm :
  heading_match line = Some hm → fence_open_match line = None.
Proof.
  intros Hh. destruct (fence_open_match line) as [fm|] eqn:E; [|done].
  by rewrite (fence_not_heading _ _ E) in Hh.
Qed.

(** The pops for a heading of level [level]: the [k] entries on top have
    a level that is not smaller, the entry reached has a smaller one. *)
Lemma pop_levels_drop level :
  1 ≤ level → ∀ stack_levels stack,
  length stack = length stack_levels → last stack_levels = Some 0 →
  ∃ k top below l0 ls,
    pop_levels level stack stack_levels
    = Ok (drop k stack, drop k stack_levels)
    ∧ Forall (λ l, level ≤ l) (take k stack_levels)
    ∧ drop k stack = top :: below
    ∧ drop k stack_levels = l0 :: ls ∧ l0 < level.
Proof.
  intros Hlevel. induction stack_levels as [|l ls IH]; intros stack Hlen Hlast;
    [done|].
  destruct stack as [|r s]; [done|]. cbn [pop_levels].
  destruct (Nat.leb_spec level l) as [Hge|Hlt].
  - destruct ls as [|l' ls].
    { simpl in Hlast. injection Hlast as ->. lia. }
    destruct (IH s) as (k & top & below & l0 & ls' & E & Hall & Hs & Hl & Hlt);
      [simpl in *; lia|done|].
    exists (S k), top, below, l0, ls'. simpl. repeat split; auto.
  - exists 0, r, s, l, ls. simpl. repeat split; auto.
Qed.

(** C5 (heading nesting).  The text of the example parses to the tree
    A → [B → [C], D].  On every heading line, the entries of the
    open-heading stack whose level is not smaller than the level of the new
    heading are popped, down to the first entry with a smaller level; the
    new heading is attached as the last child of that entry and pushed. *)
Theorem heading_nesting :
  (∃ h,
     FromString (py_lines ["# A"; "## B"; "### C"; "## D"]) [] = (Ok 0, h)
     ∧ (λ nd, (NType nd, _parent nd, _children nd)) <$> h
       = [(Root, None, [1]); (Heading1, Some 0, [2; 4]);
          (Heading2, Some 1, [3]); (Heading3, Some 2, []);
          (Heading2, Some 1, [])]
     ∧ get_Text 0 h <$> [1; 2; 3; 4]
       = [Some (py "A"); Some (py "B"); Some (py "C"); Some (py "D")])
  ∧ ∀ (lines : list str) (line : str) (i : nat) (stack : list ref)
      (stack_levels : list nat) (h : heap) (hm : heading_groups),
      lines !! i = Some line → heading_match line = Some hm →
      length stack = length stack_levels → last stack_levels = Some 0 →
      Forall (λ r, r < length h) stack →
      let level := length (hg_hashes hm) in
      ∃ k top below l0 ls nd i',
        Forall (λ l, level ≤ l) (take k stack_levels)
        ∧ drop k stack = top :: below
        ∧ drop k stack_levels = l0 :: ls ∧ l0 < level
        ∧ Parse_step lines (ParseState i stack stack_levels) h
          = (Ok (ParseState i' (length h :: top :: below) (level :: l0 :: ls)),
             attach top [nd] h)
        ∧ _HEADING_TYPES level = Some (NType nd)
        ∧ _parent nd = Some top ∧ _children nd = [].
Proof.
  split.
  { eexists. split; [vm_compute; reflexivity|]. split; reflexivity. }
  intros lines line i stack stack_levels h hm Hline Hhm Hlen Hlast Hrefs level.
  destruct (heading_match_level _ _ Hhm) as [Hl1 Hl6]. fold level in Hl1, Hl6.
  destruct (pop_levels_drop level Hl1 stack_levels stack Hlen Hlast)
    as (k & top & below & l0 & ls & Epop & Hall & Hs & Hl & Hlt).
  assert (Htop : top < length h).
  { rewrite Forall_forall in Hrefs. apply Hrefs.
    apply (subseteq_drop k). rewrite Hs. apply elem_of_cons. by left. }
  destruct (_HEADING_TYPES_Some level Hl1 Hl6) as [t Et].
  destruct (_split_trivia (hg_title hm)) as [[tl tc] tt] eqn:Etriv.
  eexists k, top, below, l0, ls, _, _.
  split; [done|]. split; [done|]. split; [done|]. split; [done|].
  split; [|split; [|split]].
  - unfold Parse_step. cbn [ps_i ps_stack ps_stack_levels].
    unfold bind at 1, lift at 1, py_index at 1.
    rewrite Hline, (heading_not_fence _ _ Hhm).
    unfold parse_heading_or_paragraph. rewrite Hhm. fold level.
    unfold bind at 1, lift at 1. rewrite Epop, Hs, Hl. simpl.
    unfold bind at 1, lift at 1.
    unfold new_HeadingNode. rewrite Et, Etriv.
    unfold bind at 1, alloc at 1.
    rewrite (bind_Ok _ _ _ _ _ (_AppendChildParsed_spec top _ [] h Htop)).
    reflexivity.
  - exact Et.
  - reflexivity.
  - reflexivity.
Qed.

(** The document after its first three headings, and the stack then. *)
Definition ex_headings : heap :=
  Eval vm_compute in (FromString (py_lines ["# A"; "## B"; "### C"]) []).2.

Lemma heading_nesting_witness :
  splitlines (py_lines ["# A"; "## B"; "### C"; "## D"]) !! 3
  = Some (py_lines ["## D"])
  ∧ heading_match (py_lines ["## D"])
    = Some (HeadingGroups [] (py "##") (py " ") (py "D") [] [10%N])
  ∧ length [3; 2; 1; 0] = length [3; 2; 1; 0]
  ∧ last [3; 2; 1; 0] = Some 0
  ∧ Forall (λ r, r < length ex_headings) [3; 2; 1; 0]
  ∧ ∃ k top below l0 ls nd i',
      Forall (λ l, 2 ≤ l) (take k [3; 2; 1; 0])
      ∧ drop k [3; 2; 1; 0] = top :: below
      ∧ drop k [3; 2; 1; 0] = l0 :: ls ∧ l0 < 2
      ∧ Parse_step (splitlines (py_lines ["# A"; "## B"; "### C"; "## D"]))
          (ParseState 3 [3; 2; 1; 0] [3; 2; 1; 0]) ex_headings
        = (Ok (ParseState i' (length ex_headings :: top :: below)
                 (2 :: l0 :: ls)),
           attach top [nd] ex_headings)
      ∧ _HEADING_TYPES 2 = Some (NType nd)
      ∧ _parent nd = Some top ∧ _children nd = [].
Proof.
  assert (H1 : splitlines (py_lines ["# A"; "## B"; "### C"; "## D"]) !! 3
               = Some (py_lines ["## D"])) by (vm_compute; reflexivity).
  assert (H2 : heading_match (py_lines ["## D"])
               = Some (HeadingGroups [] (py "##") (py " ") (py "D") [] [10%N]))
    by (vm_compute; reflexivity).
  assert (H3 : length [3; 2; 1; 0] = length [3; 2; 1; 0]) by reflexivity.
  assert (H4 : last [3; 2; 1; 0] = Some 0) by reflexivity.
  assert (H5 : Forall (λ r, r < length ex_headings) [3; 2; 1; 0]).
  { repeat (apply Forall_cons; split; [simpl; lia|]). constructor. }
  repeat (split; [assumption|]).
  destruct heading_nesting as [_ Hrule].
  exact (Hrule _ _ 3 [3; 2; 1; 0] [3; 2; 1; 0] ex_headings _ H1 H2 H3 H4 H5).
Defined.

(** ** The dirty marker under the public operations *)

(** The operations a caller has: the mutators, [Parse], and the
    constructors.  [MarkdownDocument(markdown, source_path)] makes a
    document and, unless the text is empty, calls [Parse] on it;
    [FromString], [FromStream] and [FromFile] are calls of that
    constructor. *)
Inductive op :=
| OpMarkDirty (self : ref)
| OpAddChild (self child : ref)
| OpSetText (self : ref) (value : str)
| OpSetHref (self : ref) (value : str)
| OpSetInfoString (self : ref) (value : str)
| OpParse (self : ref) (markdown : str)
| OpNewMarkdownNode (node_type : NodeType) (parent : option ref)
| OpNewTextNode (raw : str) (parent : option ref)
| OpNewLinkNode (raw label href : str) (parent : option ref) (is_image : bool)
| OpNewCodeBlockNode (opening_line code_body closing_line block_suffix : str)
    (parent : option ref)
| OpNewHeadingNode (level : nat)
    (raw_line prefix title_raw line_suffix block_suffix : str)
    (parent : option ref)
| OpNewParagraphNode (raw_content block_suffix : str) (parent : option ref)
| OpNewMarkdownDocument (markdown : str) (source_path : option str).

Definition run_op (o : op) : M unit :=
  match o with
  | OpMarkDirty self => MarkDirty self
  | OpAddChild self child => AddChild self child
  | OpSetText self value => set_Text self value
  | OpSetHref self value => set_Href self value
  | OpSetInfoString self value => set_InfoString self value
  | OpParse self markdown => Parse self markdown
  | OpNewMarkdownNode t p => new_MarkdownNode t p ;; ret tt
  | OpNewTextNode raw p => new_TextNode raw p ;; ret tt
  | OpNewLinkNode raw label href p is_image =>
      new_LinkNode raw label href p is_image ;; ret tt
  | OpNewCodeBlockNode o b c s p => new_CodeBlockNode o b c s p ;; ret tt
  | OpNewHeadingNode l r p t ls bs parent =>
      new_HeadingNode l r p t ls bs parent ;; ret tt
  | OpNewParagraphNode r s p => new_ParagraphNode r s p ;; ret tt
  | OpNewMarkdownDocument markdown source_path =>
      new_MarkdownDocument markdown source_path ;; ret tt
  end.

(** The heap after the operation, whether it raised or not. *)
Definition exec (o : op) (h : heap) : heap := (run_op o h).2.

Definition is_Parse (o : op) : bool :=
  match o with
  | OpParse _ _ => true
  | _ => false
  end.

(** Every object of [h] is in [h'], dirty itself, or as it was: with the
    flag and the children it had. *)
Definition dirtier (h h' : heap) : Prop :=
  ∀ r nd, h !! r = Some nd →
    ∃ nd', h' !! r = Some nd'
           ∧ (_dirty_self nd' = true
              ∨ (_dirty_self nd' = _dirty_self nd
                 ∧ _children nd' = _children nd)).

Lemma dirtier_refl (h : heap) : dirtier h h.
Proof. intros r nd E. exists nd. auto. Qed.

Lemma dirtier_trans (h1 h2 h3 : heap) :
  dirtier h1 h2 → dirtier h2 h3 → dirtier h1 h3.
Proof.
  intros H12 H23 r nd E.
  destruct (H12 r nd E) as (nd2 & E2 & H2).
  destruct (H23 r nd2 E2) as (nd3 & E3 & H3).
  exists nd3. split; [done|].
  destruct H3 as [?|[Hd3 Hc3]]; [auto|].
  destruct H2 as [Hd2|[Hd2 Hc2]]; [left|right; split]; congruence.
Qed.

Lemma dirtier_alter (f : MarkdownNode → MarkdownNode) r (h : heap) :
  (∀ nd, _dirty_self (f nd) = true
         ∨ (_dirty_self (f nd) = _dirty_self nd
            ∧ _children (f nd) = _children nd)) →
  dirtier h (alter f r h).
Proof.
  intros Hf x nd E. rewrite list_lookup_alter. case_decide.
  - subst. rewrite E. simpl. eauto.
  - rewrite E. eauto.
Qed.

Lemma dirtier_app (h B : heap) : dirtier h (h ++ B).
Proof. intros r nd E. exists nd. split; [by apply lookup_app_l_Some|auto]. Qed.

Lemma dirtier_insert r x (h : heap) :
  _dirty_self x = true → dirtier h (<[r := x]> h).
Proof.
  intros Hx y nd E. rewrite list_lookup_insert. case_decide as Hc.
  - exists x. auto.
  - exists nd. auto.
Qed.

(** Once dirty, still dirty in a [dirtier] heap, with the same fuel. *)
Lemma dirtier_IsDirty (h h' : heap) :
  dirtier h h' → ∀ fuel r b,
  IsDirty fuel h r = Some b →
  ∃ b', IsDirty fuel h' r = Some b' ∧ (b = true → b' = true).
Proof.
  intros Hd. induction fuel as [|fuel IH]; intros r b; simpl; [done|].
  destruct (h !! r) as [nd|] eqn:E; [|done].
  destruct (Hd r nd E) as (nd' & -> & Hnd').
  destruct (_dirty_self nd') eqn:Hd'; [eauto|].
  destruct Hnd' as [?|[Hds Hcs]]; [done|].
  rewrite <- Hds, Hcs. clear E Hds Hcs.
  induction (_children nd) as [|c cs IHcs]; simpl; [eauto|].
  destruct (IsDirty fuel h c) as [[]|] eqn:Ec; [| |done].
  - intros [= <-]. destruct (IH c true Ec) as (b' & -> & Hb').
    rewrite Hb' by done. eauto.
  - intros Hcs. destruct (IH c false Ec) as ([] & -> & _); [eauto|].
    by apply IHcs.
Qed.

Lemma AddChild_dirtier self child (h : heap) :
  dirtier h (AddChild self child h).2.
Proof.
  unfold AddChild, bind, modify_node, MarkDirty, modify_node.
  destruct (h !! child) as [c|] eqn:Ec; simpl; [|apply dirtier_refl].
  set (h1 := alter (with_parent (Some self)) child h).
  assert (H1 : dirtier h h1) by (apply dirtier_alter; auto).
  destruct (h1 !! self) as [s1|] eqn:Es; simpl; [|done].
  rewrite list_lookup_alter_eq, Es. simpl.
  eapply dirtier_trans; [exact H1|].
  rewrite list_alter_alter_eq. apply dirtier_alter. auto.
Qed.

Lemma set_field_dirtier self (h : heap) c :
  dirtier h ((modify_node self (with_fields c) ;; MarkDirty self) h).2.
Proof.
  destruct (h !! self) as [nd|] eqn:E.
  - rewrite (set_field_Ok _ _ _ _ E). simpl. by apply dirtier_insert.
  - unfold bind, modify_node. rewrite E. apply dirtier_refl.
Qed.

Lemma alloc_ret_dirtier (m : M ref) (h : heap) :
  (∃ nd, m h = (Ok (length h), h ++ [nd])) →
  dirtier h ((m ;; ret tt) h).2.
Proof.
  intros [nd E]. rewrite (bind_Ok _ _ _ _ _ E). simpl. apply dirtier_app.
Qed.

(** Every object of [h] is in [h'], and dirty itself there if it was in
    [h]. *)
Definition flags_kept (h h' : heap) : Prop :=
  ∀ r nd, h !! r = Some nd →
    ∃ nd', h' !! r = Some nd'
           ∧ (_dirty_self nd = true → _dirty_self nd' = true).

(** The computation [m] keeps the flags, whether it raises or not. *)
Definition keeps {A} (m : M A) : Prop := ∀ h, flags_kept h (m h).2.

Lemma flags_kept_refl (h : heap) : flags_kept h h.
Proof. intros r nd E. eauto. Qed.

Lemma flags_kept_trans (h1 h2 h3 : heap) :
  flags_kept h1 h2 → flags_kept h2 h3 → flags_kept h1 h3.
Proof.
  intros H12 H23 r nd E.
  destruct (H12 r nd E) as (nd2 & E2 & H2).
  destruct (H23 r nd2 E2) as (nd3 & E3 & H3). eauto.
Qed.

Lemma dirtier_flags_kept (h h' : heap) : dirtier h h' → flags_kept h h'.
Proof.
  intros Hd r nd E. destruct (Hd r nd E) as (nd' & E' & [?|[Hs _]]);
    exists nd'; split; auto. congruence.
Qed.

Lemma keeps_ret {A} (a : A) : keeps (ret a).
Proof. intros h. apply flags_kept_refl. Qed.

Lemma keeps_raise {A} (e : exn) : keeps (@raise A e).
Proof. intros h. apply flags_kept_refl. Qed.

Lemma keeps_lift {A} (r : result A) : keeps (lift r).
Proof. intros h. apply flags_kept_refl. Qed.

Lemma keeps_bind {A B} (m : M A) (k : A → M B) :
  keeps m → (∀ a, keeps (k a)) → keeps (bind m k).
Proof.
  intros Hm Hk h. unfold bind. specialize (Hm h).
  destruct (m h) as [[a|e] h1]; simpl in *; [|done].
  eapply flags_kept_trans; [exact Hm|apply Hk].
Qed.

Lemma keeps_alloc (nd : MarkdownNode) : keeps (alloc nd).
Proof.
  intros h r x E. exists x. split; [by apply lookup_app_l_Some|done].
Qed.

Lemma keeps_modify_node r (f : MarkdownNode → MarkdownNode) :
  (∀ nd, _dirty_self (f nd) = _dirty_self nd) → keeps (modify_node r f).
Proof.
  intros Hf h. unfold modify_node.
  destruct (h !! r) eqn:Er; simpl; [|apply flags_kept_refl].
  intros x nd E. rewrite list_lookup_alter. case_decide.
  - subst. rewrite E. simpl. eexists. split; [done|]. by rewrite Hf.
  - eauto.
Qed.

Lemma keeps_for_each {A} (f : A → M unit) (l : list A) :
  (∀ a, keeps (f a)) → keeps (for_each f l).
Proof.
  intros Hf. induction l as [|a l IH]; simpl; [apply keeps_ret|].
  apply keeps_bind; auto.
Qed.

Lemma set_leading_trivia_dirty_self f nd :
  _dirty_self (set_leading_trivia f nd) = _dirty_self nd.
Proof. unfold set_leading_trivia. by destruct (fields nd). Qed.

Create HintDb keeps discriminated.
#[local] Hint Resolve keeps_ret keeps_raise keeps_lift keeps_alloc
  keeps_for_each set_leading_trivia_dirty_self : keeps.
#[local] Hint Extern 1 (keeps (bind _ _)) =>
  apply keeps_bind; [|intros ?] : keeps.
#[local] Hint Extern 1 (keeps (modify_node _ _)) =>
  apply keeps_modify_node; intros ?; try reflexivity : keeps.
#[local] Hint Extern 2 (keeps (match ?x with _ => _ end)) =>
  destruct x : keeps.
#[local] Hint Extern 2 (keeps (if ?x then _ else _)) =>
  destruct x : keeps.

Lemma keeps__AppendChildParsed self child :
  keeps (_AppendChildParsed self child).
Proof. unfold _AppendChildParsed. auto with keeps. Qed.

Lemma keeps_new_TextNode raw parent : keeps (new_TextNode raw parent).
Proof.
  unfold new_TextNode. destruct (_split_trivia raw) as [[? ?] ?].
  auto with keeps.
Qed.

Lemma keeps_new_LinkNode raw label href parent is_image :
  keeps (new_LinkNode raw label href parent is_image).
Proof.
  unfold new_LinkNode. destruct (_split_trivia label) as [[? ?] ?].
  destruct (_split_trivia href) as [[? ?] ?]. auto with keeps.
Qed.

Lemma keeps_new_CodeBlockNode o b c s parent :
  keeps (new_CodeBlockNode o b c s parent).
Proof.
  unfold new_CodeBlockNode. destruct (_parse_opening o) as [[[? ?] ?] ?].
  destruct (_parse_closing c) as [[[? ?] ?] ?]. auto with keeps.
Qed.

Lemma keeps_new_HeadingNode l r p t ls bs parent :
  keeps (new_HeadingNode l r p t ls bs parent).
Proof.
  unfold new_HeadingNode. destruct (_HEADING_TYPES l); [|auto with keeps].
  destruct (_split_trivia t) as [[? ?] ?]. auto with keeps.
Qed.

#[local] Hint Resolve keeps__AppendChildParsed keeps_new_TextNode
  keeps_new_LinkNode keeps_new_CodeBlockNode keeps_new_HeadingNode : keeps.

Lemma keeps_flush_text raw until nodes buffer_start :
  keeps (flush_text raw until nodes buffer_start).
Proof. unfold flush_text. auto with keeps. Qed.

#[local] Hint Resolve keeps_flush_text : keeps.

Lemma keeps__parse_inlines_loop fuel raw : ∀ nodes buffer_start i,
  keeps (_parse_inlines_loop fuel raw nodes buffer_start i).
Proof.
  induction fuel as [|fuel IH]; intros nodes buffer_start i; simpl;
    destruct (i <? length raw); auto with keeps.
  assert (Hemit : ∀ b (p : nat * nat * str * str),
    keeps (let '(start, end_, label, href) := p in
           nb <- flush_text raw start nodes buffer_start ;;
           l <- new_LinkNode (slice raw start end_) label href None b ;;
           _parse_inlines_loop fuel raw (nb.1 ++ [l]) end_ end_)).
  { intros b [[[? ?] ?] ?]. auto with keeps. }
  assert (Htry : keeps (
    c <- lift (py_index raw i) ;;
    if (c =? 91)%N then
      parsed <- lift (_try_parse_link raw i false) ;;
      match parsed with
      | Some p =>
          let '(start, end_, label, href) := p in
          nb <- flush_text raw start nodes buffer_start ;;
          l <- new_LinkNode (slice raw start end_) label href None false ;;
          _parse_inlines_loop fuel raw (nb.1 ++ [l]) end_ end_
      | None => _parse_inlines_loop fuel raw nodes buffer_start (i + 1)
      end
    else _parse_inlines_loop fuel raw nodes buffer_start (i + 1))).
  { apply keeps_bind; [auto with keeps|]. intros c.
    destruct (c =? 91)%N; [|apply IH].
    apply keeps_bind; [auto with keeps|]. intros [p|]; [apply Hemit|apply IH]. }
  destruct (startswith raw (py "![") i); [|exact Htry].
  apply keeps_bind; [auto with keeps|]. intros [p|]; [apply Hemit|exact Htry].
Qed.

Lemma keeps_new_ParagraphNode raw_content block_suffix parent :
  keeps (new_ParagraphNode raw_content block_suffix parent).
Proof.
  unfold new_ParagraphNode, _parse_inlines.
  apply keeps_bind; [auto with keeps|]. intros self.
  apply keeps_bind; [apply keeps__parse_inlines_loop|]. intros kids.
  auto with keeps.
Qed.

#[local] Hint Resolve keeps_new_ParagraphNode : keeps.

Lemma keeps_parse_heading_or_paragraph lines line i stack stack_levels :
  keeps (parse_heading_or_paragraph lines line i stack stack_levels).
Proof.
  unfold parse_heading_or_paragraph.
  destruct (heading_match line); auto 10 with keeps.
Qed.

#[local] Hint Resolve keeps_parse_heading_or_paragraph : keeps.

Lemma keeps_Parse_step lines st : keeps (Parse_step lines st).
Proof.
  unfold Parse_step. apply keeps_bind; [auto with keeps|]. intros line.
  destruct (fence_open_match line); [|auto with keeps].
  apply keeps_bind; [auto with keeps|]. intros fence_char.
  destruct (find_close _ _ _ _ _) as [[body_lines closing_line] read].
  destruct (negb _); auto 10 with keeps.
Qed.

Lemma keeps_Parse_loop fuel lines : ∀ st, keeps (Parse_loop fuel lines st).
Proof.
  induction fuel as [|fuel IH]; intros st; simpl;
    destruct (ps_i st <? length lines); auto with keeps.
  apply keeps_bind; [apply keeps_Parse_step|apply IH].
Qed.

Lemma keeps_Parse self markdown : keeps (Parse self markdown).
Proof.
  unfold Parse, Parse_run.
  pose proof keeps_Parse_loop. auto 10 with keeps.
Qed.


(** * Further properties of the code *)

(** ** Trivia and line endings *)

Lemma span_snd_head {A} (p : A → bool) s x :
  head (span p s).2 = Some x → p x = false.
Proof.
  induction s as [|c s IH]; simpl; [done|].
  destruct (p c) eqn:Ec.
  - destruct (span p s) as [a b]. exact IH.
  - simpl. by intros [= <-].
Qed.

Lemma rspan_Forall {A} (p : A → bool) s :
  Forall (λ c, p c = true) (rspan p s).2.
Proof.
  unfold rspan. pose proof (span_Forall p (reverse s)) as H.
  destruct (span p (reverse s)) as [b a]. simpl in *.
  by apply Forall_reverse.
Qed.

Lemma rspan_fst_last {A} (p : A → bool) s x :
  last (rspan p s).1 = Some x → p x = false.
Proof.
  unfold rspan. pose proof (span_snd_head p (reverse s) x) as H.
  destruct (span p (reverse s)) as [b a]. simpl in *.
  rewrite last_reverse. exact H.
Qed.

Lemma span_all {A} (p : A → bool) s :
  Forall (λ c, p c = true) s → span p s = (s, []).
Proof.
  induction 1 as [|c s Hc _ IH]; simpl; [done|]. by rewrite Hc, IH.
Qed.

Lemma span_stop {A} (p : A → bool) s x :
  head s = Some x → p x = false → span p s = ([], s).
Proof. destruct s as [|c s]; simpl; [done|]. by intros [= ->] ->. Qed.

Lemma span_app_stop {A} (p : A → bool) a s :
  Forall (λ c, p c = true) a → (∀ x, head s = Some x → p x = false) →
  span p (a ++ s) = (a, s).
Proof.
  intros Ha Hs. induction Ha as [|c a Hc _ IH]; simpl.
  - destruct s as [|x s]; [done|]. simpl. by rewrite (Hs x).
  - by rewrite Hc, IH.
Qed.

Lemma rspan_app_stop {A} (p : A → bool) s b :
  Forall (λ c, p c = true) b → (∀ x, last s = Some x → p x = false) →
  rspan p (s ++ b) = (s, b).
Proof.
  intros Hb Hs. unfold rspan. rewrite reverse_app.
  rewrite (span_app_stop p (reverse b) (reverse s)).
  - by rewrite !reverse_involutive.
  - by apply Forall_reverse.
  - intros x. rewrite head_reverse. apply Hs.
Qed.

Lemma strip_head s x : head (strip s) = Some x → isspace x = false.
Proof.
  unfold strip. intros Hx. apply (span_snd_head isspace s).
  rewrite <- (rspan_app isspace (span isspace s).2).
  destruct (rspan isspace (span isspace s).2).1; [done|]. exact Hx.
Qed.

Lemma strip_last s x : last (strip s) = Some x → isspace x = false.
Proof. apply rspan_fst_last. Qed.

(** [strip] leaves alone a string that neither starts nor ends with
    white space. *)
Lemma strip_id s :
  (∀ x, head s = Some x → isspace x = false) →
  (∀ x, last s = Some x → isspace x = false) →
  strip s = s.
Proof.
  intros Hh Hl. unfold strip.
  pose proof (span_app_stop isspace [] s (Forall_nil_2 _) Hh) as E1.
  pose proof (rspan_app_stop isspace s [] (Forall_nil_2 _) Hl) as E2.
  simpl in E1. rewrite app_nil_r in E2. by rewrite E1; simpl; rewrite E2.
Qed.

Lemma strip_strip s : strip (strip s) = strip s.
Proof. apply strip_id; [apply strip_head|apply strip_last]. Qed.

(** White space before a string does not change what [strip] returns. *)
Lemma strip_app_l a s :
  Forall (λ c, isspace c = true) a → strip (a ++ s) = strip s.
Proof.
  intros Ha. unfold strip. f_equal. f_equal.
  induction Ha as [|c a Hc _ IH]; simpl; [done|].
  rewrite Hc. by destruct (span isspace (a ++ s)).
Qed.

(** [_split_trivia] cuts a string into three parts that give it back when
    joined: the first and the last are white space only, the middle one
    is the string as [strip] returns it, which neither starts nor ends with
    white space; a string of white space only goes to the first part; and
    the middle part, split again, is all core. *)
Theorem _split_trivia_partition (raw : str) :
  let '(leading, core, trailing) := _split_trivia raw in
  leading ++ core ++ trailing = raw
  ∧ Forall (λ c, isspace c = true) leading
  ∧ Forall (λ c, isspace c = true) trailing
  ∧ core = strip raw
  ∧ (∀ x, head core = Some x → isspace x = false)
  ∧ (∀ x, last core = Some x → isspace x = false)
  ∧ (Forall (λ c, isspace c = true) raw → leading = raw)
  ∧ _split_trivia core = ([], core, []).
Proof.
  destruct (_split_trivia raw) as [[leading core] trailing] eqn:E.
  pose proof (_split_trivia_app _ _ _ _ E) as Happ.
  unfold _split_trivia in E.
  pose proof (span_Forall isspace raw) as Hl.
  pose proof (span_snd_head isspace raw) as Hh.
  pose proof (span_all isspace raw) as Hall.
  assert (Hstrip : strip raw = (rspan isspace (span isspace raw).2).1) by done.
  destruct (span isspace raw) as [l rest]. simpl in *.
  pose proof (rspan_Forall isspace rest) as Ht.
  pose proof (rspan_fst_last isspace rest) as Hlast.
  pose proof (rspan_app isspace rest) as Hrest.
  destruct (rspan isspace rest) as [c t]. simpl in *.
  injection E as <- <- <-.
  assert (Hhead : ∀ x, head c = Some x → isspace x = false).
  { intros x Hx. apply Hh. rewrite <- Hrest. by destruct c. }
  split; [done|]. split; [done|]. split; [done|]. split; [done|].
  split; [done|]. split; [done|].
  split; [intros Hws; by injection (Hall Hws)|].
  unfold _split_trivia.
  pose proof (span_app_stop isspace [] c (Forall_nil_2 _) Hhead) as E1.
  pose proof (rspan_app_stop isspace c [] (Forall_nil_2 _) Hlast) as E2.
  simpl in E1. rewrite app_nil_r in E2. by rewrite E1, E2.
Qed.

Definition is_cr_lf (c : N) : bool := ((c =? 13) || (c =? 10))%N.

(** [_strip_linebreaks_only] removes the carriage returns and line feeds at
    the end of a text and nothing else: the text is the result followed by
    carriage returns and line feeds only, the result does not end with
    one, and a second call changes nothing. *)
Theorem _strip_linebreaks_only_spec (text : str) :
  (∃ tail, text = _strip_linebreaks_only text ++ tail
           ∧ Forall (λ c, is_cr_lf c = true) tail)
  ∧ (∀ x, last (_strip_linebreaks_only text) = Some x → is_cr_lf x = false)
  ∧ _strip_linebreaks_only (_strip_linebreaks_only text)
    = _strip_linebreaks_only text
  ∧ (∀ x, last text = Some x → is_cr_lf x = false →
          _strip_linebreaks_only text = text).
Proof.
  unfold _strip_linebreaks_only. fold is_cr_lf.
  pose proof (rspan_Forall is_cr_lf text) as Ht.
  pose proof (rspan_fst_last is_cr_lf text) as Hl.
  pose proof (rspan_app is_cr_lf text) as Happ.
  assert (Hid : ∀ s, (∀ x, last s = Some x → is_cr_lf x = false) →
                     (rspan is_cr_lf s).1 = s).
  { intros s Hs.
    pose proof (rspan_app_stop is_cr_lf s [] (Forall_nil_2 _) Hs) as E.
    rewrite app_nil_r in E. by rewrite E. }
  split; [by exists (rspan is_cr_lf text).2|].
  split; [exact Hl|]. split; [by apply Hid|].
  intros x Hx Hc. apply Hid. intros y Hy. congruence.
Qed.

(** A document built from [s] serialises to [s] (shared by the properties
    below). *)
Lemma FromString_render (h : heap) (s : str) :
  ∃ h', FromString s h = (Ok (length h), h')
        ∧ length h < length h'
        ∧ ∃ F, ∀ fuel, F ≤ fuel → ToMarkdown fuel h' (length h) = Some s.
Proof.
  set (root := Node Root None [] false
                 (CMarkdownDocument (MarkdownDocumentFields [] None))).
  rewrite FromString_unfold. cbv zeta. fold root.
  assert (Eroot : (h ++ [root]) !! length h = Some root).
  { by rewrite lookup_app_r, Nat.sub_diag by lia. }
  case_bool_decide as Hs.
  - subst s. exists (h ++ [root]). split; [done|].
    split; [rewrite length_app; simpl; lia|]. exists 1.
    intros [|fuel] Hfuel; [lia|]. simpl. by rewrite Eroot.
  - destruct (Parse_run_spec (length (h ++ [root])) id false (λ _, eq_refl)
                (h ++ [root]) (length h) root _ s Eroot eq_refl)
      as (st & h' & Erun & _ & Hlen & Hd & out' & [F HF] & HR); [done|].
    rewrite Erun. exists h'. split; [done|].
    split; [rewrite length_app in Hlen; simpl in Hlen; lia|].
    rewrite list_alter_id in HF by apply relink_id.
    assert (out' = s) as ->; [|by exists F].
    unfold Rel in HR. destruct (h' !! length (h ++ [root])) as [nd0|]; [|done].
    destruct (fields nd0) eqn:Ef; try done.
    destruct HR as (Hl & a & b & -> & ->).
    rewrite relink_id, (inline_leaf_text _ Hl). unfold leaf_raw.
    by rewrite Ef.
Qed.

(** [ToString] of a document just built from [s] is [s] without the
    carriage returns and line feeds at its end; other white space at the
    end of [s] is kept. *)
Theorem ToString_parsed (h : heap) (s : str) :
  ∃ d h',
    FromString s h = (Ok d, h')
    ∧ ∃ F, ∀ fuel, F ≤ fuel →
        ToString fuel h' d = Some (_strip_linebreaks_only s)
        ∧ ∃ tail, s = _strip_linebreaks_only s ++ tail
                  ∧ Forall (λ c, is_cr_lf c = true) tail
                  ∧ (∀ x, last (_strip_linebreaks_only s) = Some x →
                          is_cr_lf x = false).
Proof.
  destruct (FromString_render h s) as (h' & E & _ & F & HF).
  exists (length h), h'. split; [done|]. exists F. intros fuel Hfuel.
  split; [unfold ToString; by rewrite HF|].
  unfold _strip_linebreaks_only. fold is_cr_lf.
  exists (rspan is_cr_lf s).2. split; [by rewrite rspan_app|].
  split; [apply rspan_Forall|apply rspan_fst_last].
Qed.

(** ** The dirty state and the tree below a node *)

(** [reach h r r']: [r'] is [r] or a node below it, through the child
    lists. *)
Inductive reach (h : heap) : ref → ref → Prop :=
| reach_self r : reach h r r
| reach_child r nd c r' :
    h !! r = Some nd → c ∈ _children nd → reach h c r' → reach h r r'.

Lemma py_any_true {A} (f : A → option bool) l :
  py_any f l = Some true → ∃ x, x ∈ l ∧ f x = Some true.
Proof.
  induction l as [|x l IH]; simpl; [done|].
  destruct (f x) as [[]|] eqn:E; [| |done].
  - intros _. exists x. split; [left|done].
  - intros H. destruct (IH H) as (y & Hy & Ey). exists y. split; [by right|done].
Qed.

Lemma py_any_false {A} (f : A → option bool) l :
  py_any f l = Some false → ∀ x, x ∈ l → f x = Some false.
Proof.
  induction l as [|x l IH]; simpl; [intros _ y Hy; by apply elem_of_nil in Hy|].
  destruct (f x) as [[]|] eqn:E; [done| |done].
  intros H y Hy. apply elem_of_cons in Hy as [->|Hy]; [done|by apply IH].
Qed.

(** What [IsDirty] answers: true only if the node or some node below it
    has its own flag set, false only if none of them has. *)
Theorem IsDirty_descendants (fuel : nat) (h : heap) (r : ref) :
  (IsDirty fuel h r = Some true →
     ∃ r' nd', reach h r r' ∧ h !! r' = Some nd' ∧ _dirty_self nd' = true)
  ∧ (IsDirty fuel h r = Some false →
       ∀ r' nd', reach h r r' → h !! r' = Some nd' → _dirty_self nd' = false).
Proof.
  revert r. induction fuel as [|fuel IH]; intros r; simpl; [done|].
  destruct (h !! r) as [nd|] eqn:E; [|done].
  destruct (_dirty_self nd) eqn:Ed.
  - split; [|done]. intros _. exists r, nd. split; [constructor|done].
  - split.
    + intros Hany. destruct (py_any_true _ _ Hany) as (c & Hc & Ec).
      destruct (proj1 (IH c) Ec) as (r' & nd' & Hr & E' & Hd').
      exists r', nd'. split; [by eapply reach_child|done].
    + intros Hany r' nd' Hr E'.
      inversion Hr as [|? nd0 c ? E0 Hc Hr']; subst.
      * congruence.
      * rewrite E in E0. injection E0 as <-.
        exact (proj2 (IH c) (py_any_false _ _ Hany c Hc) r' nd' Hr' E').
Qed.

(** ** The groups of a matched line *)

Lemma split_eol_app s : (split_eol s).1 ++ (split_eol s).2 = s.
Proof.
  unfold split_eol. destruct (reverse s) as [|a r] eqn:E; [by rewrite app_nil_r|].
  assert (Hs : s = reverse r ++ [a]).
  { by rewrite <- (reverse_involutive s), E, reverse_cons. }
  destruct (a =? 10)%N eqn:Ea; [|by rewrite app_nil_r].
  apply N.eqb_eq in Ea as ->.
  destruct r as [|b r']; [done|].
  destruct (b =? 13)%N eqn:Eb; simpl; [|done].
  apply N.eqb_eq in Eb as ->. rewrite Hs, reverse_cons, <- app_assoc. done.
Qed.

(** The groups of [fence_open_re] are consecutive parts of the line. *)
Lemma fence_open_match_app line fm :
  fence_open_match line = Some fm →
  fg_indent fm ++ fg_fence fm ++ fg_info fm ++ fg_eol fm = line.
Proof.
  unfold fence_open_match.
  pose proof (span_app is_sp_tab line) as H1.
  destruct (span is_sp_tab line) as [indent r1]. simpl in H1.
  assert (Hrun : ∀ c fence r2,
    (let '(fence, r2) := span (N.eqb c) r1 in
     if 3 <=? length fence then Some (fence, r2) else None) = Some (fence, r2) →
    fence ++ r2 = r1).
  { intros c fence r2. pose proof (span_app (N.eqb c) r1) as H2.
    destruct (span (N.eqb c) r1) as [x y]. simpl in H2.
    destruct (3 <=? length x); [|done]. by intros [= <- <-]. }
  intros E.
  destruct (let '(fence, r2) := span (N.eqb 96%N) r1 in
            if 3 <=? length fence then Some (fence, r2) else None)
    as [[fence r2]|] eqn:E1.
  - apply Hrun in E1. pose proof (split_eol_app r2) as H3.
    destruct (split_eol r2) as [info eol]. simpl in H3.
    destruct (no_crlf info); [|done]. injection E as <-. simpl.
    by rewrite H3, E1.
  - destruct (let '(fence, r2) := span (N.eqb 126%N) r1 in
              if 3 <=? length fence then Some (fence, r2) else None)
      as [[fence r2]|] eqn:E2; [|done].
    apply Hrun in E2. pose proof (split_eol_app r2) as H3.
    destruct (split_eol r2) as [info eol]. simpl in H3.
    destruct (no_crlf info); [|done]. injection E as <-. simpl.
    by rewrite H3, E2.
Qed.

(** The groups of [heading_re] are consecutive parts of the line. *)
Lemma heading_match_app line hm :
  heading_match line = Some hm →
  hg_indent hm ++ hg_hashes hm ++ hg_space hm ++ hg_title hm
  ++ hg_trailing hm ++ hg_eol hm = line.
Proof.
  unfold heading_match.
  pose proof (span_app is_sp_tab line) as H1.
  destruct (span is_sp_tab line) as [indent r1]. simpl in H1.
  pose proof (span_app (N.eqb 35) r1) as H2.
  destruct (span (N.eqb 35) r1) as [hashes r2]. simpl in H2.
  destruct ((1 <=? length hashes) && (length hashes <=? 6)); [|done].
  pose proof (span_app is_sp_tab r2) as H3.
  destruct (span is_sp_tab r2) as [space r3]. simpl in H3.
  destruct (1 <=? length space); [|done].
  pose proof (split_eol_app r3) as H4.
  destruct (split_eol r3) as [body eol]. simpl in H4.
  destruct (forallb _ body); [|done].
  pose proof (rspan_app is_sp_tab body) as H5.
  destruct (rspan is_sp_tab body) as [title trailing]. simpl in H5.
  intros [= <-]. simpl.
  rewrite (app_assoc title), H5, H4, H3, H2. done.
Qed.

(** ** Edits of one node *)

Lemma lookup_new (h : heap) (nd : MarkdownNode) :
  (h ++ [nd]) !! length h = Some nd.
Proof. by rewrite lookup_app_r, Nat.sub_diag by lia. Qed.

Lemma lookup_set (h : heap) r (nd nd' : MarkdownNode) :
  h !! r = Some nd → <[r := nd']> h !! r = Some nd'.
Proof. intros E. apply list_lookup_insert_eq. by eapply lookup_lt_Some. Qed.

(** A heading as the parser builds it from a heading line, then renamed:
    [Text] was the title without the white space around it, and the new
    line is the old one with the stripped value in that place; the
    indentation, the hashes, the blanks around the title and the end of
    the line are kept. *)
Theorem heading_rename (line : str) (hm : heading_groups) (suffix : str)
    (parent : option ref) (h : heap) (v : str) :
  heading_match line = Some hm →
  let prefix := hg_indent hm ++ hg_hashes hm ++ hg_space hm in
  let line_suffix := hg_trailing hm ++ hg_eol hm in
  ∃ h1 h2 lead core trail,
    new_HeadingNode (length (hg_hashes hm)) line prefix (hg_title hm)
      line_suffix suffix parent h = (Ok (length h), h1)
    ∧ set_Text (length h) v h1 = (Ok tt, h2)
    ∧ _split_trivia (hg_title hm) = (lead, core, trail)
    ∧ line = prefix ++ lead ++ core ++ trail ++ line_suffix
    ∧ get_Text 0 h1 (length h) = Some core
    ∧ get_Text 0 h2 (length h) = Some (strip v)
    ∧ ∀ fuel,
        ToMarkdown (S fuel) h1 (length h) = Some (line ++ suffix)
        ∧ ToMarkdown (S fuel) h2 (length h)
          = Some (prefix ++ lead ++ strip v ++ trail ++ line_suffix ++ suffix).
Proof.
  intros Hm prefix line_suffix.
  destruct (heading_match_level _ _ Hm) as [Hl1 Hl6].
  destruct (_HEADING_TYPES_Some _ Hl1 Hl6) as [t Et].
  unfold new_HeadingNode. rewrite Et.
  destruct (_split_trivia (hg_title hm)) as [[lead core] trail] eqn:Es.
  set (f := HeadingNodeFields (length (hg_hashes hm)) line prefix lead core
              trail line_suffix suffix).
  set (nd := Node t parent [] false (CHeadingNode f)).
  assert (E1 : (h ++ [nd]) !! length h = Some nd) by apply lookup_new.
  eexists (h ++ [nd]), _, lead, core, trail.
  split; [done|]. split.
  { unfold set_Text, bind at 1, get_node. rewrite E1. simpl.
    apply (set_field_Ok _ _ _ _ E1). }
  split; [done|]. split.
  { rewrite <- (heading_match_app _ _ Hm). unfold prefix, line_suffix.
    rewrite <- (_split_trivia_app _ _ _ _ Es). by rewrite <- !app_assoc. }
  split; [unfold get_Text; by rewrite E1|].
  split; [unfold get_Text; by rewrite (lookup_set _ _ _ _ E1)|].
  intros fuel. split.
  - simpl. rewrite E1. simpl. by rewrite app_nil_r.
  - simpl. rewrite (lookup_set _ _ _ _ E1). simpl.
    by rewrite app_nil_r, <- !app_assoc.
Qed.

Lemma heading_rename_witness :
  ∃ h1 h2,
    new_HeadingNode 2 (py_lines ["## Old  "]) (py "## ") (py "Old")
      (py_lines ["  "]) [] None [] = (Ok 0, h1)
    ∧ set_Text 0 (py " New ") h1 = (Ok tt, h2)
    ∧ ToMarkdown 1 h2 0 = Some (py_lines ["## New  "]).
Proof.
  assert (Hm : heading_match (py_lines ["## Old  "])
               = Some (HeadingGroups [] (py "##") (py " ") (py "Old")
                         (py "  ") [10%N])) by reflexivity.
  destruct (heading_rename _ _ [] None [] (py " New ") Hm)
    as (h1 & h2 & lead & core & trail & E1 & E2 & Es & _ & _ & _ & Hmd).
  exists h1, h2. split; [exact E1|]. split; [exact E2|].
  injection Es as <- <- <-. exact (proj2 (Hmd 0)).
Defined.

(** A code block as the parser builds it, then given a new body through
    [Text]: the body is stored as it is, without stripping, and it is the
    only part that changes when the closing line matches the pattern of
    [_parse_closing].  For a closing line that pattern rejects, the
    rebuilt closing line is the fallback: three backticks and the line feed
    of the line, if it ends with one. *)
Theorem code_body_assignment (opening_line code_body closing_line
    block_suffix : str) (parent : option ref) (h : heap) (v : str)
    (fm : fence_groups) :
  fence_open_match opening_line = Some fm →
  ∃ h1 h2,
    new_CodeBlockNode opening_line code_body closing_line block_suffix
      parent h = (Ok (length h), h1)
    ∧ set_Text (length h) v h1 = (Ok tt, h2)
    ∧ get_Text 0 h2 (length h) = Some v
    ∧ (∀ fuel, ToMarkdown (S (S fuel)) h1 (length h)
               = Some (opening_line ++ code_body ++ closing_line
                       ++ block_suffix))
    ∧ (∀ cm, fence_open_match closing_line = Some cm →
         ∀ fuel, ToMarkdown (S (S fuel)) h2 (length h)
                 = Some (opening_line ++ v ++ closing_line ++ block_suffix))
    ∧ (fence_open_match closing_line = None →
         ∀ fuel, ToMarkdown (S (S fuel)) h2 (length h)
                 = Some (opening_line ++ v ++ py "```"
                         ++ (if bool_decide (last closing_line = Some 10%N)
                             then [10%N] else [])
                         ++ block_suffix)).
Proof.
  intros Hm. unfold new_CodeBlockNode, _parse_closing, _parse_opening.
  rewrite Hm.
  set (cl := match fence_open_match closing_line with
             | Some g => (fg_indent g, fg_fence g, fg_info g, fg_eol g)
             | None => ([], py "```", [],
                        if bool_decide (last closing_line = Some 10%N)
                        then [10%N] else [])
             end).
  destruct cl as [[[ci cf] ct] ce] eqn:Ecl.
  set (f := CodeBlockNodeFields opening_line closing_line block_suffix
              (fg_indent fm) (fg_fence fm) (fg_info fm) (fg_eol fm)
              ci cf ct ce code_body code_body).
  set (nd := Node CodeBlock parent [] false (CCodeBlockNode f)).
  assert (E1 : (h ++ [nd]) !! length h = Some nd) by apply lookup_new.
  eexists (h ++ [nd]), _. split; [done|]. split.
  { unfold set_Text, bind at 1, get_node. rewrite E1. simpl.
    apply (set_field_Ok _ _ _ _ E1). }
  split; [unfold get_Text; by rewrite (lookup_set _ _ _ _ E1)|].
  assert (Hdirty : ∀ fuel,
    ToMarkdown (S (S fuel))
      (<[length h := Node CodeBlock parent [] true
                       (CCodeBlockNode (cb_set_code_body_current v f))]>
         (h ++ [nd])) (length h)
    = Some ((fg_indent fm ++ fg_fence fm ++ fg_info fm ++ fg_eol fm)
            ++ v ++ (ci ++ cf ++ ct ++ ce) ++ block_suffix)).
  { intros fuel. cbn [ToMarkdown]. rewrite (lookup_set _ _ _ _ E1).
    cbn [mbind option_bind fields]. cbn [IsDirty].
    rewrite (lookup_set _ _ _ _ E1). done. }
  split.
  { intros fuel. cbn [ToMarkdown]. rewrite E1.
    cbn [mbind option_bind fields]. cbn [IsDirty]. rewrite E1. done. }
  split.
  - intros cm Hcm fuel. rewrite Hdirty, (fence_open_match_app _ _ Hm).
    subst cl. rewrite Hcm in Ecl. injection Ecl as <- <- <- <-.
    by rewrite (fence_open_match_app _ _ Hcm).
  - intros Hcm fuel. rewrite Hdirty, (fence_open_match_app _ _ Hm).
    subst cl. rewrite Hcm in Ecl. injection Ecl as <- <- <- <-. done.
Qed.

(** A closing line that ends with a carriage return alone: the block is
    rebuilt with a closing fence of three backticks. *)
Lemma code_body_assignment_witness :
  ∃ h1 h2,
    new_CodeBlockNode (py_lines ["````"]) (py_lines ["x"]) (py "````" ++ [13%N])
      [] None [] = (Ok 0, h1)
    ∧ set_Text 0 (py_lines ["y"]) h1 = (Ok tt, h2)
    ∧ ToMarkdown 2 h1 0
      = Some (py_lines ["````"; "x"] ++ py "````" ++ [13%N])
    ∧ ToMarkdown 2 h2 0 = Some (py_lines ["````"; "y"] ++ py "```").
Proof.
  assert (Hm : fence_open_match (py_lines ["````"])
               = Some (FenceGroups [] (py "````") [] [10%N])) by reflexivity.
  destruct (code_body_assignment (py_lines ["````"]) (py_lines ["x"])
              (py "````" ++ [13%N]) [] None [] (py_lines ["y"]) _ Hm)
    as (h1 & h2 & E1 & E2 & _ & Hclean & _ & Hlossy).
  exists h1, h2. split; [exact E1|]. split; [exact E2|].
  split; [exact (Hclean 0)|]. exact (Hlossy eq_refl 0).
Defined.

(** [InfoString]: the getter returns the info text stripped; the setter
    stores a blank and the stripped value, or nothing when the stripped
    value is empty.  On a code block as the parser builds it the opening
    line is rebuilt with the indentation, the fence and the end of line it
    had, so a value equal to the old one still changes the line when the
    old info did not start with exactly one blank. *)
Theorem InfoString_assignment (opening_line code_body closing_line
    block_suffix : str) (parent : option ref) (h : heap) (v : str)
    (fm cm : fence_groups) :
  fence_open_match opening_line = Some fm →
  fence_open_match closing_line = Some cm →
  ∃ h1 h2,
    new_CodeBlockNode opening_line code_body closing_line block_suffix
      parent h = (Ok (length h), h1)
    ∧ set_InfoString (length h) v h1 = (Ok tt, h2)
    ∧ get_InfoString h1 (length h) = Some (strip (fg_info fm))
    ∧ get_InfoString h2 (length h) = Some (strip v)
    ∧ get_Text 0 h2 (length h) = Some code_body
    ∧ ∀ fuel,
        ToMarkdown (S (S fuel)) h2 (length h)
        = Some (fg_indent fm ++ fg_fence fm
                ++ (if bool_decide (strip v = []) then []
                    else 32%N :: strip v)
                ++ fg_eol fm ++ code_body ++ closing_line ++ block_suffix).
Proof.
  intros Hm Hcm. unfold new_CodeBlockNode, _parse_closing, _parse_opening.
  rewrite Hm, Hcm.
  set (f := CodeBlockNodeFields opening_line closing_line block_suffix
              (fg_indent fm) (fg_fence fm) (fg_info fm) (fg_eol fm)
              (fg_indent cm) (fg_fence cm) (fg_info cm) (fg_eol cm)
              code_body code_body).
  set (nd := Node CodeBlock parent [] false (CCodeBlockNode f)).
  assert (E1 : (h ++ [nd]) !! length h = Some nd) by apply lookup_new.
  remember (match strip v with [] => [] | x => py " " ++ x end) as info
    eqn:Einfo.
  assert (Hinfo : info = if bool_decide (strip v = []) then []
                         else 32%N :: strip v).
  { subst info. by destruct (strip v). }
  assert (Hstrip : strip info = strip v).
  { subst info. destruct (strip v) as [|c s] eqn:Es; [done|].
    rewrite <- Es, (strip_app_l (py " ")); [apply strip_strip|].
    by repeat constructor. }
  set (nd' := Node CodeBlock parent [] true (CCodeBlockNode (cb_set_info info f))).
  exists (h ++ [nd]), (<[length h := nd']> (h ++ [nd])).
  split; [done|]. split.
  { unfold set_InfoString, bind at 1, get_node. rewrite E1.
    cbn [fields nd]. rewrite <- Einfo. apply (set_field_Ok _ _ _ _ E1). }
  split; [unfold get_InfoString; by rewrite E1|].
  split.
  { unfold get_InfoString. rewrite (lookup_set _ _ _ _ E1).
    cbn [mbind option_bind fields nd' cb_info cb_set_info]. by rewrite Hstrip. }
  split; [unfold get_Text; by rewrite (lookup_set _ _ _ _ E1)|].
  intros fuel. cbn [ToMarkdown]. rewrite (lookup_set _ _ _ _ E1).
  cbn [mbind option_bind fields nd']. cbn [IsDirty].
  rewrite (lookup_set _ _ _ _ E1).
  cbn [mbind option_bind fields nd' _dirty_self negb cb_set_info f
       cb_opening_prefix cb_fence cb_info cb_opening_eol cb_closing_indent
       cb_closing_fence cb_closing_trailing cb_closing_eol
       cb_code_body_current cb_block_suffix_original].
  rewrite <- Hinfo, (fence_open_match_app _ _ Hcm).
  by rewrite <- !app_assoc.
Qed.

(** The info text [python], glued to the fence, set again to [python]: the
    opening line gets a blank after the fence. *)
Lemma InfoString_assignment_witness :
  ∃ h1 h2,
    new_CodeBlockNode (py_lines ["```python"]) (py_lines ["x"])
      (py_lines ["```"]) [] None [] = (Ok 0, h1)
    ∧ set_InfoString 0 (py "python") h1 = (Ok tt, h2)
    ∧ get_InfoString h1 0 = Some (py "python")
    ∧ get_InfoString h2 0 = Some (py "python")
    ∧ ToMarkdown 2 h2 0 = Some (py_lines ["``` python"; "x"; "```"]).
Proof.
  assert (Hm : fence_open_match (py_lines ["```python"])
               = Some (FenceGroups [] (py "```") (py "python") [10%N]))
    by reflexivity.
  assert (Hcm : fence_open_match (py_lines ["```"])
                = Some (FenceGroups [] (py "```") [] [10%N])) by reflexivity.
  destruct (InfoString_assignment (py_lines ["```python"]) (py_lines ["x"])
              (py_lines ["```"]) [] None [] (py "python") _ _ Hm Hcm)
    as (h1 & h2 & E1 & E2 & G1 & G2 & _ & Hmd).
  exists h1, h2. split; [exact E1|]. split; [exact E2|].
  split; [exact G1|]. split; [exact G2|]. exact (Hmd 0).
Defined.

Lemma no_crlf_reverse s : no_crlf (reverse s) = no_crlf s.
Proof.
  unfold no_crlf. induction s as [|c s IH]; [done|].
  rewrite reverse_cons, forallb_app, IH. simpl.
  rewrite andb_true_r. apply andb_comm.
Qed.

Lemma last_app_nonempty {A} (a b : list A) : b ≠ [] → last (a ++ b) = last b.
Proof.
  intros Hb. destruct (exists_last Hb) as (b' & x & ->).
  by rewrite app_assoc, !last_snoc.
Qed.

(** The closing pattern of the block parser and the pattern of
    [_parse_closing] differ on one kind of line: a line the parser takes as
    the closing fence is rejected by [_parse_closing] exactly when it ends
    with a carriage return that no line feed follows. *)
Theorem closing_line_patterns (c : N) (n : nat) (l : str) :
  (c = 96 ∨ c = 126)%N → 3 ≤ n → fence_close_match c n l = true →
  (fence_open_match l = None ↔ last l = Some 13%N).
Proof.
  intros Hc Hn. unfold fence_close_match, fence_open_match.
  pose proof (span_app is_sp_tab l) as H1.
  destruct (span is_sp_tab l) as [indent r1]. simpl in H1. cbn [snd].
  pose proof (span_app (N.eqb c) r1) as H2.
  pose proof (span_Forall (N.eqb c) r1) as Hrun.
  destruct (span (N.eqb c) r1) as [run r2] eqn:Espan. simpl in H2, Hrun.
  intros Hclose. apply andb_true_iff in Hclose as [Hlen Htail].
  apply Nat.leb_le in Hlen.
  assert (Hrun_ne : run ≠ []) by (destruct run; simpl in *; [lia|done]).
  assert (Hopen :
    (match
       (let '(fence, r2) := span (N.eqb 96%N) r1 in
        if 3 <=? length fence then Some (fence, r2) else None)
     with
     | Some x => Some x
     | None =>
         let '(fence, r2) := span (N.eqb 126%N) r1 in
         if 3 <=? length fence then Some (fence, r2) else None
     end) = Some (run, r2)).
  { assert (H3 : (3 <=? length run) = true) by (apply Nat.leb_le; lia).
    destruct Hc as [->| ->].
    - by rewrite Espan, H3.
    - rewrite Espan, H3.
      destruct run as [|x run']; [done|].
      apply Forall_cons_1 in Hrun as [Hx _]. apply N.eqb_eq in Hx as <-.
      subst r1. simpl. done. }
  rewrite Hopen. clear Hopen.
  assert (Hlast : last l = match last r2 with
                           | Some x => Some x
                           | None => Some c
                           end).
  { subst l r1. destruct r2 as [|y r2'] using rev_ind.
    - rewrite app_nil_r. rewrite last_app_nonempty by done.
      destruct (exists_last Hrun_ne) as (run' & x & ->).
      rewrite last_snoc. simpl.
      apply Forall_app in Hrun as [_ Hx].
      inversion Hx as [|? ? Hx' _]; subst. by apply N.eqb_eq in Hx' as <-.
    - rewrite !app_assoc, !last_snoc. done. }
  rewrite Hlast. clear Hlast H1 H2 Espan.
  unfold close_tail in Htail. unfold split_eol.
  rewrite <- (head_reverse r2).
  remember (reverse r2) as rr eqn:Er.
  assert (Hr2 : r2 = reverse rr) by (subst rr; by rewrite reverse_involutive).
  clear Er. subst r2. destruct rr as [|a r].
  { simpl. split; [done|]. intros [= ->]. by destruct Hc. }
  cbn [head].
  destruct (a =? 10)%N eqn:Ea.
  - apply N.eqb_eq in Ea as ->.
    destruct r as [|b r']; [done|].
    destruct (b =? 13)%N eqn:Eb; by rewrite no_crlf_reverse, Htail.
  - rewrite no_crlf_reverse. destruct (a =? 13)%N eqn:Ea'.
    + apply N.eqb_eq in Ea' as ->. done.
    + rewrite Htail. split; [done|]. intros [= ->]. done.
Qed.

Lemma closing_line_patterns_witness :
  fence_close_match 96 4 (py "````" ++ [13%N]) = true
  ∧ fence_open_match (py "````" ++ [13%N]) = None.
Proof.
  assert (H : fence_close_match 96 4 (py "````" ++ [13%N]) = true)
    by reflexivity.
  split; [exact H|].
  apply (closing_line_patterns 96 4 (py "````" ++ [13%N]));
    [by left|lia|exact H|reflexivity].
Defined.

(** An example for the properties below: a heading and a paragraph with one
    link.  Object 0 is the root, 1 the heading, 2 the paragraph, 3 the text
    before the link, 4 the link and 5 the end of the line. *)
Definition ex_notes : heap :=
  Eval vm_compute in (FromString (py_lines ["# T"; "see [a](b)"]) []).2.

Definition ex_notes_link : LinkNode_fields :=
  LinkNodeFields (py "[a](b)") false [] (py "a") [] [] (py "b") [].

(** The same after [link.Href = "c"]. *)
Definition ex_notes_edited : heap :=
  Eval vm_compute in (set_Href 4 (py "c") ex_notes).2.

Lemma IsDirty_descendants_witness :
  ∃ r' nd', reach ex_notes_edited 0 r' ∧ ex_notes_edited !! r' = Some nd'
            ∧ _dirty_self nd' = true.
Proof.
  apply (proj1 (IsDirty_descendants 4 ex_notes_edited 0)). reflexivity.
Defined.

(** The label and the target of a link are set apart: [Href] after
    [link.Href = v] is [v] stripped and the label is what it was; [Text]
    after [link.Text = v] is [v] stripped and the target is what it was;
    of two assignments to the same property the second decides; and the
    order of an assignment to [Href] and one to [Text] does not matter. *)
Theorem link_label_and_target (h : heap) (L : ref) (nd : MarkdownNode)
    (f : LinkNode_fields) (v w : str) :
  h !! L = Some nd → fields nd = CLinkNode f →
  (∃ h', set_Href L v h = (Ok tt, h')
         ∧ get_Href h' L = Some (strip v)
         ∧ get_Text 0 h' L = Some (ln_label_core f)
         ∧ set_Href L w h' = set_Href L w h)
  ∧ (∃ h', set_Text L v h = (Ok tt, h')
           ∧ get_Text 0 h' L = Some (strip v)
           ∧ get_Href h' L = Some (ln_href_core f)
           ∧ set_Text L w h' = set_Text L w h)
  ∧ (set_Href L v ;; set_Text L w) h = (set_Text L w ;; set_Href L v) h.
Proof.
  intros E Ef.
  assert (Hh : ∀ (h0 : heap) n0 f0 x, h0 !! L = Some n0 →
    fields n0 = CLinkNode f0 →
    set_Href L x h0
    = (Ok tt, <[L := Node (NType n0) (_parent n0) (_children n0) true
                       (CLinkNode (ln_set_href_core (strip x) f0))]> h0)).
  { intros h0 n0 f0 x E0 Ef0. unfold set_Href, bind at 1, get_node.
    rewrite E0, Ef0. apply (set_field_Ok _ _ _ _ E0). }
  assert (Ht : ∀ (h0 : heap) n0 f0 x, h0 !! L = Some n0 →
    fields n0 = CLinkNode f0 →
    set_Text L x h0
    = (Ok tt, <[L := Node (NType n0) (_parent n0) (_children n0) true
                       (CLinkNode (ln_set_label_core (strip x) f0))]> h0)).
  { intros h0 n0 f0 x E0 Ef0. unfold set_Text, bind at 1, get_node.
    rewrite E0, Ef0. apply (set_field_Ok _ _ _ _ E0). }
  split; [|split].
  - eexists. split; [exact (Hh h nd f v E Ef)|].
    split; [unfold get_Href; by rewrite (lookup_set _ _ _ _ E)|].
    split; [unfold get_Text; by rewrite (lookup_set _ _ _ _ E)|].
    erewrite Hh; [|by eapply lookup_set|done]. rewrite (Hh h nd f w E Ef).
    by rewrite list_insert_insert_eq.
  - eexists. split; [exact (Ht h nd f v E Ef)|].
    split; [unfold get_Text; by rewrite (lookup_set _ _ _ _ E)|].
    split; [unfold get_Href; by rewrite (lookup_set _ _ _ _ E)|].
    erewrite Ht; [|by eapply lookup_set|done]. rewrite (Ht h nd f w E Ef).
    by rewrite list_insert_insert_eq.
  - rewrite (bind_Ok _ _ _ _ _ (Hh h nd f v E Ef)).
    rewrite (bind_Ok _ _ _ _ _ (Ht h nd f w E Ef)).
    erewrite Ht; [|by eapply lookup_set|done].
    erewrite Hh; [|by eapply lookup_set|done].
    by rewrite !list_insert_insert_eq.
Qed.

Lemma link_label_and_target_witness :
  ∃ h', set_Href 4 (py " c ") ex_notes = (Ok tt, h')
        ∧ get_Href h' 4 = Some (py "c")
        ∧ get_Text 0 h' 4 = Some (py "a").
Proof.
  destruct (link_label_and_target ex_notes 4
              (Node Link (Some 2) [] false (CLinkNode ex_notes_link))
              ex_notes_link (py " c ") [] eq_refl eq_refl)
    as ((h' & E & G1 & G2 & _) & _).
  exists h'. split; [exact E|]. split; [exact G1|exact G2].
Defined.

(** ** What the parser builds *)

(** The type of a node is the one of its class; the type of a heading is
    the one of its level. *)
Definition node_type_ok (nd : MarkdownNode) : Prop :=
  match fields nd with
  | CMarkdownNode => False
  | CTextNode _ => NType nd = Text
  | CLinkNode f => NType nd = (if ln_is_image f then Image else Link)
  | CCodeBlockNode _ => NType nd = CodeBlock
  | CHeadingNode f => _HEADING_TYPES (Level f) = Some (NType nd)
  | CParagraphNode _ => NType nd = Paragraph
  | CMarkdownDocument _ => NType nd = Root
  end.

(** The fields of a node spell its original text: the three parts of a
    text, the label and the target of a link, the prefix, the title and
    the suffix of a heading line, and the opening line of a code block,
    whose body is the original one; the closing line of a code block too,
    when it matches the pattern of [_parse_closing]. *)
Definition node_spelled (nd : MarkdownNode) : Prop :=
  match fields nd with
  | CTextNode f =>
      tn_leading f ++ tn_core f ++ tn_trailing f = tn_raw_original f
  | CLinkNode f => rebuilt_link f = ln_raw_original f
  | CCodeBlockNode f =>
      cb_opening_prefix f ++ cb_fence f ++ cb_info f ++ cb_opening_eol f
      = cb_opening_line_original f
      ∧ cb_code_body_current f = cb_code_body_original f
      ∧ (∀ cm, fence_open_match (cb_closing_line_original f) = Some cm →
           cb_closing_indent f ++ cb_closing_fence f
           ++ cb_closing_trailing f ++ cb_closing_eol f
           = cb_closing_line_original f)
  | CHeadingNode f =>
      hn_prefix f
      ++ (hn_title_leading f ++ hn_title_core f ++ hn_title_trailing f)
      ++ hn_line_suffix f
      = hn_raw_line_original f
  | _ => True
  end.

(** A node as the parser makes it: clean, of the type of its class, and
    with fields that spell its text. *)
Definition parsed_node (nd : MarkdownNode) : Prop :=
  _dirty_self nd = false ∧ node_type_ok nd ∧ node_spelled nd.

(** Every object from [b] on is a [parsed_node]. *)
Definition parsed_from (b : nat) (h : heap) : Prop :=
  ∀ r nd, b ≤ r → h !! r = Some nd → parsed_node nd.

(** The computation [m] makes and leaves only such nodes. *)
Definition builds {A} (m : M A) : Prop :=
  ∀ b h, parsed_from b h → parsed_from b (m h).2.

Lemma builds_ret {A} (a : A) : builds (ret a).
Proof. by intros b h H. Qed.

Lemma builds_raise {A} (e : exn) : builds (@raise A e).
Proof. by intros b h H. Qed.

Lemma builds_lift {A} (r : result A) : builds (lift r).
Proof. by intros b h H. Qed.

Lemma builds_bind {A B} (m : M A) (k : A → M B) :
  builds m → (∀ a, builds (k a)) → builds (bind m k).
Proof.
  intros Hm Hk b h H. unfold bind. specialize (Hm b h H).
  destruct (m h) as [[a|e] h1]; simpl in *; [|done]. by apply Hk.
Qed.

(** The same for a value that does not depend on the heap, where what
    follows may use what the value is. *)
Lemma builds_bind_lift {A B} (r : result A) (k : A → M B) :
  (∀ a, r = Ok a → builds (k a)) → builds (bind (lift r) k).
Proof.
  intros Hk b h H. unfold bind, lift. destruct r as [a|e]; [|done].
  by apply Hk.
Qed.

Lemma builds_alloc (nd : MarkdownNode) : parsed_node nd → builds (alloc nd).
Proof.
  intros Hnd b h H r x Hr. unfold alloc. simpl.
  intros [E|[_ E]]%lookup_app_Some; [by eapply H|].
  apply list_lookup_singleton_Some in E as [_ <-]. done.
Qed.

Lemma builds_modify_node r (f : MarkdownNode → MarkdownNode) :
  (∀ nd, parsed_node nd → parsed_node (f nd)) → builds (modify_node r f).
Proof.
  intros Hf b h H. unfold modify_node.
  destruct (h !! r) eqn:Er; simpl; [|done].
  intros x nd Hx. rewrite list_lookup_alter. case_decide.
  - subst. rewrite Er. simpl. intros [= <-]. apply Hf. by eapply H.
  - by apply H.
Qed.

Lemma builds_for_each {A} (f : A → M unit) (l : list A) :
  (∀ a, builds (f a)) → builds (for_each f l).
Proof.
  intros Hf. induction l as [|a l IH]; simpl; [apply builds_ret|].
  apply builds_bind; auto.
Qed.

Lemma parsed_node_set_leading_trivia f nd :
  parsed_node nd → parsed_node (set_leading_trivia f nd).
Proof.
  unfold set_leading_trivia, parsed_node, node_type_ok, node_spelled.
  destruct nd as [t p c d fs]. simpl. by destruct fs.
Qed.

Create HintDb builds discriminated.
#[local] Hint Resolve builds_ret builds_raise builds_lift builds_for_each
  parsed_node_set_leading_trivia : builds.
#[local] Hint Extern 1 (builds (bind _ _)) =>
  apply builds_bind; [|intros ?] : builds.
#[local] Hint Extern 1 (builds (modify_node _ _)) =>
  apply builds_modify_node; try (intros ? ?; assumption) : builds.
#[local] Hint Extern 1 (builds (alloc _)) =>
  apply builds_alloc; by split : builds.
#[local] Hint Extern 2 (builds (match ?x with _ => _ end)) =>
  destruct x : builds.
#[local] Hint Extern 2 (builds (if ?x then _ else _)) =>
  destruct x : builds.

Lemma builds__AppendChildParsed self child :
  builds (_AppendChildParsed self child).
Proof. unfold _AppendChildParsed. auto with builds. Qed.

Lemma builds_new_TextNode raw parent : builds (new_TextNode raw parent).
Proof.
  unfold new_TextNode. destruct (_split_trivia raw) as [[l c] t] eqn:E.
  apply builds_alloc. split; [done|]. split; [done|].
  by apply _split_trivia_app.
Qed.

(** A link whose raw text is the label in brackets and the target in
    parentheses. *)
Lemma builds_new_LinkNode raw label href parent (is_image : bool) :
  raw = (if is_image then py "!" else []) ++ py "[" ++ label ++ py "]("
        ++ href ++ py ")" →
  builds (new_LinkNode raw label href parent is_image).
Proof.
  intros Hraw. unfold new_LinkNode.
  destruct (_split_trivia label) as [[? ?] ?] eqn:El.
  destruct (_split_trivia href) as [[? ?] ?] eqn:Eh.
  apply builds_alloc. split; [done|]. split; [done|].
  unfold node_spelled, rebuilt_link. cbn.
  by rewrite (_split_trivia_app _ _ _ _ El), (_split_trivia_app _ _ _ _ Eh).
Qed.

(** A code block whose opening line matches the fence pattern. *)
Lemma builds_new_CodeBlockNode o b c s parent fm :
  fence_open_match o = Some fm →
  builds (new_CodeBlockNode o b c s parent).
Proof.
  intros Hm. unfold new_CodeBlockNode, _parse_closing, _parse_opening.
  rewrite Hm.
  destruct (fence_open_match c) as [cm|] eqn:Ec;
    (apply builds_alloc; split; [done|]; split; [done|]);
    unfold node_spelled; cbn; (split; [by apply fence_open_match_app|]);
    (split; [done|]); intros cm' Ecm'.
  - rewrite Ec in Ecm'. injection Ecm' as <-.
    by apply fence_open_match_app.
  - by rewrite Ec in Ecm'.
Qed.

(** A heading whose raw line is its prefix, its title and its suffix. *)
Lemma builds_new_HeadingNode l r p t ls bs parent :
  r = p ++ t ++ ls →
  builds (new_HeadingNode l r p t ls bs parent).
Proof.
  intros Hr. unfold new_HeadingNode. destruct (_HEADING_TYPES l) eqn:E;
    [|auto with builds].
  destruct (_split_trivia t) as [[? ?] ?] eqn:Et. apply builds_alloc.
  split; [done|]. split; [done|]. unfold node_spelled. cbn.
  by rewrite (_split_trivia_app _ _ _ _ Et).
Qed.

#[local] Hint Resolve builds__AppendChildParsed builds_new_TextNode
  : builds.

Lemma builds_flush_text raw until nodes buffer_start :
  builds (flush_text raw until nodes buffer_start).
Proof. unfold flush_text. auto with builds. Qed.

#[local] Hint Resolve builds_flush_text : builds.

Lemma builds__parse_inlines_loop fuel raw : ∀ nodes buffer_start i,
  builds (_parse_inlines_loop fuel raw nodes buffer_start i).
Proof.
  induction fuel as [|fuel IH]; intros nodes buffer_start i;
    cbn [_parse_inlines_loop];
    destruct (i <? length raw); auto with builds.
  assert (Hemit : ∀ b (p : nat * nat * str * str),
    _try_parse_link raw i b = Ok (Some p) →
    builds (let '(start, end_, label, href) := p in
            nb <- flush_text raw start nodes buffer_start ;;
            l <- new_LinkNode (slice raw start end_) label href None b ;;
            _parse_inlines_loop fuel raw (nb.1 ++ [l]) end_ end_)).
  { intros b [[[start end_] label] href] Ep.
    apply _try_parse_link_Some in Ep as (_ & _ & _ & Hsl).
    apply builds_bind; [auto with builds|]. intros nb.
    apply builds_bind; [by apply builds_new_LinkNode|]. intros l. apply IH. }
  assert (Htry : builds (
    c <- lift (py_index raw i) ;;
    if (c =? 91)%N then
      parsed <- lift (_try_parse_link raw i false) ;;
      match parsed with
      | Some p =>
          let '(start, end_, label, href) := p in
          nb <- flush_text raw start nodes buffer_start ;;
          l <- new_LinkNode (slice raw start end_) label href None false ;;
          _parse_inlines_loop fuel raw (nb.1 ++ [l]) end_ end_
      | None => _parse_inlines_loop fuel raw nodes buffer_start (i + 1)
      end
    else _parse_inlines_loop fuel raw nodes buffer_start (i + 1))).
  { apply builds_bind; [auto with builds|]. intros c.
    destruct (c =? 91)%N; [|apply IH].
    apply builds_bind_lift.
    intros [p|] Ep; [by apply Hemit|apply IH]. }
  destruct (startswith raw (py "![") i); [|exact Htry].
  apply builds_bind_lift.
  intros [p|] Ep; [by apply Hemit|exact Htry].
Qed.

Lemma builds_new_ParagraphNode raw_content block_suffix parent :
  builds (new_ParagraphNode raw_content block_suffix parent).
Proof.
  unfold new_ParagraphNode, _parse_inlines.
  apply builds_bind; [auto with builds|]. intros self.
  apply builds_bind; [apply builds__parse_inlines_loop|]. intros kids.
  auto with builds.
Qed.

#[local] Hint Resolve builds_new_ParagraphNode : builds.

Lemma builds_parse_heading_or_paragraph lines line i stack stack_levels :
  builds (parse_heading_or_paragraph lines line i stack stack_levels).
Proof.
  unfold parse_heading_or_paragraph.
  destruct (heading_match line) as [hm|] eqn:Hm; [|auto 10 with builds].
  apply builds_bind; [auto with builds|]. intros sl.
  apply builds_bind; [auto with builds|]. intros parent.
  apply builds_bind; [|auto with builds].
  apply builds_new_HeadingNode.
  rewrite <- (heading_match_app _ _ Hm). by rewrite <- !app_assoc.
Qed.

#[local] Hint Resolve builds_parse_heading_or_paragraph : builds.

Lemma builds_Parse_step lines st : builds (Parse_step lines st).
Proof.
  unfold Parse_step. apply builds_bind; [auto with builds|]. intros line.
  destruct (fence_open_match line) as [fm|] eqn:Hm; [|auto with builds].
  apply builds_bind; [auto with builds|]. intros fence_char.
  destruct (find_close _ _ _ _ _) as [[body_lines closing_line] read].
  destruct (negb _); [|auto 10 with builds].
  apply builds_bind; [auto with builds|]. intros top.
  apply builds_bind; [by eapply builds_new_CodeBlockNode|].
  auto with builds.
Qed.

(** *** The main loop, for any invariant *)

(** What every round of the main loop finds and leaves. *)
Definition loop_state (lines : list str) (st : parse_state) (h : heap)
  : Prop :=
  ps_i st ≤ length lines
  ∧ length (ps_stack st) = length (ps_stack_levels st)
  ∧ last (ps_stack_levels st) = Some 0
  ∧ Forall (λ r, r < length h) (ps_stack st).

Lemma step_post_loop_state lines st (h : heap) st' h' :
  loop_state lines st h →
  step_post lines (ps_i st) (ps_stack st) (ps_stack_levels st) h (Ok st', h') →
  loop_state lines st' h' ∧ ps_i st < ps_i st'.
Proof.
  destruct st as [i stack levels]. cbn [ps_i ps_stack ps_stack_levels].
  intros (Hi & Hlen & Hlast & Hlt)
    (b & i' & s' & l' & top & Hi1 & Hi2 & _ & _ & Hpop & Etop & Htop & E).
  injection E as -> ->. unfold loop_state.
  cbn [ps_i ps_stack ps_stack_levels].
  split; [|done].
  assert (Hs' : length s' = length l' ∧ last l' = Some 0
                ∧ ∀ x, x ∈ s' → x ∈ stack).
  { destruct (block_level b) as [level|].
    - destruct Hpop as [Hl1 Epop].
      destruct (pop_levels_ind (λ _ _, True) level Hl1
                  (λ _ _ _ _ _ _ _ _, I) stack levels Hlen Hlast I)
        as (s2 & l2 & E2 & _ & Hlen2 & Hlast2 & _ & Hsub & _).
      rewrite Epop in E2. by injection E2 as <- <-.
    - by destruct Hpop as [-> ->]. }
  destruct Hs' as (Hlen' & Hlast' & Hsub).
  assert (Hlt' : Forall (λ r, r < length (attach top (block_nodes top
                                                     (length h) b) h)) s').
  { apply Forall_forall. intros x Hx. rewrite length_attach.
    apply Hsub in Hx. rewrite Forall_forall in Hlt. specialize (Hlt x Hx). lia. }
  split; [done|].
  destruct (block_level b); cbn [length]; (split; [lia|]).
  - split; [by rewrite last_cons, Hlast'|].
    apply Forall_cons. split; [|done]. rewrite length_attach.
    destruct b; simpl; lia.
  - done.
Qed.

(** An invariant of the rounds holds when the loop ends, and the loop
    ends with every line read. *)
Lemma Parse_loop_invariant (Inv' : parse_state → heap → Prop) lines :
  (∀ st (h : heap) st' h',
     Inv' st h → loop_state lines st h → ps_i st < length lines →
     step_post lines (ps_i st) (ps_stack st) (ps_stack_levels st) h
       (Ok st', h') →
     Parse_step lines st h = (Ok st', h') →
     Inv' st' h') →
  ∀ fuel st (h : heap),
    Inv' st h → loop_state lines st h → length lines ≤ fuel + ps_i st →
    ∃ st' h', Parse_loop fuel lines st h = (Ok st', h')
              ∧ Inv' st' h' ∧ loop_state lines st' h'
              ∧ ps_i st' = length lines.
Proof.
  intros Hstep.
  assert (Hend : ∀ st (h : heap),
    Inv' st h → loop_state lines st h → length lines ≤ ps_i st →
    ∃ st' h', (Ok st, h) = (Ok st', h') ∧ Inv' st' h'
              ∧ loop_state lines st' h' ∧ ps_i st' = length lines).
  { intros st h HI HL Hge. pose proof HL as (Hi & _).
    exists st, h. split; [done|]. split; [done|]. split; [done|]. lia. }
  induction fuel as [|fuel IH]; intros st h HI HL Hfuel; cbn [Parse_loop];
    destruct (Nat.ltb_spec (ps_i st) (length lines)) as [Hlt|Hge];
    [lia|by apply Hend| |by apply Hend].
  pose proof HL as (_ & Hlen & Hlast & Hstack).
  pose proof (Parse_step_spec lines (ps_i st) (ps_stack st)
                (ps_stack_levels st) h Hlt Hlen Hlast Hstack) as Hpost.
  assert (Est : ParseState (ps_i st) (ps_stack st) (ps_stack_levels st) = st)
    by by destruct st.
  rewrite Est in Hpost.
  destruct (Parse_step lines st h) as [[st1|e] h1] eqn:E1.
  2:{ destruct Hpost as (? & ? & ? & ? & ? & ? & ? & ? & ? & ? & ? & ? & ?).
      done. }
  destruct (step_post_loop_state lines st h st1 h1 HL Hpost) as [HL1 Hprog].
  pose proof (Hstep st h st1 h1 HI HL Hlt Hpost E1) as HI1.
  rewrite (bind_Ok _ _ _ _ _ E1).
  destruct (IH st1 h1 HI1 HL1 ltac:(lia)) as (st2 & h2 & E2 & HI2 & HL2 & Hend2).
  by exists st2, h2.
Qed.

Lemma blank_run_take lines : blank_run lines = take (length (blank_run lines)) lines.
Proof. unfold blank_run. apply span_take. Qed.

(** [Parse] up to its main loop: the child list is emptied, the leading
    blank lines are collected, and the loop starts after them with the
    document alone on the stack. *)
Lemma Parse_run_start (h : heap) d nd f markdown :
  h !! d = Some nd → fields nd = CMarkdownDocument f →
  let lines := splitlines markdown in
  let blanks := blank_run lines in
  Parse_run d markdown h
  = Parse_loop (length lines) lines (ParseState (length blanks) [d] [0])
      (<[d := doc_node nd f (concat blanks)]> h).
Proof.
  intros E Ef lines blanks. unfold Parse_run.
  pose proof (lookup_lt_Some _ _ _ E) as Hd.
  rewrite (bind_Ok _ _ _ _ _ (modify_node_Ok _ _ _ _ E)).
  rewrite (alter_insert _ _ _ _ E).
  assert (E1 : <[d := with_children [] nd]> h !! d
               = Some (with_children [] nd)).
  { by apply list_lookup_insert_eq. }
  rewrite (bind_Ok _ _ _ _ _ (modify_node_Ok _ _ _ _ E1)).
  rewrite (alter_insert _ _ _ _ E1), list_insert_insert_eq.
  assert (E2 : set_leading_trivia (λ _, []) (with_children [] nd)
               = doc_node nd f []).
  { unfold set_leading_trivia. simpl. by rewrite Ef. }
  rewrite E2.
  assert (E3 : <[d := doc_node nd f []]> h !! d = Some (doc_node nd f [])).
  { by apply list_lookup_insert_eq. }
  fold lines. fold blanks.
  rewrite (bind_Ok _ _ _ _ _ (for_each_leading d nd f blanks [] _ E3)).
  by rewrite list_insert_insert_eq.
Qed.

(** The root of a new document with the leading trivia [t]. *)
Definition new_root (t : str) : MarkdownNode :=
  Node Root None [] false (CMarkdownDocument (MarkdownDocumentFields t None)).

(** Building a document: the root is a new object, and unless the text is
    empty the main loop of [Parse] runs on it. *)
Lemma FromString_loop s (h : heap) :
  let lines := splitlines s in
  let blanks := blank_run lines in
  FromString s h =
    if bool_decide (s = []) then (Ok (length h), h ++ [new_root []])
    else match Parse_loop (length lines) lines
                 (ParseState (length blanks) [length h] [0])
                 (h ++ [new_root (concat blanks)]) with
         | (Ok _, h') => (Ok (length h), h')
         | (Raise e, h') => (Raise e, h')
         end.
Proof.
  intros lines blanks. rewrite FromString_unfold. cbv zeta.
  change (Node Root None [] false
            (CMarkdownDocument (MarkdownDocumentFields [] None)))
    with (new_root []).
  case_bool_decide; [done|].
  rewrite (Parse_run_start (h ++ [new_root []]) (length h) (new_root [])
             (MarkdownDocumentFields [] None) s (lookup_new _ _) eq_refl).
  fold lines. fold blanks.
  replace (<[length h := doc_node (new_root [])
                           (MarkdownDocumentFields [] None) (concat blanks)]>
             (h ++ [new_root []]))
    with (h ++ [new_root (concat blanks)]); [done|].
  rewrite insert_app_r_alt, Nat.sub_diag by lia. done.
Qed.

(** *** The shape of the tree *)

(** The level of a node that can be on the stack of open headings. *)
Definition node_level (nd : MarkdownNode) : option nat :=
  match fields nd with
  | CMarkdownDocument _ => Some 0
  | CHeadingNode f => Some (Level f)
  | _ => None
  end.

Definition is_block (nd : MarkdownNode) : Prop :=
  match fields nd with
  | CHeadingNode _ | CParagraphNode _ | CCodeBlockNode _ => True
  | _ => False
  end.

Definition is_inline (nd : MarkdownNode) : Prop :=
  match fields nd with
  | CTextNode _ | CLinkNode _ => True
  | _ => False
  end.

(** What holds between a node [p] and a node [c] of its child list: the
    child is a later object and names [p] as its parent; a document and a
    heading hold blocks, and a heading under a heading has a greater level;
    a paragraph holds texts and links; no other node has children. *)
Definition child_ok (p : ref) (ndp : MarkdownNode) (c : ref)
    (ndc : MarkdownNode) : Prop :=
  p < c ∧ _parent ndc = Some p ∧
  match fields ndp with
  | CMarkdownDocument _ => is_block ndc
  | CHeadingNode f =>
      is_block ndc ∧ ∀ lc, node_level ndc = Some lc → Level f < lc
  | CParagraphNode _ => is_inline ndc
  | _ => False
  end.

(** The objects from [d] on form a tree with the root [d]. *)
Definition tree (d : ref) (h : heap) : Prop :=
  (∀ p ndp c, d ≤ p → h !! p = Some ndp → c ∈ _children ndp →
     ∃ ndc, h !! c = Some ndc ∧ child_ok p ndp c ndc)
  ∧ (∀ p ndp, d ≤ p → h !! p = Some ndp → NoDup (_children ndp))
  ∧ (∀ c ndc, d < c → h !! c = Some ndc →
       ∃ p ndp, _parent ndc = Some p ∧ d ≤ p ∧ h !! p = Some ndp
                ∧ c ∈ _children ndp).

(** [nd'] is [nd] with, at most, another child list. *)
Definition same_node (nd nd' : MarkdownNode) : Prop :=
  fields nd' = fields nd ∧ _parent nd' = _parent nd
  ∧ NType nd' = NType nd ∧ _dirty_self nd' = _dirty_self nd.

Lemma child_ok_same p ndp ndp' c ndc ndc' :
  same_node ndp ndp' → same_node ndc ndc' →
  child_ok p ndp c ndc → child_ok p ndp' c ndc'.
Proof.
  intros (Ef & _) (Ef' & Ep' & _) (Hlt & Hp & Hk).
  unfold child_ok, is_block, is_inline, node_level in *.
  rewrite Ef, Ef', Ep'. done.
Qed.

Lemma attach_old top B (h : heap) r nd :
  h !! r = Some nd →
  ∃ nd', attach top B h !! r = Some nd' ∧ same_node nd nd'
         ∧ ((r ≠ top ∧ _children nd' = _children nd)
            ∨ (r = top ∧ _children nd' = _children nd ++ [length h])).
Proof.
  intros E. pose proof (lookup_lt_Some _ _ _ E) as Hr.
  destruct (decide (r = top)) as [->|Hne].
  - exists (add_child (length h) nd).
    split; [by apply attach_lookup_top|]. split; [done|]. by right.
  - exists nd. split; [by rewrite attach_lookup_old|]. split; [done|].
    by left.
Qed.

Lemma attach_inv top B (h : heap) r nd' :
  attach top B h !! r = Some nd' →
  (∃ nd, h !! r = Some nd ∧ same_node nd nd'
         ∧ ((r ≠ top ∧ _children nd' = _children nd)
            ∨ (r = top ∧ _children nd' = _children nd ++ [length h])))
  ∨ (length h ≤ r ∧ B !! (r - length h) = Some nd').
Proof.
  intros E. destruct (decide (r < length h)) as [Hr|Hr].
  - left. destruct (lookup_lt_is_Some_2 h r Hr) as [nd End].
    exists nd. split; [done|].
    destruct (attach_old top B h r nd End) as (nd2 & E2 & H2).
    rewrite E in E2. by injection E2 as <-.
  - right. split; [lia|].
    replace r with (length h + (r - length h)) in E by lia.
    by rewrite attach_lookup_new in E.
Qed.

(** A block attached under the top of the stack keeps the tree a tree. *)
Lemma tree_attach d top ndt l0 root leaves (h : heap) :
  tree d h → d ≤ top → h !! top = Some ndt → node_level ndt = Some l0 →
  _parent root = Some top → is_block root →
  (∀ lc, node_level root = Some lc → l0 < lc) →
  _children root = seq (S (length h)) (length leaves) →
  Forall (λ nd, is_inline nd ∧ _parent nd = Some (length h)
                ∧ _children nd = []) leaves →
  (leaves ≠ [] → ∃ f, fields root = CParagraphNode f) →
  tree d (attach top (root :: leaves) h).
Proof.
  intros (T1 & T2 & T3) Hd Et Hl0 Hrp Hrb Hrl Hrc Hleaves Hpara.
  pose proof (lookup_lt_Some _ _ _ Et) as Htop.
  set (n := length h) in *.
  set (h' := attach top (root :: leaves) h).
  assert (Eroot : h' !! n = Some root).
  { unfold h', n. rewrite <- (Nat.add_0_r (length h)).
    by rewrite attach_lookup_new. }
  assert (Eleaf : ∀ j nd, leaves !! j = Some nd → h' !! (S n + j) = Some nd).
  { intros j nd Ej. unfold h', n.
    replace (S (length h) + j) with (length h + S j) by lia.
    by rewrite attach_lookup_new. }
  assert (Hold : ∀ p ndp c, d ≤ p → h !! p = Some ndp → c ∈ _children ndp →
                 c < n).
  { intros p ndp c Hp Ep Hc. destruct (T1 p ndp c Hp Ep Hc) as (ndc & Ec & _).
    by apply lookup_lt_Some in Ec. }
  split; [|split].
  - intros p ndp' c Hp Ep' Hc.
    destruct (attach_inv _ _ _ _ _ Ep')
      as [(ndp & Ep & Hsame & Hch)|(Hge & EB)].
    + assert (Hcases : c ∈ _children ndp ∨ (p = top ∧ c = n)).
      { destruct Hch as [[_ Ech]|[-> Ech]]; rewrite Ech in Hc; [by left|].
        apply elem_of_app in Hc as [Hc|Hc]; [by left|].
        apply list_elem_of_singleton in Hc. by right. }
      destruct Hcases as [Hc0|[-> ->]].
      * destruct (T1 p ndp c Hp Ep Hc0) as (ndc & Ec & Hok).
        destruct (attach_old top (root :: leaves) h c ndc Ec)
          as (ndc' & Ec' & Hsame' & _).
        exists ndc'. split; [exact Ec'|]. by eapply child_ok_same.
      * exists root. split; [exact Eroot|].
        rewrite Et in Ep. injection Ep as <-.
        destruct Hsame as (Ef & _).
        unfold child_ok. rewrite Ef. split; [done|]. split; [done|].
        unfold node_level in Hl0.
        destruct (fields ndt) as [| | | |f| |f]; try done.
        injection Hl0 as <-. by split.
    + destruct (decide (p = n)) as [->|Hpn].
      * rewrite Nat.sub_diag in EB. injection EB as <-.
        rewrite Hrc in Hc. apply elem_of_seq in Hc as [Hc1 Hc2].
        destruct (lookup_lt_is_Some_2 leaves (c - S n)) as [ndc Endc]; [lia|].
        exists ndc. split.
        { replace c with (S n + (c - S n)) by lia. by apply Eleaf. }
        rewrite Forall_forall in Hleaves.
        destruct (Hleaves ndc) as (Hin & Hpar & _).
        { by eapply list_elem_of_lookup_2. }
        destruct Hpara as [f Ef]; [by intros ->|].
        unfold child_ok. rewrite Ef. split; [lia|]. by split.
      * destruct (p - length h) as [|j] eqn:Ej; [unfold n in *; lia|].
        simpl in EB. rewrite Forall_forall in Hleaves.
        destruct (Hleaves ndp') as (_ & _ & Hnil).
        { by eapply list_elem_of_lookup_2. }
        rewrite Hnil in Hc. by apply elem_of_nil in Hc.
  - intros p ndp' Hp Ep'.
    destruct (attach_inv _ _ _ _ _ Ep')
      as [(ndp & Ep & Hsame & Hch)|(Hge & EB)].
    + destruct Hch as [[_ ->]|[-> ->]]; [by eapply T2|].
      apply NoDup_app. split; [by eapply T2|].
      split; [|apply NoDup_singleton].
      intros x Hx Hx'. apply list_elem_of_singleton in Hx' as ->.
      pose proof (Hold _ _ _ Hp Ep Hx). unfold n in *. lia.
    + destruct (p - length h) as [|j] eqn:Ej.
      * injection EB as <-. rewrite Hrc. apply NoDup_seq.
      * simpl in EB. rewrite Forall_forall in Hleaves.
        destruct (Hleaves ndp') as (_ & _ & ->).
        { by eapply list_elem_of_lookup_2. }
        apply NoDup_nil_2.
  - intros c ndc' Hc Ec'.
    destruct (attach_inv _ _ _ _ _ Ec')
      as [(ndc & Ec & Hsame & _)|(Hge & EB)].
    + destruct (T3 c ndc Hc Ec) as (p & ndp & Epar & Hp & Ep & Hin).
      destruct (attach_old top (root :: leaves) h p ndp Ep)
        as (ndp' & Ep' & _ & Hch).
      exists p, ndp'. destruct Hsame as (_ & -> & _).
      split; [done|]. split; [done|]. split; [done|].
      destruct Hch as [[_ ->]|[_ ->]]; [done|].
      apply elem_of_app. by left.
    + destruct (c - length h) as [|j] eqn:Ej.
      * injection EB as <-.
        destruct (attach_old top (root :: leaves) h top ndt Et)
          as (ndt' & Et' & _ & Hch).
        exists top, ndt'. split; [done|]. split; [done|]. split; [done|].
        destruct Hch as [[? _]|[_ ->]]; [done|].
        apply elem_of_app. right. apply list_elem_of_singleton.
        unfold n in *. lia.
      * simpl in EB. rewrite Forall_forall in Hleaves.
        destruct (Hleaves ndc') as (_ & Hpar & _).
        { by eapply list_elem_of_lookup_2. }
        exists n, root. split; [done|]. split; [unfold n; lia|].
        split; [done|]. rewrite Hrc. apply elem_of_seq.
        apply lookup_lt_Some in EB. unfold n in *. lia.
Qed.

(** The stack of open headings: each entry is at or after the root [d] and
    has the level the stack of levels gives it. *)
Definition stack_ok (d : ref) (h : heap) (stack : list ref)
    (levels : list nat) : Prop :=
  Forall2 (λ r l, d ≤ r ∧ ∃ nd, h !! r = Some nd ∧ node_level nd = Some l)
    stack levels.

(** Levels that grow strictly from the bottom of the stack to its top (the
    head). *)
Fixpoint decreasing (l : list nat) : Prop :=
  match l with
  | a :: (b :: _) as r => b < a ∧ decreasing r
  | _ => True
  end.

Lemma decreasing_drop k : ∀ l, decreasing l → decreasing (drop k l).
Proof.
  induction k as [|k IH]; intros l Hl; [by rewrite drop_0|].
  destruct l as [|a l]; [done|]. simpl. apply IH.
  destruct l; [done|]. by destruct Hl.
Qed.

Lemma stack_ok_attach d top B (h : heap) stack levels :
  stack_ok d h stack levels → stack_ok d (attach top B h) stack levels.
Proof.
  intros H. eapply Forall2_impl; [exact H|].
  intros r l (Hr & nd & E & Hl). split; [done|].
  destruct (attach_old top B h r nd E) as (nd' & E' & (Ef & _) & _).
  exists nd'. split; [done|]. unfold node_level in *. by rewrite Ef.
Qed.

(** The first node of a block and the leaves under it. *)
Lemma block_nodes_shape top n b :
  block_ok b →
  ∃ root leaves,
    block_nodes top n b = root :: leaves
    ∧ _parent root = Some top ∧ is_block root
    ∧ node_level root = block_level b
    ∧ _children root = seq (S n) (length leaves)
    ∧ Forall (λ nd, is_inline nd ∧ _parent nd = Some n ∧ _children nd = [])
        leaves
    ∧ (leaves ≠ [] → ∃ f, fields root = CParagraphNode f).
Proof.
  destruct b as [f|t f|f nds]; simpl; intros Hok.
  - eexists _, []. split; [done|]. do 4 (split; [done|]).
    split; [constructor|done].
  - eexists _, []. split; [done|]. do 4 (split; [done|]).
    split; [constructor|done].
  - eexists _, _. split; [done|]. rewrite length_fmap.
    do 4 (split; [done|]). split.
    + rewrite Forall_fmap. destruct Hok as [Hl _].
      eapply Forall_impl; [exact Hl|]. intros nd (Hc & _ & Hf). simpl.
      split; [|done]. unfold is_inline. simpl.
      by destruct (fields nd).
    + intros _. by eexists.
Qed.

(** The invariant of the main loop for the shape of the tree. *)
Definition Shape (d : ref) (st : parse_state) (h : heap) : Prop :=
  tree d h ∧ parsed_from d h
  ∧ stack_ok d h (ps_stack st) (ps_stack_levels st)
  ∧ decreasing (ps_stack_levels st).

Lemma Shape_step lines d st (h : heap) st' h' :
  Shape d st h → loop_state lines st h → ps_i st < length lines →
  step_post lines (ps_i st) (ps_stack st) (ps_stack_levels st) h
    (Ok st', h') →
  Parse_step lines st h = (Ok st', h') →
  Shape d st' h'.
Proof.
  destruct st as [i stack levels]. cbn [ps_i ps_stack ps_stack_levels].
  intros (HT & HP & HS & HD) (_ & Hlen & Hlast & _) _
    (b & i' & s' & l' & top & _ & _ & _ & Hok & Hpop & Etop & Htop & E)
    Estep.
  assert (HP' : parsed_from d h').
  { pose proof (builds_Parse_step lines (ParseState i stack levels) d h HP)
      as H. by rewrite Estep in H. }
  injection E as -> ->. unfold Shape. cbn [ps_i ps_stack ps_stack_levels].
  assert (Hs' : ∃ below l0 ls,
    s' = top :: below ∧ l' = l0 :: ls
    ∧ stack_ok d h s' l' ∧ decreasing l'
    ∧ ∀ level, block_level b = Some level → l0 < level).
  { destruct (block_level b) as [level|].
    - destruct Hpop as [Hl1 Epop].
      destruct (pop_levels_drop level Hl1 levels stack Hlen Hlast)
        as (k & top0 & below & l0 & ls & E2 & _ & Es & El & Hlt).
      rewrite Epop in E2. injection E2 as -> ->.
      rewrite Es in Etop. injection Etop as ->.
      exists below, l0, ls. split; [done|]. split; [done|].
      split; [by apply Forall2_drop|]. split; [by apply decreasing_drop|].
      by intros ? [= <-].
    - destruct Hpop as [-> ->].
      destruct stack as [|top0 below]; [done|]. injection Etop as ->.
      destruct levels as [|l0 ls]; [done|].
      exists below, l0, ls. repeat split; auto. done. }
  destruct Hs' as (below & l0 & ls & -> & -> & HS' & HD' & Hlv).
  pose proof (Forall2_cons_1 _ _ _ _ _ HS') as [(Hdtop & ndt & Et & Hl0) _].
  destruct (block_nodes_shape top (length h) b Hok)
    as (root & leaves & EB & Hrp & Hrb & Hrl & Hrc & Hleaves & Hpara).
  rewrite EB in *.
  assert (HT' : tree d (attach top (root :: leaves) h)).
  { eapply tree_attach; eauto. intros lc Hlc. apply Hlv. congruence. }
  split; [done|]. split; [done|].
  pose proof (stack_ok_attach d top (root :: leaves) h _ _ HS') as HS''.
  destruct (block_level b) as [level|] eqn:Eb.
  - split.
    + apply Forall2_cons. split; [|done]. split; [lia|].
      exists root. split; [|done].
      rewrite <- (Nat.add_0_r (length h)). by rewrite attach_lookup_new.
    + split; [by apply Hlv|done].
  - done.
Qed.

(** The state in which the main loop starts on a new document. *)
Lemma new_document_loop_state lines (h : heap) t :
  loop_state lines (ParseState (length (blank_run lines)) [length h] [0])
    (h ++ [new_root t]).
Proof.
  split; [apply span_length|]. split; [done|]. split; [done|].
  apply Forall_singleton. rewrite length_app. simpl. lia.
Qed.

Lemma new_document_Shape (h : heap) t i :
  Shape (length h) (ParseState i [length h] [0]) (h ++ [new_root t]).
Proof.
  assert (Hl : ∀ r nd, length h ≤ r → (h ++ [new_root t]) !! r = Some nd →
               r = length h ∧ nd = new_root t).
  { intros r nd Hr E. apply lookup_app_Some in E as [E|[_ E]].
    - apply lookup_lt_Some in E. lia.
    - apply list_lookup_singleton_Some in E as [? <-]. split; [lia|done]. }
  split; [|split; [|split]].
  - split; [|split].
    + intros p ndp c Hp Ep Hc. destruct (Hl p ndp Hp Ep) as [_ ->].
      by apply elem_of_nil in Hc.
    + intros p ndp Hp Ep. destruct (Hl p ndp Hp Ep) as [_ ->].
      apply NoDup_nil_2.
    + intros c ndc Hc Ec. destruct (Hl c ndc) as [? _]; [lia|done|lia].
  - intros r nd Hr E. destruct (Hl r nd Hr E) as [_ ->]. by split.
  - apply Forall2_cons. split; [|constructor]. split; [done|].
    exists (new_root t). split; [apply lookup_new|done].
  - done.
Qed.

(** A document built from a text: the loop invariant at the end. *)
Lemma FromString_Shape (h : heap) (s : str) :
  ∃ st h', FromString s h = (Ok (length h), h')
           ∧ length h < length h' ∧ Shape (length h) st h'.
Proof.
  rewrite FromString_loop. cbv zeta. case_bool_decide as Hs.
  - exists (ParseState 0 [length h] [0]), (h ++ [new_root []]).
    split; [done|]. split; [rewrite length_app; simpl; lia|].
    apply new_document_Shape.
  - set (lines := splitlines s).
    destruct (Parse_loop_invariant (Shape (length h)) lines
                (Shape_step lines (length h)) (length lines)
                (ParseState (length (blank_run lines)) [length h] [0])
                (h ++ [new_root (concat (blank_run lines))]))
      as (st' & h' & E & HS & HL & _).
    + apply new_document_Shape.
    + apply new_document_loop_state.
    + simpl. lia.
    + rewrite E. exists st', h'. split; [done|]. split; [|done].
      destruct HS as (_ & _ & HS & _). destruct HL as (_ & Hlen & Hlast & _).
      destruct (stack_top_nonempty _ _ Hlen Hlast) as (top & _ & Hin).
      unfold stack_ok in HS. rewrite Forall2_lookup in HS.
      apply list_elem_of_lookup_1 in Hin as [j Ej]. specialize (HS j).
      rewrite Ej in HS. inversion HS as [x y (Hx & nd & End & _) Ex Ey|].
      apply lookup_lt_Some in End. lia.
Qed.

(** The root of a document built from a text is a document object
    without parent. *)
Lemma FromString_root (h : heap) (s : str) :
  ∃ h' root f,
    FromString s h = (Ok (length h), h')
    ∧ h' !! length h = Some root
    ∧ fields root = CMarkdownDocument f ∧ _parent root = None.
Proof.
  rewrite FromString_loop. cbv zeta. case_bool_decide as Hs.
  - eexists _, (new_root []), _. split; [done|].
    split; [apply lookup_new|done].
  - set (lines := splitlines s).
    destruct (Parse_loop_invariant
                (λ _ h1, ∃ nd f, h1 !! length h = Some nd
                                 ∧ fields nd = CMarkdownDocument f
                                 ∧ _parent nd = None) lines)
      with (fuel := length lines)
           (st := ParseState (length (blank_run lines)) [length h] [0])
           (h := h ++ [new_root (concat (blank_run lines))])
      as (st' & h2 & E2 & (nd & f & End & Ef & Epar) & _).
    + intros st0 h0 st1 h1 (nd & f & End & Ef & Epar) _ _
        (b & i' & s' & l' & top & _ & _ & _ & _ & _ & _ & _ & Eres) _.
      injection Eres as _ ->.
      destruct (attach_old top (block_nodes top (length h0) b) h0 _ _ End)
        as (nd' & End' & (Ef' & Epar' & _) & _).
      exists nd', f. split; [done|]. split; congruence.
    + eexists (new_root _), _. split; [apply lookup_new|done].
    + apply new_document_loop_state.
    + simpl. lia.
    + rewrite E2. by exists h2, nd, f.
Qed.

(** What the child lists of a tree of parsed nodes hold. *)
Lemma tree_children d (h : heap) :
  tree d h →
  ∀ p ndp c, d ≤ p → h !! p = Some ndp → c ∈ _children ndp →
    ∃ ndc, h !! c = Some ndc ∧
      match fields ndp with
      | CMarkdownDocument _ => is_block ndc
      | CHeadingNode f =>
          is_block ndc ∧ ∀ g, fields ndc = CHeadingNode g → Level f < Level g
      | CParagraphNode _ => is_inline ndc ∧ _children ndc = []
      | _ => False
      end.
Proof.
  intros (T1 & _) p ndp c Hp Ep Hin.
  destruct (T1 p ndp c Hp Ep Hin) as (ndc & Ec & Hlt & Epar & Hk).
  exists ndc. split; [done|].
  destruct (fields ndp) as [| | | |f|f|f]; try done.
  - destruct Hk as [Hb Hl]. split; [done|]. intros g Eg. apply Hl.
    unfold node_level. by rewrite Eg.
  - split; [done|].
    destruct (_children ndc) as [|x xs] eqn:Ech; [done|]. exfalso.
    destruct (T1 c ndc x ltac:(lia) Ec) as (ndx & _ & _ & _ & Hx).
    { rewrite Ech. by left. }
    unfold is_inline in Hk. by destruct (fields ndc).
Qed.

(** In a tree of parsed nodes the root alone has the type Root. *)
Lemma tree_Root d (h : heap) root f :
  tree d h → parsed_from d h →
  h !! d = Some root → fields root = CMarkdownDocument f →
  ∀ r nd, d ≤ r → h !! r = Some nd → (NType nd = Root ↔ r = d).
Proof.
  intros HT HP Ed Ef r nd Hr Er.
  pose proof (HP r nd Hr Er) as (_ & Hnd & _). unfold node_type_ok in Hnd.
  split.
  - intros Ht. destruct (decide (r = d)) as [|Hne]; [done|]. exfalso.
    destruct HT as (T1 & T2 & T3).
    destruct (T3 r nd ltac:(lia) Er) as (p & ndp & _ & Hp & Ep & Hin).
    destruct (tree_children d h (conj T1 (conj T2 T3)) p ndp r Hp Ep Hin)
      as (nd' & Er' & Hk).
    rewrite Er in Er'. injection Er' as <-.
    unfold is_block, is_inline in Hk.
    destruct (fields ndp) as [| | | |f0|f0|f0]; try done;
      destruct (fields nd) as [|g|g|g|g|g|g]; try tauto; try congruence.
    + destruct (Level g) as [|[|[|[|[|[|[|]]]]]]]; simpl in Hnd; congruence.
    + destruct (ln_is_image g); congruence.
    + destruct (Level g) as [|[|[|[|[|[|[|]]]]]]]; simpl in Hnd; congruence.
  - intros ->. rewrite Ed in Er. injection Er as <-. by rewrite Ef in Hnd.
Qed.

(** In a document built from a text, every node other than the root is in
    the child list of its [Parent], once, and in no other child list; the
    root has no parent; a child is an object made after its parent, so no
    node is below itself. *)
Theorem parsed_document_is_a_tree (h : heap) (s : str) :
  ∃ d h',
    FromString s h = (Ok d, h') ∧ d = length h
    ∧ (∃ root, h' !! d = Some root ∧ _parent root = None)
    ∧ (∀ c ndc, d < c → h' !! c = Some ndc →
         ∃ p ndp, _parent ndc = Some p ∧ d ≤ p ∧ p < c
                  ∧ h' !! p = Some ndp ∧ c ∈ _children ndp)
    ∧ (∀ p ndp c, d ≤ p → h' !! p = Some ndp → c ∈ _children ndp →
         p < c ∧ ∃ ndc, h' !! c = Some ndc ∧ _parent ndc = Some p)
    ∧ (∀ p ndp, d ≤ p → h' !! p = Some ndp → NoDup (_children ndp)).
Proof.
  destruct (FromString_Shape h s)
    as (st & h' & E & Hlen & (T1 & T2 & T3) & HP & HS & _).
  destruct (FromString_root h s) as (h2 & root & f & E2 & Er & _ & Epar).
  rewrite E in E2. injection E2 as <-.
  exists (length h), h'. split; [done|]. split; [done|].
  split; [by exists root|]. split; [|split].
  - intros c ndc Hc Ec.
    destruct (T3 c ndc Hc Ec) as (p & ndp & Epar' & Hp & Ep & Hin).
    destruct (T1 p ndp c Hp Ep Hin) as (ndc' & _ & Hlt & _).
    exists p, ndp. auto.
  - intros p ndp c Hp Ep Hin.
    destruct (T1 p ndp c Hp Ep Hin) as (ndc & Ec & Hlt & Epar' & _).
    split; [done|]. by exists ndc.
  - exact T2.
Qed.

(** The types the parser gives to nodes. *)
Definition parser_types : list NodeType :=
  [Root; Heading1; Heading2; Heading3; Heading4; Heading5; Heading6;
   Paragraph; Text; Link; Image; CodeBlock].

Lemma parsed_node_type nd : parsed_node nd → NType nd ∈ parser_types.
Proof.
  intros (_ & H & _). unfold parser_types, node_type_ok in H |- *.
  destruct (fields nd) as [|f|f|f|f|f|f]; try done.
  - rewrite H. repeat (first [by left | right]).
  - rewrite H. destruct (ln_is_image f); repeat (first [by left | right]).
  - rewrite H. repeat (first [by left | right]).
  - destruct (Level f) as [|[|[|[|[|[|[|]]]]]]]; try done;
      injection H as <-; repeat (first [by left | right]).
  - rewrite H. repeat (first [by left | right]).
  - rewrite H. repeat (first [by left | right]).
Qed.

(** In a document built from a text, the children of the document and of
    a heading are headings, paragraphs and code blocks, and a heading
    under a heading has a greater level; the children of a paragraph are
    texts, links and images, which have no children; no other node has
    children.  Every node is clean and has the type of its class, the type
    of a heading is the one of its level, the root alone has the type
    Root, and the types BlockQuote, List, ListItem and Raw do not occur.
    The fields of every node spell the text it was made from: the parts
    of a text, of a link, of a heading line and of the opening line of a
    code block concatenate to the raw text kept for them, the current body
    of a code block is its original body, and the parts of its closing
    line spell that line when it matches the fence pattern. *)
Theorem parsed_document_nesting (h : heap) (s : str) :
  ∃ d h',
    FromString s h = (Ok d, h') ∧ d = length h
    ∧ (∀ r nd, d ≤ r → h' !! r = Some nd →
         parsed_node nd ∧ NType nd ∈ parser_types
         ∧ (NType nd = Root ↔ r = d))
    ∧ (∀ p ndp c, d ≤ p → h' !! p = Some ndp → c ∈ _children ndp →
         ∃ ndc, h' !! c = Some ndc ∧
           match fields ndp with
           | CMarkdownDocument _ => is_block ndc
           | CHeadingNode f =>
               is_block ndc
               ∧ ∀ g, fields ndc = CHeadingNode g → Level f < Level g
           | CParagraphNode _ => is_inline ndc ∧ _children ndc = []
           | _ => False
           end).
Proof.
  destruct (FromString_Shape h s) as (st & h' & E & Hlen & HT & HP & _).
  destruct (FromString_root h s) as (h2 & root & f & E2 & Er & Ef & _).
  rewrite E in E2. injection E2 as <-.
  exists (length h), h'. split; [done|]. split; [done|].
  split; [|by apply tree_children].
  intros r nd Hr End. split; [by eapply HP|].
  split; [eapply parsed_node_type, HP; eauto|].
  by eapply tree_Root.
Qed.

Lemma py_any_all_false {A} (f : A → option bool) l :
  (∀ x, x ∈ l → f x = Some false) → py_any f l = Some false.
Proof.
  induction l as [|x l IH]; intros H; simpl; [done|].
  rewrite (H x) by by left. apply IH. intros y Hy. apply H. by right.
Qed.

(** In a tree of clean nodes [IsDirty] answers false, with a recursion no
    deeper than the number of objects after the node. *)
Lemma tree_clean d (h : heap) :
  tree d h → parsed_from d h →
  ∀ fuel r, d ≤ r → r < length h → length h - r ≤ fuel →
  IsDirty fuel h r = Some false.
Proof.
  intros (T1 & _) HP. induction fuel as [|fuel IH]; intros r Hd Hr Hfuel;
    [lia|].
  destruct (lookup_lt_is_Some_2 h r Hr) as [nd E]. simpl. rewrite E.
  destruct (HP r nd Hd E) as [-> _].
  apply py_any_all_false. intros c Hc.
  destruct (T1 r nd c Hd E Hc) as (ndc & Ec & Hlt & _).
  apply lookup_lt_Some in Ec. apply IH; lia.
Qed.

(** A document just built from a text is clean: [IsDirty] is false at the
    root and at every node of the document, and the recursion of [IsDirty]
    ends within the number of objects of the document. *)
Theorem parsed_document_clean (h : heap) (s : str) :
  ∃ d h',
    FromString s h = (Ok d, h') ∧ d = length h ∧ d < length h'
    ∧ ∀ fuel r, d ≤ r → r < length h' → length h' - d ≤ fuel →
        IsDirty fuel h' r = Some false.
Proof.
  destruct (FromString_Shape h s) as (st & h' & E & Hlen & HT & HP & _).
  exists (length h), h'. split; [done|]. split; [done|]. split; [done|].
  intros fuel r Hd Hr Hfuel. eapply tree_clean; eauto. lia.
Qed.

(** One round of the main loop keeps the stack of open headings in order:
    when the levels on the stack grow strictly from the document, at level
    0, to the top, the round returns without raising and the levels it
    leaves grow strictly again; the stack the loop starts with is the
    document alone. *)
Theorem open_heading_stack_increasing (lines : list str)
    (st : parse_state) (h : heap) :
  loop_state lines st h → ps_i st < length lines →
  decreasing (ps_stack_levels st) →
  decreasing [0]
  ∧ ∃ st' h',
      Parse_step lines st h = (Ok st', h')
      ∧ loop_state lines st' h'
      ∧ decreasing (ps_stack_levels st')
      ∧ ps_i st < ps_i st'.
Proof.
  intros HL Hlt HD. split; [done|].
  pose proof HL as (_ & Hlen & Hlast & Hstack).
  pose proof (Parse_step_spec lines (ps_i st) (ps_stack st)
                (ps_stack_levels st) h Hlt Hlen Hlast Hstack) as Hpost.
  assert (Est : ParseState (ps_i st) (ps_stack st) (ps_stack_levels st) = st)
    by by destruct st.
  rewrite Est in Hpost.
  destruct (Parse_step lines st h) as [[st1|e] h1] eqn:E1.
  2:{ destruct Hpost as (? & ? & ? & ? & ? & ? & ? & ? & ? & ? & ? & ? & ?).
      done. }
  destruct (step_post_loop_state lines st h st1 h1 HL Hpost) as [HL1 Hprog].
  exists st1, h1. split; [done|]. split; [done|]. split; [|done].
  destruct Hpost as (b & i' & s' & l' & top & _ & _ & _ & _ & Hpop & _ & _ & E).
  injection E as -> _. cbn [ps_stack_levels].
  destruct (block_level b) as [level|].
  - destruct Hpop as [Hl1 Epop].
    destruct (pop_levels_drop level Hl1 _ _ Hlen Hlast)
      as (k & top0 & below & l0 & ls & E2 & _ & _ & El & Hl0).
    rewrite Epop in E2. injection E2 as _ ->.
    pose proof (decreasing_drop k _ HD) as HD'. rewrite El in *.
    by split.
  - by destruct Hpop as [_ ->].
Qed.

Lemma open_heading_stack_increasing_witness :
  ∃ st' h',
    Parse_step [py_lines ["# A"]; py_lines ["### C"]; py_lines ["## B"]]
      (ParseState 2 [2; 1; 0] [3; 1; 0])
      (FromString (py_lines ["# A"; "### C"]) []).2 = (Ok st', h')
    ∧ decreasing (ps_stack_levels st').
Proof.
  destruct (open_heading_stack_increasing
              [py_lines ["# A"]; py_lines ["### C"]; py_lines ["## B"]]
              (ParseState 2 [2; 1; 0] [3; 1; 0])
              (FromString (py_lines ["# A"; "### C"]) []).2)
    as (_ & st' & h' & E & _ & HD & _).
  - split; [simpl; lia|]. split; [done|]. split; [done|].
    vm_compute. repeat constructor.
  - simpl. lia.
  - simpl. lia.
  - by exists st', h'.
Defined.

(** ** [Walk] over a document: the order of the nodes *)

Lemma Walk_node fuel (H : heap) r nd ks :
  H !! r = Some nd → mapM (Walk fuel H) (_children nd) = Some ks →
  Walk (S fuel) H r = Some (r :: concat ks).
Proof. intros E Hks. simpl. rewrite E. simpl. by rewrite Hks. Qed.

(** [Walk] from [r] gives [l], in [H] and in every heap that [agree]s
    with it. *)
Definition walked (E : list ref) (H : heap) (r : ref) (l : list ref)
  : Prop :=
  ∃ F, ∀ (H' : heap) fuel,
    F ≤ fuel → agree E H H' → Walk fuel H' r = Some l.

Lemma walked_weaken E E' (H H' : heap) r l :
  walked E H r l →
  length H ≤ length H' → agree E H H' →
  (∀ x, x < length H → x ∈ E' → x ∈ E) →
  walked E' H' r l.
Proof.
  intros [F HF] Hlen Hag HE. exists F. intros H'' fuel Hfuel Hag'.
  apply HF; [done|]. intros x Hx HxE.
  rewrite <- (Hag x Hx HxE). apply Hag'; [lia|]. intros Hx'. by apply HxE, HE.
Qed.

Lemma walked_list E (H : heap) cs ks :
  Forall2 (walked E H) cs ks →
  ∃ F, ∀ (H' : heap) fuel,
    F ≤ fuel → agree E H H' → mapM (Walk fuel H') cs = Some ks.
Proof.
  induction 1 as [|c k cs ks [F HF] _ [F' IH]].
  - exists 0. intros. done.
  - exists (F `max` F'). intros H' fuel Hfuel Hag.
    apply mapM_Some. constructor.
    + apply HF; [lia|done].
    + apply mapM_Some, IH; [lia|done].
Qed.

(** A node of the stack of open headings, for [Walk]: [P] is the node and
    the nodes of its complete children. *)
Definition walk_open (E : list ref) (H : heap) (r : ref) (above : list ref)
    (P : list ref) : Prop :=
  ∃ nd cs ks,
    H !! r = Some nd
    ∧ _children nd = cs ++ above
    ∧ Forall2 (walked E H) cs ks
    ∧ P = r :: concat ks.

Fixpoint walk_chain (E : list ref) (H : heap) (above : list ref)
    (stack : list ref) (Ps : list (list ref)) : Prop :=
  match stack, Ps with
  | [], [] => True
  | r :: stack', P :: Ps' =>
      walk_open E H r above P ∧ walk_chain E H [r] stack' Ps'
  | _, _ => False
  end.

Lemma walk_chain_render E (H : heap) : ∀ stack Ps above sas d,
  walk_chain E H above stack Ps →
  last stack = Some d →
  (∃ F, ∀ fuel, F ≤ fuel → mapM (Walk fuel H) above = Some sas) →
  ∃ F, ∀ fuel, F ≤ fuel →
    Walk fuel H d = Some (concat (reverse Ps) ++ concat sas).
Proof.
  induction stack as [|r stack IH]; intros Ps above sas d Hch Hlast [Fa Ha];
    [done|].
  destruct Ps as [|P Ps]; [done|]. destruct Hch as [Hopen Hch].
  destruct Hopen as (nd & cs & ks & Hr & Hcs & Hfr & ->).
  destruct (walked_list _ _ _ _ Hfr) as [Fc Hc].
  assert (Hrender : ∀ fuel, S (Fa `max` Fc) ≤ fuel →
            Walk fuel H r = Some ((r :: concat ks) ++ concat sas)).
  { intros fuel Hfuel. destruct fuel as [|fuel]; [lia|].
    rewrite (Walk_node fuel H r nd (ks ++ sas) Hr).
    - by rewrite concat_app.
    - rewrite Hcs. apply mapM_app_Some.
      + apply Hc; [lia|apply agree_refl].
      + apply Ha. lia. }
  rewrite reverse_cons, concat_app. simpl concat at 2.
  rewrite app_nil_r, <- app_assoc.
  destruct stack as [|r' stack].
  - injection Hlast as <-. destruct Ps; [|done]. simpl in *.
    eexists. exact Hrender.
  - destruct (IH Ps [r] [(r :: concat ks) ++ concat sas] d Hch Hlast)
      as [F HF].
    { exists (S (Fa `max` Fc)). intros fuel Hfuel. simpl.
      by rewrite (Hrender fuel Hfuel). }
    exists F. intros fuel Hfuel. rewrite (HF fuel Hfuel). simpl.
    by rewrite app_nil_r.
Qed.

Lemma walk_chain_transfer E E' (H H' : heap) : ∀ stack Ps above,
  walk_chain E H above stack Ps →
  (∀ r, r ∈ stack → H' !! r = H !! r) →
  length H ≤ length H' → agree E H H' →
  (∀ x, x < length H → x ∈ E' → x ∈ E) →
  walk_chain E' H' above stack Ps.
Proof.
  induction stack as [|r stack IH]; intros Ps above Hch Hsame Hlen Hag HE;
    destruct Ps as [|P Ps]; try done.
  destruct Hch as [Hopen Hch]. split.
  - destruct Hopen as (nd & cs & ks & Hr & Hcs & Hfr & ->).
    exists nd, cs, ks. repeat split; auto.
    + rewrite Hsame; [done|]. apply elem_of_cons. by left.
    + eapply Forall2_impl; [exact Hfr|]. intros c k Hf.
      by eapply walked_weaken.
  - apply IH; auto. intros r' Hr'. apply Hsame, elem_of_cons. by right.
Qed.

Lemma walk_chain_attach top rest P Ps B (H : heap) R :
  walk_chain (top :: rest) H [] (top :: rest) (P :: Ps) →
  NoDup (top :: rest) → Forall (λ r, r < length H) (top :: rest) →
  walked (top :: rest) (attach top B H) (length H) R →
  walk_chain (top :: rest) (attach top B H) [] (top :: rest)
    ((P ++ R) :: Ps).
Proof.
  intros [Hopen Hch] Hnd Hlt Hfr.
  apply NoDup_cons in Hnd as [Hnotin _].
  apply Forall_cons in Hlt as [Htop Hrest].
  assert (Hag : agree (top :: rest) H (attach top B H)).
  { apply agree_attach, elem_of_cons. by left. }
  assert (Hlen : length H ≤ length (attach top B H)).
  { rewrite length_attach. lia. }
  split.
  - destruct Hopen as (nd & cs & ks & Hr & Hcs & Hfrs & ->).
    exists (add_child (length H) nd), (cs ++ [length H]), (ks ++ [R]).
    split; [by apply attach_lookup_top|].
    split; [simpl; by rewrite Hcs, !app_nil_r|].
    split.
    + apply Forall2_app; [|by constructor].
      eapply Forall2_impl; [exact Hfrs|]. intros c k Hf.
      by eapply walked_weaken.
    + rewrite concat_app. simpl. by rewrite app_nil_r.
  - eapply walk_chain_transfer; eauto.
    intros r Hr. apply attach_lookup_old.
    + rewrite Forall_forall in Hrest. by apply Hrest.
    + intros ->. done.
Qed.

Lemma walk_chain_push top rest P Ps nd (H : heap) :
  walk_chain (top :: rest) H [] (top :: rest) (P :: Ps) →
  NoDup (top :: rest) → Forall (λ r, r < length H) (top :: rest) →
  _children nd = [] →
  walk_chain (length H :: top :: rest) (attach top [nd] H) []
    (length H :: top :: rest) ([length H] :: P :: Ps).
Proof.
  intros [Hopen Hch] Hnd Hlt Hkids.
  apply NoDup_cons in Hnd as [Hnotin _].
  apply Forall_cons in Hlt as [Htop Hrest].
  assert (Hag : agree (top :: rest) H (attach top [nd] H)).
  { apply agree_attach, elem_of_cons. by left. }
  assert (Hlen : length H ≤ length (attach top [nd] H)).
  { rewrite length_attach. lia. }
  assert (HE : ∀ x, x < length H → x ∈ length H :: top :: rest →
                    x ∈ top :: rest).
  { intros x Hx Hin. apply elem_of_cons in Hin as [->|Hin]; [lia|done]. }
  split; [|split].
  - exists nd, [], []. repeat split.
    + pose proof (attach_lookup_new top [nd] H 0) as E.
      by rewrite Nat.add_0_r in E.
    + by rewrite Hkids.
    + constructor.
  - destruct Hopen as (nd' & cs & ks & Hr & Hcs & Hfrs & ->).
    exists (add_child (length H) nd'), cs, ks.
    split; [by apply attach_lookup_top|].
    split; [simpl; by rewrite Hcs, !app_nil_r|].
    split; [|done].
    eapply Forall2_impl; [exact Hfrs|]. intros c k Hf.
    by eapply walked_weaken.
  - eapply walk_chain_transfer; eauto.
    intros r Hr. apply attach_lookup_old.
    + rewrite Forall_forall in Hrest. by apply Hrest.
    + intros ->. done.
Qed.

Lemma walk_chain_pop r r' rest P P' Ps (H : heap) :
  walk_chain (r :: r' :: rest) H [] (r :: r' :: rest) (P :: P' :: Ps) →
  NoDup (r :: r' :: rest) → r < length H →
  walk_chain (r' :: rest) H [] (r' :: rest) ((P' ++ P) :: Ps).
Proof.
  intros (Hopen & Hopen' & Hch) Hnd Hr.
  apply NoDup_cons in Hnd as [Hnotin _].
  assert (HE : ∀ x, x < length H → x ∈ r' :: rest → x ∈ r :: r' :: rest).
  { intros x _ Hin. apply elem_of_cons. by right. }
  assert (Hfr : walked (r' :: rest) H r P).
  { destruct Hopen as (nd & cs & ks & Hnd & Hcs & Hfrs & ->).
    rewrite app_nil_r in Hcs.
    assert (Hfrs' : Forall2 (walked (r' :: rest) H) cs ks).
    { eapply Forall2_impl; [exact Hfrs|]. intros c k Hf.
      eapply walked_weaken; eauto using agree_refl. }
    destruct (walked_list _ _ _ _ Hfrs') as [F HF].
    exists (S F). intros H' fuel Hfuel Hag.
    destruct fuel as [|fuel]; [lia|].
    apply Walk_node with nd.
    - rewrite Hag; done.
    - rewrite Hcs. apply HF; [lia|done]. }
  split.
  - destruct Hopen' as (nd & cs & ks & Hnd & Hcs & Hfrs & ->).
    exists nd, (cs ++ [r]), (ks ++ [P]). repeat split; auto.
    + by rewrite app_nil_r.
    + apply Forall2_app; [|by constructor].
      eapply Forall2_impl; [exact Hfrs|]. intros c k Hf.
      eapply walked_weaken; eauto using agree_refl.
    + rewrite concat_app. simpl. by rewrite app_nil_r.
  - eapply walk_chain_transfer; eauto using agree_refl.
Qed.

Lemma concat_singletons {A} (l : list A) : concat ((λ c, [c]) <$> l) = l.
Proof. induction l as [|x l IH]; csimpl; [done|]. by rewrite IH. Qed.

(** A block just attached is complete: [Walk] gives its first node and
    then the leaves under it, in the order of their creation. *)
Lemma block_walked E top root leaves (h : heap) :
  Forall (λ x, x < length h) E →
  _children root = seq (S (length h)) (length leaves) →
  Forall (λ nd, _children nd = []) leaves →
  walked E (attach top (root :: leaves) h) (length h)
    (seq (length h) (S (length leaves))).
Proof.
  intros HE Hrc Hleaves. exists 2. intros H' fuel Hfuel Hag.
  destruct fuel as [|[|fuel]]; [lia..|].
  set (n := length h) in *.
  assert (Hlook : ∀ j nd, (root :: leaves) !! j = Some nd →
                          H' !! (n + j) = Some nd).
  { intros j nd Ej. rewrite Hag.
    - unfold n. by rewrite attach_lookup_new.
    - rewrite length_attach. apply lookup_lt_Some in Ej. unfold n. lia.
    - intros Hin. rewrite Forall_forall in HE. specialize (HE _ Hin).
      unfold n in *. lia. }
  rewrite (Walk_node _ H' n root ((λ c, [c]) <$> seq (S n) (length leaves))).
  - by rewrite concat_singletons.
  - specialize (Hlook 0 root eq_refl). by rewrite Nat.add_0_r in Hlook.
  - rewrite Hrc. apply mapM_Some. apply Forall2_fmap_r.
    apply Forall_Forall2_diag. apply Forall_forall. intros c Hc.
    apply elem_of_seq in Hc as [Hc1 Hc2].
    destruct (lookup_lt_is_Some_2 leaves (c - S n)) as [ndc Endc]; [lia|].
    assert (Ec : H' !! c = Some ndc).
    { replace c with (n + S (c - S n)) by lia. by apply Hlook. }
    rewrite Forall_forall in Hleaves.
    rewrite (Walk_node _ H' c ndc []); [done|done|].
    rewrite (Hleaves ndc); [done|]. by eapply list_elem_of_lookup_2.
Qed.

(** The stack, for [Walk]: the nodes walked so far are the objects from the
    root [d] on, in the order of their creation. *)
Definition walk_stack (d : ref) (h : heap) (s : list ref) : Prop :=
  NoDup s ∧ Forall (λ r, r < length h) s ∧ d ≤ length h
  ∧ ∃ Ps, walk_chain s h [] s Ps
          ∧ concat (reverse Ps) = seq d (length h - d).

Lemma walk_stack_pop d (h : heap) r r' s :
  walk_stack d h (r :: r' :: s) → walk_stack d h (r' :: s).
Proof.
  intros (Hnd & Hlt & Hd & Ps & Hch & Hout).
  destruct Ps as [|P [|P' Ps]]; try (by destruct Hch as (_ & [] & _) || done).
  { by destruct Hch as (_ & []). }
  split; [by apply NoDup_cons in Hnd as [_ ?]|].
  split; [by apply Forall_cons in Hlt as [_ ?]|].
  split; [done|].
  exists ((P' ++ P) :: Ps). split.
  - eapply walk_chain_pop; eauto. by apply Forall_cons in Hlt as [? _].
  - rewrite <- Hout, !reverse_cons, !concat_app. simpl.
    by rewrite !app_nil_r, <- app_assoc.
Qed.

Definition WalkInv (d : ref) (st : parse_state) (h : heap) : Prop :=
  walk_stack d h (ps_stack st) ∧ last (ps_stack st) = Some d.

Lemma WalkInv_step lines d st (h : heap) st' h' :
  WalkInv d st h → loop_state lines st h → ps_i st < length lines →
  step_post lines (ps_i st) (ps_stack st) (ps_stack_levels st) h
    (Ok st', h') →
  Parse_step lines st h = (Ok st', h') →
  WalkInv d st' h'.
Proof.
  destruct st as [i stack levels]. unfold WalkInv.
  cbn [ps_i ps_stack ps_stack_levels].
  intros [HW Hbot] (_ & Hlen & Hlast & _) _
    (b & i' & s' & l' & top & _ & _ & _ & Hok & Hpop & Etop & Htop & E) _.
  injection E as -> ->. cbn [ps_stack].
  assert (HW' : walk_stack d h s' ∧ last s' = Some d).
  { destruct (block_level b) as [level|].
    - destruct Hpop as [Hl1 Epop].
      destruct (pop_levels_ind (λ s _, walk_stack d h s) level Hl1
                  (λ r r' s _ _ _ _, walk_stack_pop d h r r' s)
                  stack levels Hlen Hlast HW)
        as (s2 & l2 & E2 & HW2 & _ & _ & Hbot2 & _).
      rewrite Epop in E2. injection E2 as <- <-. by rewrite Hbot2.
    - by destruct Hpop as [-> ->]. }
  destruct HW' as [HW' Hbot'].
  destruct s' as [|top' rest]; [done|]. injection Etop as ->.
  destruct HW' as (Hnd & Hlt & Hd & Ps & Hch & Hout).
  destruct Ps as [|P Ps]; [done|].
  destruct (block_nodes_shape top (length h) b Hok)
    as (root & leaves & EB & _ & _ & Hrl & Hrc & Hleaves & _).
  rewrite EB.
  assert (Hkids : Forall (λ nd, _children nd = []) leaves).
  { eapply Forall_impl; [exact Hleaves|]. by intros nd (_ & _ & ?). }
  assert (Hlen' : length (attach top (root :: leaves) h)
                  = length h + S (length leaves)).
  { by rewrite length_attach. }
  destruct (block_level b) as [level|] eqn:Eb.
  - (* a heading: it has no leaves, and is pushed *)
    assert (leaves = []) as ->.
    { destruct b; try done. simpl in EB. by injection EB as _ <-. }
    split; [|by rewrite last_cons, Hbot'].
    split.
    { apply NoDup_cons. split; [|done]. intros Hin.
      rewrite Forall_forall in Hlt. specialize (Hlt _ Hin). lia. }
    split.
    { apply Forall_cons. split; [rewrite Hlen'; lia|].
      eapply Forall_impl; [exact Hlt|]. intros x Hx. rewrite Hlen'.
      simpl in *. lia. }
    split; [rewrite Hlen'; lia|].
    exists ([length h] :: P :: Ps). split.
    + by apply walk_chain_push.
    + rewrite reverse_cons, concat_app, Hout, Hlen'. simpl.
      replace (length h + 1 - d) with ((length h - d) + 1) by lia.
      rewrite seq_app. simpl. do 2 f_equal. lia.
  - split; [|done]. split; [done|].
    split.
    { eapply Forall_impl; [exact Hlt|]. intros x Hx. rewrite Hlen'.
      simpl in *. lia. }
    split; [rewrite Hlen'; lia|].
    exists ((P ++ seq (length h) (S (length leaves))) :: Ps). split.
    + apply walk_chain_attach; [done..|]. by apply block_walked.
    + rewrite reverse_cons, concat_app in Hout.
      rewrite reverse_cons, concat_app. cbn [concat] in *.
      rewrite app_nil_r in *. rewrite app_assoc, Hout, Hlen'.
      replace (length h + S (length leaves) - d)
        with ((length h - d) + S (length leaves)) by lia.
      rewrite seq_app. do 2 f_equal. lia.
Qed.

Lemma new_document_WalkInv (h : heap) t i :
  WalkInv (length h) (ParseState i [length h] [0]) (h ++ [new_root t]).
Proof.
  split; [|done]. cbn [ps_stack].
  assert (Hlen : length (h ++ [new_root t]) = length h + 1).
  { by rewrite length_app. }
  split; [apply NoDup_singleton|].
  split; [apply Forall_singleton; lia|]. split; [lia|].
  exists [[length h]]. split.
  - split; [|done]. exists (new_root t), [], [].
    split; [apply lookup_new|]. split; [done|]. split; [constructor|done].
  - rewrite Hlen. replace (length h + 1 - length h) with 1 by lia. done.
Qed.

(** A document built from a text: [Walk] from the root. *)
Lemma FromString_Walk (h : heap) (s : str) :
  ∃ h', FromString s h = (Ok (length h), h')
        ∧ ∃ F, ∀ fuel, F ≤ fuel →
            Walk fuel h' (length h)
            = Some (seq (length h) (length h' - length h)).
Proof.
  assert (Hend : ∀ st (h' : heap), WalkInv (length h) st h' →
    ∃ F, ∀ fuel, F ≤ fuel →
      Walk fuel h' (length h) = Some (seq (length h) (length h' - length h))).
  { intros st h' [(_ & _ & _ & Ps & Hch & Hout) Hbot].
    destruct (walk_chain_render _ _ _ _ [] [] (length h) Hch Hbot)
      as [F HF]; [by exists 0|].
    exists F. intros fuel Hfuel. rewrite (HF fuel Hfuel).
    by rewrite Hout, app_nil_r. }
  rewrite FromString_loop. cbv zeta. case_bool_decide as Hs.
  - eexists. split; [done|]. eapply Hend, (new_document_WalkInv h [] 0).
  - set (lines := splitlines s).
    destruct (Parse_loop_invariant (WalkInv (length h)) lines
                (WalkInv_step lines (length h)) (length lines)
                (ParseState (length (blank_run lines)) [length h] [0])
                (h ++ [new_root (concat (blank_run lines))]))
      as (st' & h' & E & HW & _).
    + apply new_document_WalkInv.
    + apply new_document_loop_state.
    + simpl. lia.
    + rewrite E. exists h'. split; [done|]. by eapply Hend.
Qed.

(** [Walk] from the root of a document just built from a text gives every
    node of the document once, in the order in which the parser made them:
    the root, then each block followed by what is below it, a paragraph
    followed by its texts and links from left to right. *)
Theorem Walk_parsed_document (h : heap) (s : str) :
  ∃ d h',
    FromString s h = (Ok d, h') ∧ d = length h ∧ d < length h'
    ∧ ∃ F, ∀ fuel, F ≤ fuel →
        Walk fuel h' d = Some (seq d (length h' - d)).
Proof.
  destruct (FromString_Walk h s) as (h' & E & HF).
  destruct (FromString_Shape h s) as (st & h2 & E2 & Hlen & _).
  rewrite E in E2. injection E2 as <-.
  by exists (length h), h'.
Qed.


Lemma filter_none {A} (P : A → Prop) `{∀ x, Decision (P x)} (l : list A) :
  (∀ x, x ∈ l → ¬ P x) → filter P l = [].
Proof.
  induction l as [|x l IH]; intros Hl; [done|].
  rewrite filter_cons_False by (apply Hl; by left).
  apply IH. intros y Hy. apply Hl. by right.
Qed.

(** [FindAll] on a document just built from a text gives the nodes of the
    asked type in the order of their creation; for the types BlockQuote,
    List, ListItem and Raw, which the parser gives to no node, it gives
    nothing, and for Root it gives the document alone. *)
Theorem FindAll_parsed_document (h : heap) (s : str) :
  ∃ d h',
    FromString s h = (Ok d, h') ∧ d = length h
    ∧ ∃ F, ∀ fuel node_type, F ≤ fuel →
        FindAll fuel h' d node_type
        = Some (filter (λ r, NType <$> h' !! r = Some node_type)
                  (seq d (length h' - d)))
        ∧ (node_type ∉ parser_types → FindAll fuel h' d node_type = Some [])
        ∧ FindAll fuel h' d Root = Some [d].
Proof.
  destruct (FromString_Walk h s) as (h' & E & F & HF).
  destruct (FromString_Shape h s) as (st & h2 & E2 & Hlen & HT & HP & _).
  rewrite E in E2. injection E2 as <-.
  destruct (FromString_root h s) as (h2 & root & f & E2 & Er & Ef & _).
  rewrite E in E2. injection E2 as <-.
  exists (length h), h'. split; [done|]. split; [done|].
  exists F. intros fuel node_type Hfuel.
  assert (EF : ∀ t, FindAll fuel h' (length h) t
                    = Some (filter (λ r, NType <$> h' !! r = Some t)
                              (seq (length h) (length h' - length h)))).
  { intros t. unfold FindAll. by rewrite (HF fuel Hfuel). }
  split; [apply EF|]. split.
  - intros Hnot. rewrite EF. f_equal. apply filter_none.
    intros r Hr Ht. apply elem_of_seq in Hr as [Hr1 Hr2].
    destruct (h' !! r) as [nd|] eqn:End; [|done]. injection Ht as Ht.
    apply Hnot. rewrite <- Ht. eapply parsed_node_type, HP; eauto.
  - rewrite EF. f_equal.
    replace (length h' - length h) with (S (length h' - S (length h)))
      by lia.
    cbn [seq]. rewrite filter_cons_True.
    + f_equal. apply filter_none. intros r Hr Ht.
      apply elem_of_seq in Hr as [Hr1 Hr2].
      destruct (h' !! r) as [nd|] eqn:End; [|done]. injection Ht as Ht.
      pose proof (proj1 (tree_Root _ _ _ _ HT HP Er Ef r nd ltac:(lia) End) Ht).
      lia.
    + rewrite Er. simpl. f_equal.
      by apply (tree_Root _ _ _ _ HT HP Er Ef (length h) root).
Qed.

(** ** Appending a child to a parsed document *)

Lemma py_any_ext {A} (f g : A → option bool) l :
  (∀ x, x ∈ l → f x = g x) → py_any f l = py_any g l.
Proof.
  induction l as [|x l IH]; intros H; simpl; [done|].
  rewrite (H x) by by left. rewrite IH; [done|].
  intros y Hy. apply H. by right.
Qed.

Lemma mapM_ext_in {A B} (f g : A → option B) l :
  (∀ x, x ∈ l → f x = g x) → mapM f l = mapM g l.
Proof.
  induction l as [|x l IH]; intros H; simpl; [done|].
  rewrite (H x) by by left. rewrite IH; [done|].
  intros y Hy. apply H. by right.
Qed.

(** In a tree, what [IsDirty] and [ToMarkdown] return for a node after the
    root depends only on the objects after the root. *)
Lemma tree_frame d (h H2 : heap) :
  tree d h →
  (∀ x, d < x → x < length h → H2 !! x = h !! x) →
  ∀ fuel r, d < r → r < length h →
    IsDirty fuel H2 r = IsDirty fuel h r
    ∧ ToMarkdown fuel H2 r = ToMarkdown fuel h r.
Proof.
  intros (T1 & _) Hsame.
  induction fuel as [|fuel IH]; intros r Hd Hr; [done|].
  cbn [IsDirty ToMarkdown]. rewrite (Hsame r Hd Hr).
  destruct (h !! r) as [nd|] eqn:E; [|done].
  assert (Hkids : ∀ c, c ∈ _children nd →
    IsDirty fuel H2 c = IsDirty fuel h c
    ∧ ToMarkdown fuel H2 c = ToMarkdown fuel h c).
  { intros c Hc. destruct (T1 r nd c ltac:(lia) E Hc) as (ndc & Ec & Hlt & _).
    apply lookup_lt_Some in Ec. apply IH; lia. }
  assert (Hany : py_any (IsDirty fuel H2) (_children nd)
                 = py_any (IsDirty fuel h) (_children nd)).
  { apply py_any_ext. intros c Hc. by apply Hkids. }
  assert (Hjoin : join_map (ToMarkdown fuel H2) (_children nd)
                  = join_map (ToMarkdown fuel h) (_children nd)).
  { unfold join_map. f_equal. apply mapM_ext_in. intros c Hc.
    by apply Hkids. }
  destruct (IH r Hd Hr) as [Hself _].
  split; [by rewrite Hany|].
  cbn [mbind option_bind]. by rewrite Hany, Hjoin, Hself.
Qed.

(** [AddChild] on two objects that are not the same: the child gets the
    parent, the child list of the parent gets the child at its end, and
    the parent is marked dirty; no other object changes, so a child that
    was in another child list stays there. *)
Lemma AddChild_Ok self child (h : heap) ns nc :
  h !! self = Some ns → h !! child = Some nc → self ≠ child →
  AddChild self child h
  = (Ok tt,
     <[self := with_dirty_self true (add_child child ns)]>
       (<[child := with_parent (Some self) nc]> h)).
Proof.
  intros Es Ec Hne. unfold AddChild.
  rewrite (bind_Ok _ _ _ _ _ (modify_node_Ok _ _ _ _ Ec)).
  rewrite (alter_insert _ _ _ _ Ec).
  assert (Es1 : <[child := with_parent (Some self) nc]> h !! self = Some ns).
  { by rewrite list_lookup_insert_ne. }
  rewrite (bind_Ok _ _ _ _ _ (modify_node_Ok _ _ _ _ Es1)).
  rewrite (alter_insert _ _ _ _ Es1).
  assert (Es2 : <[self := add_child child ns]>
                  (<[child := with_parent (Some self) nc]> h) !! self
                = Some (add_child child ns)).
  { apply list_lookup_insert_eq. rewrite length_insert.
    by apply lookup_lt_Some in Es. }
  rewrite (MarkDirty_Ok _ _ _ Es2), (alter_insert _ _ _ _ Es2).
  by rewrite list_insert_insert_eq.
Qed.

(** A text node appended with [AddChild] to a document built from [s]: the
    document serialises to [s] followed by the raw text of the node, it is
    dirty, the node is the last of its children and has it as parent. *)
Theorem AddChild_appends (h : heap) (s raw : str) :
  ∃ d t h1 h2 h3,
    FromString s h = (Ok d, h1)
    ∧ new_TextNode raw None h1 = (Ok t, h2)
    ∧ AddChild d t h2 = (Ok tt, h3)
    ∧ (∃ root root' nt,
         h1 !! d = Some root ∧ h3 !! d = Some root' ∧ h3 !! t = Some nt
         ∧ _children root' = _children root ++ [t]
         ∧ _parent nt = Some d)
    ∧ ∃ F, ∀ fuel, F ≤ fuel →
        ToMarkdown fuel h3 d = Some (s ++ raw)
        ∧ IsDirty fuel h3 d = Some true.
Proof.
  destruct (FromString_render h s) as (h1 & E & Hlen & F & HF).
  destruct (FromString_Shape h s) as (st & h1' & E' & _ & HT & _).
  rewrite E in E'. injection E' as <-.
  destruct (FromString_root h s) as (h1' & root & f & E' & Er & Ef & _).
  rewrite E in E'. injection E' as <-.
  destruct (new_TextNode_spec raw None h1) as (tn & Et & Hleaf & Hraw & _).
  set (d := length h) in *. set (t := length h1) in *.
  assert (Er2 : (h1 ++ [tn]) !! d = Some root) by by apply lookup_app_l_Some.
  assert (Et2 : (h1 ++ [tn]) !! t = Some tn) by apply lookup_new.
  assert (Hne : d ≠ t) by (unfold d, t; lia).
  pose proof (AddChild_Ok d t _ root tn Er2 Et2 Hne) as Eadd.
  set (root' := with_dirty_self true (add_child t root)) in *.
  set (h3 := <[d := root']> (<[t := with_parent (Some d) tn]> (h1 ++ [tn])))
    in *.
  assert (Ed3 : h3 !! d = Some root').
  { unfold h3. apply list_lookup_insert_eq. rewrite length_insert.
    by apply lookup_lt_Some in Er2. }
  assert (Et3 : h3 !! t = Some (with_parent (Some d) tn)).
  { unfold h3. rewrite list_lookup_insert_ne by done.
    apply list_lookup_insert_eq. by apply lookup_lt_Some in Et2. }
  assert (Hsame : ∀ x, d < x → x < length h1 → h3 !! x = h1 !! x).
  { intros x Hx1 Hx2. unfold h3.
    rewrite !list_lookup_insert_ne by (unfold d, t in *; lia).
    by rewrite lookup_app_l. }
  exists d, t, h1, (h1 ++ [tn]), h3.
  split; [done|]. split; [done|]. split; [done|]. split.
  { exists root, root', (with_parent (Some d) tn). by repeat split. }
  exists (S (S (S F))). intros fuel Hfuel.
  destruct fuel as [|fuel]; [lia|]. split.
  2:{ simpl. by rewrite Ed3. }
  (* the children of the root, in the heap after parsing *)
  assert (Hs : ToMarkdown (S fuel) h1 d = Some s) by (apply HF; lia).
  cbn [ToMarkdown] in Hs. rewrite Er in Hs. cbn [mbind option_bind] in Hs.
  rewrite Ef in Hs. unfold join_map in Hs.
  destruct (mapM (ToMarkdown fuel h1) (_children root)) as [ks|] eqn:Eks;
    [|done].
  cbn [mbind option_bind] in Hs. injection Hs as Hs.
  assert (Ho : own_text root' = Some (_leading_trivia f)).
  { unfold own_text, root'. cbn [fields with_dirty_self add_child with_children].
    by rewrite Ef. }
  rewrite (ToMarkdown_container fuel h3 d root' _ (ks ++ [raw]) Ed3 Ho).
  { rewrite concat_app. simpl. by rewrite app_nil_r, app_assoc, Hs. }
  change (_children root') with (_children root ++ [t]).
  apply mapM_app_Some.
  - rewrite <- Eks. apply mapM_ext_in. intros c Hc.
    destruct HT as (T1 & T2 & T3).
    destruct (T1 d root c ltac:(done) Er Hc) as (ndc & Ec & Hlt & _).
    apply lookup_lt_Some in Ec.
    by apply (tree_frame d h1 h3 (conj T1 (conj T2 T3)) Hsame fuel c).
  - destruct fuel as [|[|fuel]]; [lia..|].
    assert (Hleaf' : leafish (with_parent (Some d) tn)).
    { by apply inline_leaf_leafish, inline_leaf_with_parent. }
    apply mapM_Some. constructor; [|constructor].
    rewrite (leafish_ToMarkdown fuel h3 t _ Et3 Hleaf'). f_equal.
    rewrite <- Hraw. apply (inline_leaf_text _ Hleaf).
Qed.

(** ** The leaves the inline scanner makes *)

Lemma find_index_first c s j :
  find_index c s = Some j → (c ∉ take j s).
Proof.
  revert j. induction s as [|x s IH]; intros j; simpl; [done|].
  destruct (N.eqb_spec x c) as [->|Hne].
  - intros [= <-]. simpl. apply not_elem_of_nil.
  - destruct (find_index c s) as [j'|]; [|done]. simpl. intros [= <-].
    simpl. intros [->|Hin]%elem_of_cons; [done|]. by apply (IH j').
Qed.

Lemma str_find_first s c start j :
  str_find s c start = Some j → (c ∉ slice s start j).
Proof.
  unfold str_find. destruct (find_index c (drop start s)) as [j'|] eqn:E;
    [|done].
  simpl. intros [= <-]. rewrite <- take_drop_slice.
  by apply find_index_first.
Qed.

(** The label of a link the scanner finds ends at the first closing
    bracket, and its target at the first closing parenthesis. *)
Lemma _try_parse_link_first raw pos is_image start end_ label href :
  _try_parse_link raw pos is_image = Ok (Some (start, end_, label, href)) →
  (93%N ∉ label) ∧ (41%N ∉ href).
Proof.
  unfold _try_parse_link.
  assert (Hc : ∀ ls,
    match str_find raw 93%N ls with
    | None => Ok None
    | Some close_bracket =>
        if length raw <=? close_bracket + 1 then Ok None
        else
          match py_index raw (close_bracket + 1) with
          | Raise e => Raise e
          | Ok c =>
              if negb (c =? 40)%N then Ok None
              else
                match str_find raw 41%N (close_bracket + 2) with
                | None => Ok None
                | Some close_paren =>
                    Ok (Some (pos, close_paren + 1,
                              slice raw ls close_bracket,
                              slice raw (close_bracket + 2) close_paren))
                end
          end
    end = Ok (Some (start, end_, label, href)) →
    (93%N ∉ label) ∧ (41%N ∉ href)).
  { intros ls.
    destruct (str_find raw 93%N ls) as [cb|] eqn:Ecb; [|done].
    destruct (length raw <=? cb + 1); [done|].
    destruct (py_index raw (cb + 1)) as [c|]; [|done].
    destruct (negb (c =? 40)%N); [done|].
    destruct (str_find raw 41%N (cb + 2)) as [cp|] eqn:Ecp; [|done].
    intros [= <- <- <- <-].
    split; [by eapply str_find_first|by eapply str_find_first]. }
  destruct is_image.
  - destruct (negb (startswith raw (py "![") pos)); [done|]. apply Hc.
  - destruct (py_index raw pos) as [c|]; [|done].
    destruct (negb (c =? 91)%N); [done|]. apply Hc.
Qed.

(** The leaves of a paragraph, in order: a text leaf is not empty and does
    not follow a text leaf; the raw text of a link leaf is an optional
    exclamation mark, the label in brackets and the target in
    parentheses, where the label has no closing bracket and the target
    no closing parenthesis, and the fields of the leaf spell the label
    and the target. *)
Fixpoint scanner_leaves (after_text : bool) (nds : list MarkdownNode)
  : Prop :=
  match nds with
  | [] => True
  | nd :: rest =>
      match fields nd with
      | CTextNode f =>
          after_text = false ∧ tn_raw_original f ≠ []
          ∧ scanner_leaves true rest
      | CLinkNode f =>
          (∃ label href,
             ln_raw_original f
             = (if ln_is_image f then py "!" else []) ++ py "[" ++ label
               ++ py "](" ++ href ++ py ")"
             ∧ (93%N ∉ label) ∧ (41%N ∉ href)
             ∧ ln_label_leading f ++ ln_label_core f ++ ln_label_trailing f
               = label
             ∧ ln_href_leading f ++ ln_href_core f ++ ln_href_trailing f
               = href)
          ∧ scanner_leaves false rest
      | _ => False
      end
  end.

Lemma flush_text_leaves raw until nodes bs (h : heap) :
  until ≤ length raw →
  ∃ nds, flush_text raw until nodes bs h
         = (Ok (nodes ++ seq (length h) (length nds), until), h ++ nds)
         ∧ ∀ rest, scanner_leaves true rest → scanner_leaves false rest →
                   scanner_leaves false (nds ++ rest).
Proof.
  intros Hu. unfold flush_text. destruct (Nat.ltb_spec bs until) as [Hlt|Hge].
  - unfold new_TextNode.
    destruct (_split_trivia (slice raw bs until)) as [[l c] t].
    eexists [_]. unfold bind, alloc, ret. cbn [length seq fst].
    split; [done|].
    intros rest Hrest _. cbn [app scanner_leaves fields tn_raw_original].
    split; [done|]. split; [|done].
    intros Hnil. apply (f_equal length) in Hnil. unfold slice in Hnil.
    rewrite length_drop, length_take in Hnil. simpl in Hnil. lia.
  - exists []. unfold ret. simpl. rewrite !app_nil_r. split; [done|].
    by intros rest _ Hrest.
Qed.

Lemma new_LinkNode_leaves raw label href (is_image : bool) (h : heap) :
  raw = (if is_image then py "!" else []) ++ py "[" ++ label ++ py "]("
        ++ href ++ py ")" →
  (93%N ∉ label) → (41%N ∉ href) →
  ∃ nd, new_LinkNode raw label href None is_image h
        = (Ok (length h), h ++ [nd])
        ∧ ∀ b rest, scanner_leaves false rest → scanner_leaves b (nd :: rest).
Proof.
  intros Hraw Hl Hh. unfold new_LinkNode.
  destruct (_split_trivia label) as [[ll lc] lt] eqn:El.
  destruct (_split_trivia href) as [[hl hc] ht] eqn:Eh.
  eexists. split; [done|]. intros b rest Hrest.
  cbn [scanner_leaves fields]. split; [|done].
  exists label, href. cbn. split; [done|]. split; [done|]. split; [done|].
  split; [by apply _split_trivia_app|by apply _split_trivia_app].
Qed.

Lemma _parse_inlines_loop_leaves fuel raw : ∀ nodes bs i (h : heap),
  bs ≤ i → i ≤ length raw → length raw ≤ fuel + i →
  ∃ nds, _parse_inlines_loop fuel raw nodes bs i h
         = (Ok (nodes ++ seq (length h) (length nds)), h ++ nds)
         ∧ scanner_leaves false nds.
Proof.
  assert (Hfin : ∀ nodes bs (h : heap),
    ∃ nds, (nb <- flush_text raw (length raw) nodes bs ;; ret nb.1) h
           = (Ok (nodes ++ seq (length h) (length nds)), h ++ nds)
           ∧ scanner_leaves false nds).
  { intros nodes bs h.
    destruct (flush_text_leaves raw (length raw) nodes bs h (Nat.le_refl _))
      as (nds & E & Hl).
    exists nds. rewrite (bind_Ok _ _ _ _ _ E). split; [done|].
    specialize (Hl [] I I). by rewrite app_nil_r in Hl. }
  induction fuel as [|fuel IH]; intros nodes bs i h Hbs Hi Hfuel.
  - assert (i = length raw) as -> by lia. simpl.
    rewrite Nat.ltb_irrefl. apply Hfin.
  - cbn [_parse_inlines_loop].
    destruct (Nat.ltb_spec i (length raw)) as [Hlt|Hge]; [|apply Hfin].
    assert (Hnext : ∃ nds,
      _parse_inlines_loop fuel raw nodes bs (i + 1) h
      = (Ok (nodes ++ seq (length h) (length nds)), h ++ nds)
      ∧ scanner_leaves false nds).
    { apply IH; lia. }
    assert (Hemit : ∀ is_image start end_ label href,
      _try_parse_link raw i is_image = Ok (Some (start, end_, label, href)) →
      ∃ nds,
        (nb <- flush_text raw start nodes bs ;;
         l <- new_LinkNode (slice raw start end_) label href None is_image ;;
         _parse_inlines_loop fuel raw (nb.1 ++ [l]) end_ end_) h
        = (Ok (nodes ++ seq (length h) (length nds)), h ++ nds)
        ∧ scanner_leaves false nds).
    { intros is_image start end_ label href Ep.
      pose proof (_try_parse_link_first _ _ _ _ _ _ _ Ep) as [Hlab Hhref].
      apply _try_parse_link_Some in Ep as (-> & Hend1 & Hend2 & Hsl).
      destruct (flush_text_leaves raw i nodes bs h ltac:(lia))
        as (n1 & E1 & Hl1).
      rewrite (bind_Ok _ _ _ _ _ E1). simpl.
      destruct (new_LinkNode_leaves _ label href is_image (h ++ n1) Hsl
                  Hlab Hhref) as (nd & E2 & Hl2).
      rewrite (bind_Ok _ _ _ _ _ E2).
      destruct (IH ((nodes ++ seq (length h) (length n1))
                    ++ [length (h ++ n1)]) end_ end_ ((h ++ n1) ++ [nd]))
        as (n3 & E3 & Hl3); [lia..|].
      exists (n1 ++ [nd] ++ n3). split.
      - rewrite E3. f_equal; [|by rewrite <- !app_assoc].
        f_equal. rewrite !length_app, <- !app_assoc. f_equal.
        simpl. rewrite !seq_app. simpl. do 2 f_equal.
        f_equal. lia.
      - apply Hl1; by apply Hl2. }
    assert (Htry : ∃ nds,
      (c <- lift (py_index raw i) ;;
       if (c =? 91)%N then
         parsed <- lift (_try_parse_link raw i false) ;;
         match parsed with
         | Some p =>
             let '(start, end_, label, href) := p in
             nb <- flush_text raw start nodes bs ;;
             l <- new_LinkNode (slice raw start end_) label href None false ;;
             _parse_inlines_loop fuel raw (nb.1 ++ [l]) end_ end_
         | None => _parse_inlines_loop fuel raw nodes bs (i + 1)
         end
       else _parse_inlines_loop fuel raw nodes bs (i + 1)) h
      = (Ok (nodes ++ seq (length h) (length nds)), h ++ nds)
      ∧ scanner_leaves false nds).
    { destruct (py_index_lt raw i Hlt) as (c & Ec & _).
      unfold bind at 1, lift at 1; rewrite Ec.
      destruct (c =? 91)%N; [|done].
      destruct (_try_parse_link_total raw i false Hlt) as (o & Eo).
      unfold bind at 1, lift at 1; rewrite Eo.
      destruct o as [[[[start end_] label] href]|]; [|done].
      eapply Hemit, Eo. }
    destruct (startswith raw (py "![") i); [|exact Htry].
    destruct (_try_parse_link_total raw i true Hlt) as (o & Eo).
    unfold bind at 1, lift at 1; rewrite Eo.
    destruct o as [[[[start end_] label] href]|]; [|exact Htry].
    eapply Hemit, Eo.
Qed.

Lemma link_leaf_bracket nd f :
  inline_leaf nd → fields nd = CLinkNode f → 91%N ∈ leaf_raw nd.
Proof.
  intros (_ & _ & H) Ef. unfold leaf_raw. rewrite Ef in *.
  destruct H as [_ <-]. unfold rebuilt_link.
  apply elem_of_app. right. apply elem_of_app. left. by left.
Qed.

(** The inline scanner, on every raw text, returns new leaves, each
    without parent, without children and clean, whose raw texts, in order,
    make up the raw text, and in which no text leaf is empty, no text leaf
    follows another, and every link or image leaf spans an optional
    exclamation mark, a label without closing bracket in brackets and a
    target without closing parenthesis in parentheses.  A raw text without
    opening bracket gives one text leaf that holds all of it, and the
    empty raw text gives no leaf. *)
Theorem inline_scanner_leaves (h : heap) (raw : str) :
  ∃ nds,
    _parse_inlines raw h = (Ok (seq (length h) (length nds)), h ++ nds)
    ∧ scanner_leaves false nds
    ∧ Forall (λ nd, _parent nd = None ∧ _children nd = []
                    ∧ _dirty_self nd = false) nds
    ∧ concat (leaf_raw <$> nds) = raw
    ∧ (raw = [] → nds = [])
    ∧ ((91%N ∉ raw) → raw ≠ [] →
       ∃ f, nds = [Node Text None [] false (CTextNode f)]
            ∧ tn_raw_original f = raw).
Proof.
  destruct (_parse_inlines_loop_leaves (length raw) raw [] 0 0 h)
    as (nds & E & Hl); [lia..|].
  destruct (_parse_inlines_spec raw h) as (nds' & (E' & Hin & Hpar) & Hraw).
  unfold _parse_inlines in *. rewrite E in E'. injection E' as _ E'.
  apply app_inv_head in E'. subst nds'.
  exists nds. split; [done|]. split; [done|].
  split.
  { apply Forall_forall. intros nd Hnd.
    destruct (proj1 (Forall_forall _ _) Hin nd Hnd) as (Hc & Hd & _).
    pose proof (proj1 (Forall_forall _ _) Hpar nd Hnd) as Hp. done. }
  split; [done|].
  assert (Hhead : ∀ nd rest, nds = nd :: rest →
            (91%N ∉ raw) →
            ∃ f, nds = [Node Text None [] false (CTextNode f)]
                 ∧ tn_raw_original f = raw).
  { intros nd rest -> Hno.
    apply Forall_cons_1 in Hin as [Hnd Hrest].
    apply Forall_cons_1 in Hpar as [Hp _].
    simpl in Hl. destruct (fields nd) as [|f|f| | | |] eqn:Ef; try done.
    - destruct Hl as (_ & _ & Hl).
      destruct rest as [|nd2 rest].
      + exists f. split.
        * destruct nd as [t p c d fs]. unfold inline_leaf in Hnd.
          simpl in *. destruct Hnd as (-> & -> & Hf). rewrite Ef in Hf.
          destruct Hf as [-> _]. by subst.
        * rewrite <- Hraw. simpl. unfold leaf_raw. rewrite Ef.
          by rewrite app_nil_r.
      + exfalso. apply Forall_cons_1 in Hrest as [Hnd2 _].
        simpl in Hl. destruct (fields nd2) as [|f2|f2| | | |] eqn:Ef2;
          try done; [by destruct Hl|].
        apply Hno. rewrite <- Hraw. simpl.
        apply elem_of_app. right. apply elem_of_app. left.
        by eapply link_leaf_bracket.
    - exfalso. apply Hno. rewrite <- Hraw. simpl.
      apply elem_of_app. left. by eapply link_leaf_bracket. }
  split.
  - intros ->. destruct nds as [|nd rest]; [done|]. exfalso.
    simpl in Hl, Hraw. apply app_eq_nil in Hraw as [Hraw _].
    apply Forall_cons_1 in Hin as [Hnd _].
    pose proof (link_leaf_bracket nd) as Hb. unfold leaf_raw in Hraw, Hb.
    destruct (fields nd) as [|f|f| | | |] eqn:Ef; try done;
      try (by destruct Hl as (_ & Hne & _));
      try (specialize (Hb f Hnd eq_refl); rewrite Hraw in Hb;
           by apply elem_of_nil in Hb).
  - intros Hno Hne. destruct nds as [|nd rest]; [by simpl in Hraw|].
    by eapply Hhead.
Qed.

Lemma elem_of_concat_fmap {A B} (f : A → list B) (l : list A) x y :
  x ∈ l → y ∈ f x → y ∈ concat (f <$> l).
Proof.
  induction l as [|a l IH]; intros Hx Hy; [by apply elem_of_nil in Hx|].
  csimpl. apply elem_of_app.
  apply elem_of_cons in Hx as [->|Hx]; [by left|right; by apply IH].
Qed.

(** [Text] of a paragraph whose raw text has no opening bracket is the raw
    text stripped. *)
Theorem plain_paragraph_Text (raw block_suffix : str) (parent : option ref)
    (h : heap) :
  (91%N ∉ raw) →
  ∃ h', new_ParagraphNode raw block_suffix parent h = (Ok (length h), h')
        ∧ ∀ fuel, get_Text (S (S fuel)) h' (length h) = Some (strip raw).
Proof.
  intros Hno.
  destruct (new_ParagraphNode_spec raw block_suffix parent h)
    as (nds & E & Hl & Hraw).
  eexists. split; [exact E|]. intros fuel.
  set (n := length h).
  set (para := Node Paragraph parent (seq (S n) (length nds)) false
                 (CParagraphNode (ParagraphNodeFields raw block_suffix))).
  set (leaves := with_parent (Some n) <$> nds).
  set (h' := h ++ para :: leaves).
  assert (Ep : h' !! n = Some para) by by apply list_lookup_middle.
  assert (Hplaced : placed h' (S n) leaves).
  { intros j nd Ej. unfold h'.
    rewrite lookup_app_r by (unfold n; lia).
    replace (S n + j - length h) with (S j) by (unfold n; lia). done. }
  assert (Hleafish : Forall leafish leaves).
  { unfold leaves. rewrite Forall_fmap. eapply Forall_impl; [exact Hl|].
    intros nd Hnd. apply inline_leaf_leafish.
    exact (inline_leaf_with_parent (Some n) nd Hnd). }
  assert (Htexts : Forall (λ nd, ∃ f, fields nd = CTextNode f) nds).
  { apply Forall_forall. intros nd Hin. rewrite Forall_forall in Hl.
    pose proof (Hl nd Hin) as Hnd. pose proof Hnd as (_ & _ & Hf).
    destruct (fields nd) as [|f|f| | | |] eqn:Ef; try done; [by exists f|].
    exfalso. apply Hno. rewrite <- Hraw.
    eapply elem_of_concat_fmap; [exact Hin|]. by eapply link_leaf_bracket. }
  unfold get_Text. rewrite Ep. cbn [mbind option_bind fields para _children].
  unfold join_map.
  assert (Eplain : mapM (ToPlainText (S (S fuel)) h') (seq (S n) (length nds))
                   = mapM (ToMarkdown (S (S fuel)) h') (seq (S n) (length nds))).
  { apply mapM_ext_in. intros c Hc. apply elem_of_seq in Hc as [Hc1 Hc2].
    destruct (lookup_lt_is_Some_2 nds (c - S n)) as [nd End]; [lia|].
    assert (Ec : h' !! c = Some (with_parent (Some n) nd)).
    { replace c with (S n + (c - S n)) by lia. apply Hplaced.
      unfold leaves. by rewrite list_lookup_fmap, End. }
    rewrite Forall_forall in Htexts.
    destruct (Htexts nd) as [f Ef]; [by eapply list_elem_of_lookup_2|].
    unfold ToPlainText. rewrite Ec. cbn [mbind option_bind].
    change (fields (with_parent (Some n) nd)) with (fields nd).
    by rewrite Ef. }
  rewrite Eplain.
  replace (length nds) with (length leaves)
    by (unfold leaves; by rewrite length_fmap).
  rewrite (leaves_markdown fuel h' leaves (S n) Hplaced Hleafish).
  cbn [mbind option_bind fmap option_fmap option_map]. do 2 f_equal.
  rewrite <- Hraw. f_equal. unfold leaves. rewrite <- list_fmap_compose.
  apply Forall_fmap_ext. eapply Forall_impl; [exact Hl|].
  intros nd Hnd. simpl.
  rewrite (inline_leaf_text (with_parent (Some n) nd)); [done|].
  exact (inline_leaf_with_parent (Some n) nd Hnd).
Qed.

Lemma plain_paragraph_Text_witness :
  ∃ h', new_ParagraphNode (py_lines ["  two words "]) [] None []
        = (Ok 0, h')
        ∧ get_Text 2 h' 0 = Some (py "two words").
Proof.
  destruct (plain_paragraph_Text (py_lines ["  two words "]) [] None [])
    as (h' & E & Hg).
  - vm_compute. intros H.
    repeat (apply elem_of_cons in H as [H|H]; [discriminate H|]).
    by apply elem_of_nil in H.
  - exists h'. split; [exact E|exact (Hg 0)].
Defined.

(** ** Blank lines at the start *)

Lemma Parse_loop_done fuel lines st (h : heap) :
  length lines ≤ ps_i st → Parse_loop fuel lines st h = (Ok st, h).
Proof.
  intros Hge. destruct fuel; cbn [Parse_loop];
    by destruct (Nat.ltb_spec (ps_i st) (length lines)); [lia|].
Qed.

(** The leading trivia of a document built from a text is the longest run
    of blank lines at the start of the text; a text of blank lines only
    (the empty text is one) gives a document without children whose
    leading trivia is the text, and no other object. *)
Theorem leading_blank_lines (h : heap) (s : str) :
  let blanks := blank_run (splitlines s) in
  ∃ h' root,
    FromString s h = (Ok (length h), h')
    ∧ h' !! length h = Some root
    ∧ fields root
      = CMarkdownDocument (MarkdownDocumentFields (concat blanks) None)
    ∧ blanks = take (length blanks) (splitlines s)
    ∧ Forall (λ l, is_blank l = true) blanks
    ∧ (∀ l, splitlines s !! length blanks = Some l → is_blank l = false)
    ∧ (Forall (λ l, is_blank l = true) (splitlines s) →
       h' = h ++ [new_root s]).
Proof.
  intros blanks. set (lines := splitlines s) in *.
  assert (Hspan : Forall (λ l, is_blank l = true) blanks
                  ∧ blanks = take (length blanks) lines
                  ∧ ∀ l, lines !! length blanks = Some l → is_blank l = false).
  { split; [apply span_Forall|]. split; [apply blank_run_take|].
    intros l El. apply (span_snd_head is_blank lines).
    pose proof (span_app is_blank lines) as Happ.
    fold (blank_run lines) in Happ. fold blanks in Happ.
    rewrite <- Happ in El.
    rewrite lookup_app_r, Nat.sub_diag in El by lia.
    by destruct (span is_blank lines).2. }
  destruct Hspan as (Hb & Htake & Hnext).
  rewrite FromString_loop. cbv zeta. fold lines. fold blanks.
  case_bool_decide as Hs.
  - subst s. exists (h ++ [new_root []]), (new_root []).
    split; [done|]. split; [apply lookup_new|]. by repeat split.
  - destruct (Parse_loop_invariant
                (λ _ h1, ∃ nd, h1 !! length h = Some nd
                   ∧ fields nd = CMarkdownDocument
                                   (MarkdownDocumentFields (concat blanks) None))
                lines)
      with (fuel := length lines)
           (st := ParseState (length blanks) [length h] [0])
           (h := h ++ [new_root (concat blanks)])
      as (st' & h2 & E2 & (nd & End & Ef) & _).
    + intros st0 h0 st1 h1 (nd & End & Ef) _ _
        (b & i' & s' & l' & top & _ & _ & _ & _ & _ & _ & _ & Eres) _.
      injection Eres as _ ->.
      destruct (attach_old top (block_nodes top (length h0) b) h0 _ _ End)
        as (nd' & End' & (Ef' & _) & _).
      exists nd'. split; [done|]. congruence.
    + exists (new_root (concat blanks)). split; [apply lookup_new|done].
    + apply new_document_loop_state.
    + simpl. lia.
    + rewrite E2. exists h2, nd. do 6 (split; [done|]).
      intros Hall. unfold blanks, blank_run in *.
      rewrite (span_all _ _ Hall) in *. simpl in *.
      rewrite Parse_loop_done in E2 by (simpl; lia).
      injection E2 as _ <-. unfold lines. by rewrite splitlines_concat.
Qed.

(** ** One block changed in a parsed document *)

Lemma reach_le d (h : heap) :
  tree d h → ∀ x r, reach h x r → d ≤ x → x ≤ r.
Proof.
  intros (T1 & _). induction 1 as [x|x nd c r E Hc Hr IH]; intros Hd; [done|].
  destruct (T1 x nd c Hd E Hc) as (ndc & _ & Hlt & _). lia.
Qed.

(** The last step of a way down to [r] goes through the parent of [r]. *)
Lemma reach_parent d (h : heap) :
  tree d h → ∀ x r, reach h x r → d ≤ x → x ≠ r →
  ∃ p ndr, h !! r = Some ndr ∧ _parent ndr = Some p ∧ reach h x p ∧ p < r.
Proof.
  intros (T1 & _). induction 1 as [x|x nd c r E Hc Hr IH]; intros Hd Hne;
    [done|].
  destruct (T1 x nd c Hd E Hc) as (ndc & Ec & Hlt & Epar & _).
  destruct (decide (c = r)) as [->|Hcr].
  - exists x, ndc. split; [done|]. split; [done|]. split; [constructor|done].
  - destruct (IH ltac:(lia) Hcr) as (p & ndr & Er & Ep & Hp & Hpr).
    exists p, ndr. split; [done|]. split; [done|].
    split; [by eapply reach_child|done].
Qed.

(** In a tree, a node is below at most one child of a node. *)
Lemma unique_child d (h : heap) :
  tree d h → ∀ r x ndx c c',
  d ≤ x → h !! x = Some ndx → c ∈ _children ndx → c' ∈ _children ndx →
  reach h c r → reach h c' r → c = c'.
Proof.
  intros HT. pose proof HT as (T1 & _).
  induction r as [r IH] using lt_wf_ind.
  intros x ndx c c' Hd Ex Hc Hc' Hr Hr'.
  destruct (decide (c = c')) as [|Hne]; [done|]. exfalso.
  destruct (T1 x ndx c Hd Ex Hc) as (ndc & Ec & Hlt & Epar & _).
  destruct (T1 x ndx c' Hd Ex Hc') as (ndc' & Ec' & Hlt' & Epar' & _).
  assert (Hside : ∀ a b nda, a ≠ b → h !! a = Some nda →
            _parent nda = Some x → x < b → reach h b a → False).
  { intros a b nda Hab Ea Hpa Hxb Hba.
    destruct (reach_parent d h HT b a Hba ltac:(lia) ltac:(done))
      as (p & ndr & Er & Ep & Hp & _).
    rewrite Ea in Er. injection Er as <-. rewrite Hpa in Ep.
    injection Ep as <-.
    pose proof (reach_le d h HT b x Hp ltac:(lia)). lia. }
  destruct (decide (c = r)) as [->|Hcr]; [by eapply (Hside r c')|].
  destruct (decide (c' = r)) as [->|Hcr']; [by eapply (Hside r c)|].
  destruct (reach_parent d h HT c r Hr ltac:(lia) Hcr)
    as (p & ndr & Er & Ep & Hp & Hpr).
  destruct (reach_parent d h HT c' r Hr' ltac:(lia) Hcr')
    as (p' & ndr' & Er' & Ep' & Hp' & _).
  rewrite Er in Er'. injection Er' as <-. rewrite Ep in Ep'.
  injection Ep' as <-.
  by apply Hne, (IH p Hpr x ndx c c').
Qed.

(** A change of the object [r] changes nothing for a node that [r] is not
    below. *)
Lemma unreachable_frame (h : heap) r nd' :
  ∀ fuel x, ¬ reach h x r →
    IsDirty fuel (<[r := nd']> h) x = IsDirty fuel h x
    ∧ ToMarkdown fuel (<[r := nd']> h) x = ToMarkdown fuel h x.
Proof.
  induction fuel as [|fuel IH]; intros x Hnr; [done|].
  assert (Hx : x ≠ r) by (intros ->; apply Hnr; constructor).
  cbn [IsDirty ToMarkdown]. rewrite list_lookup_insert_ne by done.
  destruct (h !! x) as [nd|] eqn:E; [|done].
  assert (Hkids : ∀ c, c ∈ _children nd →
    IsDirty fuel (<[r := nd']> h) c = IsDirty fuel h c
    ∧ ToMarkdown fuel (<[r := nd']> h) c = ToMarkdown fuel h c).
  { intros c Hc. apply IH. intros Hr. apply Hnr. by eapply reach_child. }
  assert (Hany : py_any (IsDirty fuel (<[r := nd']> h)) (_children nd)
                 = py_any (IsDirty fuel h) (_children nd)).
  { apply py_any_ext. intros c Hc. by apply Hkids. }
  assert (Hjoin : join_map (ToMarkdown fuel (<[r := nd']> h)) (_children nd)
                  = join_map (ToMarkdown fuel h) (_children nd)).
  { unfold join_map. f_equal. apply mapM_ext_in. intros c Hc.
    by apply Hkids. }
  destruct (IH x Hnr) as [Hself _].
  split; [by rewrite Hany|].
  cbn [mbind option_bind]. by rewrite Hany, Hjoin, Hself.
Qed.

Lemma Forall2_impl_in {A B} (P Q : A → B → Prop) l k :
  Forall2 P l k → (∀ x y, x ∈ l → P x y → Q x y) → Forall2 Q l k.
Proof.
  induction 1 as [|x y l k Hxy _ IH]; intros H; constructor.
  - apply H; [by left|done].
  - apply IH. intros a b Ha. apply H. by right.
Qed.

Lemma ToMarkdown_container_inv fuel (H : heap) r nd o out :
  H !! r = Some nd → own_text nd = Some o →
  ToMarkdown (S fuel) H r = Some out →
  ∃ ks, mapM (ToMarkdown fuel H) (_children nd) = Some ks
        ∧ out = o ++ concat ks.
Proof.
  intros E Ho. cbn [ToMarkdown]. rewrite E. cbn [mbind option_bind].
  unfold own_text in Ho. unfold join_map.
  destruct (fields nd) as [| | | |f| |f]; try done;
    destruct (mapM (ToMarkdown fuel H) (_children nd)) as [ks|]; try done;
    cbn [mbind option_bind]; injection Ho as <-; intros [= <-];
    exists ks; (split; [done|]); by rewrite <- ?app_assoc.
Qed.

(** In a parsed document, when a part [X] of the text of the block [r]
    becomes [Y], the text of every node above [r] changes in that place
    only. *)
Lemma block_context d (h : heap) r ndr nd' X Y :
  tree d h → h !! r = Some ndr → is_block ndr →
  (∀ fuel out, ToMarkdown fuel h r = Some out →
     ∃ a b, out = a ++ X ++ b
            ∧ ToMarkdown fuel (<[r := nd']> h) r = Some (a ++ Y ++ b)) →
  ∀ fuel x out, d ≤ x → reach h x r →
    ToMarkdown fuel h x = Some out →
    ∃ a b, out = a ++ X ++ b
           ∧ ToMarkdown fuel (<[r := nd']> h) x = Some (a ++ Y ++ b).
Proof.
  intros HT Er Hblock Hbase. pose proof HT as (T1 & T2 & _).
  induction fuel as [|fuel IH]; intros x out Hd Hreach Hout; [done|].
  destruct (decide (x = r)) as [->|Hxr].
  { destruct (Hbase _ _ Hout) as (a & b & -> & E2). by exists a, b. }
  inversion Hreach as [|? ndx c0 ? Ex Hc0 Hr0]; subst; [done|].
  destruct (tree_children d h HT x ndx c0 Hd Ex Hc0) as (ndc0 & Ec0 & Hkind).
  assert (Ho : ∃ o, own_text ndx = Some o).
  { unfold own_text. destruct (fields ndx) as [| | | |f|f|f] eqn:Ef;
      try done; eauto.
    (* a paragraph holds leaves, and [r] is a block *)
    exfalso. destruct Hkind as [Hin Hnil].
    inversion Hr0 as [|? nd1 c1 ? E1 Hc1 _]; subst.
    - rewrite Er in Ec0. injection Ec0 as <-.
      unfold is_block, is_inline in *. by destruct (fields ndr).
    - rewrite Ec0 in E1. injection E1 as <-. rewrite Hnil in Hc1.
      by apply elem_of_nil in Hc1. }
  destruct Ho as [o Ho].
  destruct (ToMarkdown_container_inv _ _ _ _ _ _ Ex Ho Hout) as (ks & Eks & ->).
  assert (Ex2 : <[r := nd']> h !! x = Some ndx).
  { by rewrite list_lookup_insert_ne. }
  apply list_elem_of_split in Hc0 as (cs1 & cs2 & Ecs).
  pose proof (T2 x ndx Hd Ex) as Hnodup. rewrite Ecs in Hnodup, Eks.
  apply mapM_Some in Eks. apply Forall2_app_inv_l in Eks
    as (ks1 & ks' & Hks1 & Hks' & ->).
  apply Forall2_cons_inv_l in Hks' as (k0 & ks2 & Hk0 & Hks2 & ->).
  destruct (T1 x ndx c0 Hd Ex ltac:(rewrite Ecs; apply elem_of_app; right;
                                     by left)) as (_ & _ & Hlt & _).
  destruct (IH c0 k0 ltac:(lia) Hr0 Hk0) as (a & b & -> & E0).
  assert (Hother : ∀ c, c ∈ cs1 ++ cs2 →
            ToMarkdown fuel (<[r := nd']> h) c = ToMarkdown fuel h c).
  { intros c Hc. apply unreachable_frame. intros Hcr.
    assert (c = c0) as ->.
    { eapply (unique_child d h HT r x ndx); eauto; rewrite Ecs.
      - apply elem_of_app. apply elem_of_app in Hc as [?|?]; [by left|].
        right. by right.
      - apply elem_of_app. right. by left. }
    apply NoDup_app in Hnodup as (_ & Hdisj & Hnd2).
    apply NoDup_cons in Hnd2 as [Hnot _].
    apply elem_of_app in Hc as [Hc|Hc]; [|done].
    apply (Hdisj c0 Hc). by left. }
  exists (o ++ concat ks1 ++ a), (b ++ concat ks2).
  split.
  { rewrite concat_app. simpl. by rewrite <- !app_assoc. }
  rewrite (ToMarkdown_container fuel _ x ndx o (ks1 ++ (a ++ Y ++ b) :: ks2)
             Ex2 Ho).
  { rewrite concat_app. simpl. by rewrite <- !app_assoc. }
  rewrite Ecs. apply mapM_Some. apply Forall2_app; [|constructor].
  - eapply Forall2_impl_in; [exact Hks1|]. intros c k Hc Hk.
    rewrite Hother; [done|]. apply elem_of_app. by left.
  - done.
  - eapply Forall2_impl_in; [exact Hks2|]. intros c k Hc Hk.
    rewrite Hother; [done|]. apply elem_of_app. by right.
Qed.

Lemma reach_snoc (h : heap) x p ndp r :
  reach h x p → h !! p = Some ndp → r ∈ _children ndp → reach h x r.
Proof.
  induction 1 as [x|x nd c p E Hc Hr IH]; intros Ep Hin.
  - eapply reach_child; eauto. constructor.
  - eapply reach_child; eauto.
Qed.

(** Every node of a tree is below its root. *)
Lemma tree_reach d (h : heap) :
  tree d h → ∀ r, d ≤ r → r < length h → reach h d r.
Proof.
  intros (T1 & _ & T3). induction r as [r IH] using lt_wf_ind.
  intros Hd Hr. destruct (decide (r = d)) as [->|Hne]; [constructor|].
  destruct (lookup_lt_is_Some_2 h r Hr) as [nd E].
  destruct (T3 r nd ltac:(lia) E) as (p & ndp & _ & Hp & Ep & Hin).
  destruct (T1 p ndp r Hp Ep Hin) as (_ & _ & Hlt & _).
  eapply reach_snoc; eauto. apply IH; [lia|lia|].
  by apply lookup_lt_Some in Ep.
Qed.

(** The children of a node of a tree are not above it. *)
Lemma tree_children_frame d (h : heap) r nd nd' fuel :
  tree d h → d ≤ r → h !! r = Some nd →
  mapM (ToMarkdown fuel (<[r := nd']> h)) (_children nd)
  = mapM (ToMarkdown fuel h) (_children nd).
Proof.
  intros HT Hd E. apply mapM_ext_in. intros c Hc.
  apply unreachable_frame. intros Hcr.
  destruct HT as (T1 & T2 & T3).
  destruct (T1 r nd c Hd E Hc) as (_ & _ & Hlt & _).
  pose proof (reach_le d h (conj T1 (conj T2 T3)) c r Hcr ltac:(lia)). lia.
Qed.

(** A document built from a text: what the properties of one changed
    block use. *)
Lemma FromString_document (h0 : heap) (s : str) :
  ∃ h, FromString s h0 = (Ok (length h0), h)
       ∧ tree (length h0) h ∧ parsed_from (length h0) h
       ∧ ∃ F, ∀ fuel, F ≤ fuel → ToMarkdown fuel h (length h0) = Some s.
Proof.
  destruct (FromString_render h0 s) as (h & E & _ & HF).
  destruct (FromString_Shape h0 s) as (st & h1 & E1 & _ & HT & HP & _).
  rewrite E in E1. injection E1 as <-. by exists h.
Qed.

(** Renaming a heading of a document built from [s] changes, in the
    serialisation of the document, the line of that heading only, and in
    that line the core of the title only: the line was its prefix, the
    title with the blanks around it and its suffix, and it becomes the
    same with the stripped value as the core of the title. *)
Theorem heading_rename_minimal_diff (h0 : heap) (s v : str) (d : ref)
    (h : heap) (r : ref) (nd : MarkdownNode) (f : HeadingNode_fields) :
  FromString s h0 = (Ok d, h) →
  length h0 < r → h !! r = Some nd → fields nd = CHeadingNode f →
  ∃ h' pre post,
    set_Text r v h = (Ok tt, h')
    ∧ s = pre ++ hn_raw_line_original f ++ post
    ∧ hn_raw_line_original f
      = hn_prefix f
        ++ (hn_title_leading f ++ hn_title_core f ++ hn_title_trailing f)
        ++ hn_line_suffix f
    ∧ ∃ F, ∀ fuel, F ≤ fuel →
        ToMarkdown fuel h' d
        = Some (pre
                ++ (hn_prefix f
                    ++ (hn_title_leading f ++ strip v ++ hn_title_trailing f)
                    ++ hn_line_suffix f)
                ++ post).
Proof.
  intros Hfrom Hr E Ef.
  destruct (FromString_document h0 s) as (h1 & E1 & HT & HP & F & HF).
  rewrite Hfrom in E1. injection E1 as -> <-.
  destruct (HP r nd ltac:(lia) E) as (Hclean & _ & Hsp).
  unfold node_spelled in Hsp. rewrite Ef in Hsp.
  set (nd' := Node (NType nd) (_parent nd) (_children nd) true
                (CHeadingNode (hn_set_title_core (strip v) f))).
  assert (Eset : set_Text r v h = (Ok tt, <[r := nd']> h)).
  { unfold set_Text, bind at 1, get_node. rewrite E, Ef.
    apply (set_field_Ok _ _ _ _ E). }
  set (X := hn_raw_line_original f).
  set (Y := hn_prefix f
            ++ (hn_title_leading f ++ strip v ++ hn_title_trailing f)
            ++ hn_line_suffix f).
  assert (Hbase : ∀ fuel out, ToMarkdown fuel h r = Some out →
    ∃ a b, out = a ++ X ++ b
           ∧ ToMarkdown fuel (<[r := nd']> h) r = Some (a ++ Y ++ b)).
  { intros [|fuel] out Hout; [done|].
    assert (Ho : own_text nd = Some (X ++ hn_block_suffix f)).
    { unfold own_text. by rewrite Ef, Hclean. }
    destruct (ToMarkdown_container_inv _ _ _ _ _ _ E Ho Hout)
      as (ks & Eks & ->).
    exists [], (hn_block_suffix f ++ concat ks).
    split; [by rewrite <- app_assoc|].
    rewrite (ToMarkdown_container fuel _ r nd' (Y ++ hn_block_suffix f) ks).
    - by rewrite <- !app_assoc.
    - by apply lookup_set with nd.
    - done.
    - change (_children nd') with (_children nd).
      rewrite (tree_children_frame (length h0) h r nd nd' fuel HT); [done|lia|done]. }
  pose proof (HF F (Nat.le_refl _)) as Hs.
  assert (Hreach : reach h (length h0) r).
  { apply (tree_reach _ _ HT); [lia|]. by apply lookup_lt_Some in E. }
  assert (Hblock : is_block nd) by (unfold is_block; by rewrite Ef).
  destruct (block_context (length h0) h r nd nd' X Y HT E Hblock Hbase
              F (length h0) s (Nat.le_refl _) Hreach Hs)
    as (pre & post & Hsplit & Hout).
  exists (<[r := nd']> h), pre, post. split; [done|]. split; [done|].
  split; [done|]. exists F. intros fuel Hfuel.
  by apply (ToMarkdown_mono F).
Qed.

Definition ex_notes_heading : HeadingNode_fields :=
  HeadingNodeFields 1 (py_lines ["# T"]) (py "# ") [] (py "T") []
                    (py_lines [""]) [].

Lemma heading_rename_minimal_diff_witness :
  ∃ h' pre post,
    set_Text 1 (py " U ") ex_notes = (Ok tt, h')
    ∧ py_lines ["# T"; "see [a](b)"] = pre ++ py_lines ["# T"] ++ post
    ∧ ∃ F, ∀ fuel, F ≤ fuel →
        ToMarkdown fuel h' 0 = Some (pre ++ py_lines ["# U"] ++ post).
Proof.
  destruct (heading_rename_minimal_diff [] (py_lines ["# T"; "see [a](b)"])
              (py " U ") 0 ex_notes 1
              (Node Heading1 (Some 0) [2] false (CHeadingNode ex_notes_heading))
              ex_notes_heading)
    as (h' & pre & post & E1 & E2 & _ & HF).
  - reflexivity.
  - simpl. lia.
  - reflexivity.
  - reflexivity.
  - exists h', pre, post. split; [exact E1|]. split; [exact E2|exact HF].
Defined.

(** A code block of a parsed document has no children. *)
Lemma tree_code_block_leaf d (h : heap) r nd f :
  tree d h → d ≤ r → h !! r = Some nd → fields nd = CCodeBlockNode f →
  _children nd = [].
Proof.
  intros (T1 & _) Hd E Ef. destruct (_children nd) as [|c cs] eqn:Ec; [done|].
  destruct (T1 r nd c Hd E) as (ndc & _ & _ & _ & Hk).
  - rewrite Ec. by left.
  - by rewrite Ef in Hk.
Qed.

(** Giving a code block of a document built from [s] another body changes,
    in the serialisation of the document, the body of that block only,
    when the closing line of the block is one that [_parse_closing]
    accepts: the opening line, the closing line and everything around the
    block stay as they were in [s], and the new body is written as it was
    given. *)
Theorem code_body_minimal_diff (h0 : heap) (s v : str) (d : ref)
    (h : heap) (r : ref) (nd : MarkdownNode) (f : CodeBlockNode_fields)
    (cm : fence_groups) :
  FromString s h0 = (Ok d, h) →
  length h0 < r → h !! r = Some nd → fields nd = CCodeBlockNode f →
  fence_open_match (cb_closing_line_original f) = Some cm →
  ∃ h' pre post,
    set_Text r v h = (Ok tt, h')
    ∧ s = pre
          ++ (cb_opening_line_original f ++ cb_code_body_original f
              ++ cb_closing_line_original f)
          ++ post
    ∧ ∃ F, ∀ fuel, F ≤ fuel →
        ToMarkdown fuel h' d
        = Some (pre
                ++ (cb_opening_line_original f ++ v
                    ++ cb_closing_line_original f)
                ++ post).
Proof.
  intros Hfrom Hr E Ef Hcm.
  destruct (FromString_document h0 s) as (h1 & E1 & HT & HP & F & HF).
  rewrite Hfrom in E1. injection E1 as -> <-.
  destruct (HP r nd ltac:(lia) E) as (Hclean & _ & Hsp).
  unfold node_spelled in Hsp. rewrite Ef in Hsp.
  destruct Hsp as (Hopen & _ & Hclose). specialize (Hclose cm Hcm).
  pose proof (tree_code_block_leaf (length h0) h r nd f HT ltac:(lia) E Ef) as Hleaf.
  set (nd' := Node (NType nd) (_parent nd) (_children nd) true
                (CCodeBlockNode (cb_set_code_body_current v f))).
  assert (Eset : set_Text r v h = (Ok tt, <[r := nd']> h)).
  { unfold set_Text, bind at 1, get_node. rewrite E, Ef.
    apply (set_field_Ok _ _ _ _ E). }
  set (X := cb_opening_line_original f ++ cb_code_body_original f
            ++ cb_closing_line_original f).
  set (Y := cb_opening_line_original f ++ v ++ cb_closing_line_original f).
  assert (Hbase : ∀ fuel out, ToMarkdown fuel h r = Some out →
    ∃ a b, out = a ++ X ++ b
           ∧ ToMarkdown fuel (<[r := nd']> h) r = Some (a ++ Y ++ b)).
  { intros [|[|fuel]] out Hout; [done| |].
    { cbn [ToMarkdown] in Hout. rewrite E in Hout.
      cbn [mbind option_bind] in Hout. by rewrite Ef in Hout. }
    cbn [ToMarkdown] in Hout. rewrite E in Hout.
    cbn [mbind option_bind] in Hout. rewrite Ef in Hout.
    cbn [IsDirty] in Hout. rewrite E, Hclean, Hleaf in Hout.
    cbn in Hout. injection Hout as <-.
    exists [], (cb_block_suffix_original f). split.
    { unfold X. by rewrite <- !app_assoc. }
    cbn [ToMarkdown]. rewrite (lookup_set _ _ _ _ E).
    cbn [mbind option_bind fields nd']. cbn [IsDirty].
    rewrite (lookup_set _ _ _ _ E). cbn.
    rewrite Hopen, Hclose. unfold Y. by rewrite <- !app_assoc. }
  pose proof (HF F (Nat.le_refl _)) as Hs.
  assert (Hreach : reach h (length h0) r).
  { apply (tree_reach _ _ HT); [lia|]. by apply lookup_lt_Some in E. }
  assert (Hblock : is_block nd) by (unfold is_block; by rewrite Ef).
  destruct (block_context (length h0) h r nd nd' X Y HT E Hblock Hbase
              F (length h0) s (Nat.le_refl _) Hreach Hs)
    as (pre & post & Hsplit & Hout).
  exists (<[r := nd']> h), pre, post. split; [done|]. split; [done|].
  exists F. intros fuel Hfuel. by apply (ToMarkdown_mono F).
Qed.

Definition ex_script : str := py_lines ["a"; "```py"; "x = 1"; "```"; "b"].

Definition ex_script_doc : heap := Eval vm_compute in (FromString ex_script []).2.

Definition ex_script_block : CodeBlockNode_fields :=
  CodeBlockNodeFields (py_lines ["```py"]) (py_lines ["```"]) []
    [] (py "```") (py "py") (py_lines [""])
    [] (py "```") [] (py_lines [""])
    (py_lines ["x = 1"]) (py_lines ["x = 1"]).

Lemma code_body_minimal_diff_witness :
  ∃ h' pre post,
    set_Text 3 (py_lines ["y = 2"]) ex_script_doc = (Ok tt, h')
    ∧ ex_script = pre ++ py_lines ["```py"; "x = 1"; "```"] ++ post
    ∧ ∃ F, ∀ fuel, F ≤ fuel →
        ToMarkdown fuel h' 0
        = Some (pre ++ py_lines ["```py"; "y = 2"; "```"] ++ post).
Proof.
  apply (code_body_minimal_diff [] ex_script (py_lines ["y = 2"]) 0
           ex_script_doc 3
           (Node CodeBlock (Some 0) [] false (CCodeBlockNode ex_script_block))
           ex_script_block
           (FenceGroups [] (py "```") [] (py_lines [""]))).
  - reflexivity.
  - simpl. lia.
  - reflexivity.
  - reflexivity.
  - reflexivity.
Defined.

(** * The dirty marker under every operation *)

(** ** What [Parse] leaves alone *)

(** Every object of [h] other than [d] is in [h'] as it was. *)
Definition kept (d : ref) (h h' : heap) : Prop :=
  ∀ r nd, r ≠ d → h !! r = Some nd → h' !! r = Some nd.

Lemma kept_refl d (h : heap) : kept d h h.
Proof. by intros r nd _ E. Qed.

Lemma kept_trans d (h1 h2 h3 : heap) :
  kept d h1 h2 → kept d h2 h3 → kept d h1 h3.
Proof. intros H12 H23 r nd Hr E. by apply H23, H12. Qed.

Lemma kept_alter (f : MarkdownNode → MarkdownNode) d (h : heap) :
  kept d h (alter f d h).
Proof. intros r nd Hr E. by rewrite list_lookup_alter_ne. Qed.

Lemma for_each_modify_self {A} d (g : A → MarkdownNode → MarkdownNode) ls :
  ∀ (h : heap) nd, h !! d = Some nd →
  ∃ h' nd', for_each (λ l, modify_node d (g l)) ls h = (Ok tt, h')
            ∧ h' !! d = Some nd' ∧ kept d h h' ∧ length h' = length h.
Proof.
  induction ls as [|l ls IH]; intros h nd E; simpl.
  - exists h, nd. split; [done|]. split; [done|]. split; [apply kept_refl|done].
  - rewrite (bind_Ok _ _ _ _ _ (modify_node_Ok _ _ _ _ E)).
    destruct (IH (alter (g l) d h) (g l nd) (lookup_alter_Some _ _ _ _ E))
      as (h' & nd' & Efor & E' & K & L).
    exists h', nd'. split; [done|]. split; [done|]. split.
    + eapply kept_trans; [apply kept_alter|exact K].
    + by rewrite L, length_alter.
Qed.

(** One round of the main loop whose stack holds [d] and objects made
    after [n] leaves every object before [n] other than [d] as it was. *)
Lemma step_post_kept d n lines st (h0 h : heap) st' h' :
  kept d h0 h → length h0 = n → n ≤ length h →
  Forall (λ x, x = d ∨ n ≤ x) (ps_stack st) →
  loop_state lines st h →
  step_post lines (ps_i st) (ps_stack st) (ps_stack_levels st) h (Ok st', h') →
  kept d h0 h' ∧ n ≤ length h'
  ∧ Forall (λ x, x = d ∨ n ≤ x) (ps_stack st').
Proof.
  destruct st as [i stack levels]. cbn [ps_i ps_stack ps_stack_levels].
  intros K Hn Hle Hst (_ & Hlen & Hlast & _)
    (b & i' & s' & l' & top & _ & _ & _ & _ & Hpop & Etop & Htop & E).
  injection E as -> ->. cbn [ps_stack].
  assert (Hsub : ∀ x, x ∈ s' → x ∈ stack).
  { destruct (block_level b) as [level|].
    - destruct Hpop as [Hl1 Epop].
      destruct (pop_levels_ind (λ _ _, True) level Hl1
                  (λ _ _ _ _ _ _ _ _, I) stack levels Hlen Hlast I)
        as (s2 & l2 & E2 & _ & _ & _ & _ & Hsub & _).
      rewrite Epop in E2. by injection E2 as <- <-.
    - by destruct Hpop as [-> ->]. }
  rewrite Forall_forall in Hst.
  assert (Hs' : Forall (λ x, x = d ∨ n ≤ x) s').
  { apply Forall_forall. intros x Hx. by apply Hst, Hsub. }
  assert (Hin : top ∈ s').
  { destruct s' as [|x s']; [done|]. injection Etop as ->. by left. }
  split; [|split].
  - intros r nd Hr E0. pose proof (lookup_lt_Some _ _ _ E0) as Hlt.
    rewrite attach_lookup_old; [by apply K|lia|].
    intros ->. destruct (Hst top (Hsub top Hin)); [done|lia].
  - rewrite length_attach. lia.
  - destruct (block_level b); [|done].
    apply Forall_cons. split; [right; lia|done].
Qed.

Lemma bind_ret_heap {A B} (m : M A) (b : B) (h : heap) :
  ((m ;; ret b) h).2 = (m h).2.
Proof. unfold bind, ret. by destruct (m h) as [[a|e] h1]. Qed.

(** [Parse] on [d] changes no object but [d] and the ones it makes. *)
Lemma Parse_kept d markdown (h : heap) : kept d h (Parse d markdown h).2.
Proof.
  unfold Parse. rewrite bind_ret_heap. unfold Parse_run.
  destruct (h !! d) as [nd|] eqn:E.
  2:{ unfold bind at 1, modify_node at 1. rewrite E. apply kept_refl. }
  rewrite (bind_Ok _ _ _ _ _ (modify_node_Ok _ _ _ _ E)).
  pose proof (lookup_alter_Some (with_children []) _ _ _ E) as E1.
  rewrite (bind_Ok _ _ _ _ _ (modify_node_Ok _ _ _ _ E1)).
  pose proof (lookup_alter_Some (set_leading_trivia (λ _, [])) _ _ _ E1)
    as E2.
  set (h2 := alter (set_leading_trivia (λ _, [])) d
               (alter (with_children []) d h)) in *.
  assert (K2 : kept d h h2 ∧ length h2 = length h).
  { split; [|unfold h2; by rewrite !length_alter].
    eapply kept_trans; apply kept_alter. }
  destruct K2 as [K2 L2].
  set (lines := splitlines markdown).
  destruct (for_each_modify_self d (λ l, set_leading_trivia (λ t, t ++ l))
              (blank_run lines) h2 _ E2) as (h3 & nd3 & Efor & E3 & K3 & L3).
  rewrite (bind_Ok _ _ _ _ _ Efor).
  destruct (Parse_loop_invariant
              (λ st h', kept d h3 h' ∧ length h3 ≤ length h'
                        ∧ Forall (λ x, x = d ∨ length h3 ≤ x) (ps_stack st))
              lines) with (fuel := length lines)
              (st := ParseState (length (blank_run lines)) [d] [0]) (h := h3)
    as (st' & h' & Eloop & (K & _) & _).
  - intros st h4 st4 h5 (K & Hle & Hst) HL _ Hpost _.
    by eapply step_post_kept.
  - split; [apply kept_refl|]. split; [done|].
    apply Forall_singleton. by left.
  - split; [apply span_length|]. split; [done|]. split; [done|].
    apply Forall_singleton. by apply lookup_lt_Some in E3.
  - simpl. lia.
  - rewrite Eloop. simpl.
    eapply kept_trans; [exact K2|]. eapply kept_trans; [exact K3|exact K].
Qed.

(** A new document, whatever its text, leaves the objects there are as
    they were. *)
Lemma new_MarkdownDocument_dirtier markdown source_path (h : heap) :
  dirtier h ((new_MarkdownDocument markdown source_path ;; ret tt) h).2.
Proof.
  rewrite bind_ret_heap. unfold new_MarkdownDocument.
  unfold bind at 1, alloc at 1. rewrite bind_ret_heap.
  set (h1 := h ++ [_]).
  assert (K : kept (length h) h1
                ((if bool_decide (markdown = []) then ret tt
                  else Parse (length h) markdown) h1).2).
  { case_bool_decide; [apply kept_refl|apply Parse_kept]. }
  intros r nd E. exists nd. split; [|by right].
  apply K; [apply lookup_lt_Some in E; lia|].
  by apply lookup_app_l_Some.
Qed.

(** ** Every operation *)

(** Every operation but [Parse] leaves a [dirtier] heap. *)
Lemma exec_dirtier o (h : heap) : is_Parse o = false → dirtier h (exec o h).
Proof.
  intros Ho. unfold exec. destruct o; try done; cbn [run_op].
  - unfold MarkDirty, modify_node. destruct (h !! self); simpl;
      [apply dirtier_alter; auto|apply dirtier_refl].
  - apply AddChild_dirtier.
  - unfold set_Text, bind at 1, get_node.
    destruct (h !! self) as [nd|]; [|apply dirtier_refl].
    destruct (fields nd); try apply set_field_dirtier; apply dirtier_refl.
  - unfold set_Href, bind at 1, get_node.
    destruct (h !! self) as [nd|]; [|apply dirtier_refl].
    destruct (fields nd); try apply set_field_dirtier; apply dirtier_refl.
  - unfold set_InfoString, bind at 1, get_node.
    destruct (h !! self) as [nd|]; [|apply dirtier_refl].
    destruct (fields nd); try apply set_field_dirtier; apply dirtier_refl.
  - apply alloc_ret_dirtier. by eexists.
  - apply alloc_ret_dirtier.
    destruct (new_TextNode_spec raw parent h) as (nd & E & _). eauto.
  - apply alloc_ret_dirtier. unfold new_LinkNode.
    destruct (_split_trivia label) as [[? ?] ?].
    destruct (_split_trivia href) as [[? ?] ?]. by eexists.
  - apply alloc_ret_dirtier.
    destruct (new_CodeBlockNode_spec opening_line code_body closing_line
                block_suffix parent h) as (f & E & _). eauto.
  - unfold new_HeadingNode. destruct (_HEADING_TYPES level);
      [|apply dirtier_refl].
    apply alloc_ret_dirtier. destruct (_split_trivia title_raw) as [[? ?] ?].
    by eexists.
  - destruct (new_ParagraphNode_spec raw_content block_suffix parent h)
      as (nds & E & _).
    rewrite (bind_Ok _ _ _ _ _ E). simpl. apply dirtier_app.
  - apply new_MarkdownDocument_dirtier.
Qed.

(** Every operation keeps the flags. *)
Lemma exec_flags_kept o (h : heap) : flags_kept h (exec o h).
Proof.
  destruct (is_Parse o) eqn:Ho.
  - destruct o; try done. apply keeps_Parse.
  - by apply dirtier_flags_kept, exec_dirtier.
Qed.

(** The document of the one line [# A], then [heading.Text = "B"] on its
    heading (object 1): the root (object 0) is dirty through its child. *)
Definition ex_renamed : heap :=
  Eval vm_compute in
    ((FromString (py_lines ["# A"]) ;; set_Text 1 (py "B")) []).2.

(** C8, as the spec has it, fails: the root of [ex_renamed] is dirty only
    because its heading is; [Parse] on the root empties its child list and
    leaves its own flag unset, so the root, whose one child is the new
    heading, is clean again. *)
Lemma dirty_marker_cleared_by_Parse :
  (FromString (py_lines ["# A"]) ;; set_Text 1 (py "B")) []
    = (Ok tt, ex_renamed)
  ∧ IsDirty 2 ex_renamed 0 = Some true
  ∧ Parse 0 (py_lines ["# A"]) ex_renamed
      = (Ok tt, exec (OpParse 0 (py_lines ["# A"])) ex_renamed)
  ∧ (∀ fuel,
       IsDirty (S (S fuel)) (exec (OpParse 0 (py_lines ["# A"])) ex_renamed) 0
       = Some false)
  ∧ ¬ (∀ o h fuel r, IsDirty fuel h r = Some true →
         IsDirty fuel (exec o h) r = Some true).
Proof.
  split; [by vm_compute|]. split; [by vm_compute|].
  split; [by vm_compute|].
  assert (H : ∀ fuel,
    IsDirty (S (S fuel)) (exec (OpParse 0 (py_lines ["# A"])) ex_renamed) 0
    = Some false).
  { intros fuel. by vm_compute. }
  split; [exact H|]. intros Hall.
  specialize (Hall (OpParse 0 (py_lines ["# A"])) ex_renamed 2 0 eq_refl).
  by rewrite H in Hall.
Qed.

(** What [IsDirty] reports for a node depends only on the objects that
    can be reached from it. *)
Lemma py_any_mono_in {A} (f g : A → option bool) l b :
  (∀ x c, x ∈ l → f x = Some c → g x = Some c) →
  py_any f l = Some b → py_any g l = Some b.
Proof.
  induction l as [|x l IH]; intros H; simpl; [done|].
  destruct (f x) as [c|] eqn:Ex; [|done].
  rewrite (H x c) by (done || by left).
  destruct c; [done|]. apply IH. intros y c Hy. apply H. by right.
Qed.

Lemma kept_IsDirty d (h h' : heap) :
  kept d h h' → ∀ fuel r b, ¬ reach h r d →
  IsDirty fuel h r = Some b → IsDirty fuel h' r = Some b.
Proof.
  intros K. induction fuel as [|fuel IH]; intros r b Hnr; simpl; [done|].
  destruct (h !! r) as [nd|] eqn:E; [|done].
  assert (Hr : r ≠ d) by (intros ->; apply Hnr; constructor).
  rewrite (K r nd Hr E). destruct (_dirty_self nd); [done|].
  apply py_any_mono_in. intros c b' Hc. apply IH.
  intros Hcd. apply Hnr. by eapply reach_child.
Qed.

(** A paragraph with a link, then [link.Href = "c"] on the link (object
    3): the paragraph (object 1) is dirty through the link. *)
Definition ex_retargeted : heap :=
  Eval vm_compute in
    ((FromString (py_lines ["see [a](b)"]) ;; set_Href 3 (py "c")) []).2.

(** C8, amended.  The flag of a node itself, once set, stays set under
    every operation, [Parse] included, so that node reports dirty after
    it.  Under every operation other than [Parse], the constructors of a
    document from a text among them, a node that reports dirty, by its own
    flag or through a descendant, still reports dirty.  Under [Parse] on
    [d], every node from which [d] cannot be reached through child lists,
    that is every node but [d] and the nodes above it, reports what it
    reported before. *)
Theorem dirty_marker_monotone (o : op) (h : heap) :
  (∀ r nd, h !! r = Some nd → _dirty_self nd = true →
     (∃ nd', exec o h !! r = Some nd' ∧ _dirty_self nd' = true)
     ∧ ∀ fuel, IsDirty (S fuel) (exec o h) r = Some true)
  ∧ (is_Parse o = false → ∀ fuel r,
       IsDirty fuel h r = Some true → IsDirty fuel (exec o h) r = Some true)
  ∧ (∀ d markdown, o = OpParse d markdown → ∀ fuel r b,
       ¬ reach h r d →
       IsDirty fuel h r = Some b → IsDirty fuel (exec o h) r = Some b).
Proof.
  split; [|split].
  - intros r nd E Hd. destruct (exec_flags_kept o h r nd E) as (nd' & E' & H).
    split; [eauto|]. intros fuel. simpl. by rewrite E', H.
  - intros Ho fuel r Hr.
    destruct (dirtier_IsDirty _ _ (exec_dirtier o h Ho) fuel r true Hr)
      as (b' & -> & Hb). by rewrite Hb.
  - intros d markdown -> fuel r b Hnr.
    apply (kept_IsDirty d); [apply Parse_kept|done].
Qed.

(** The renamed heading keeps its flag when the root is parsed again; the
    root stays dirty when a document is built from a text beside it; and
    the paragraph that is dirty through its link stays dirty when the
    root above it is parsed again. *)
Lemma dirty_marker_monotone_witness :
  ((∃ nd', exec (OpParse 0 (py_lines ["# A"])) ex_renamed !! 1 = Some nd'
           ∧ _dirty_self nd' = true)
   ∧ ∀ fuel,
       IsDirty (S fuel) (exec (OpParse 0 (py_lines ["# A"])) ex_renamed) 1
       = Some true)
  ∧ IsDirty 2 (exec (OpNewMarkdownDocument (py_lines ["# X"; "y"]) None)
                 ex_renamed) 0 = Some true
  ∧ IsDirty 2 (exec (OpParse 0 (py_lines ["x"])) ex_retargeted) 1 = Some true.
Proof.
  split; [|split].
  - apply (proj1 (dirty_marker_monotone (OpParse 0 (py_lines ["# A"]))
                    ex_renamed) 1
             (default ex_root (ex_renamed !! 1))); reflexivity.
  - apply (proj1 (proj2 (dirty_marker_monotone
                           (OpNewMarkdownDocument (py_lines ["# X"; "y"]) None)
                           ex_renamed))); reflexivity.
  - apply (proj2 (proj2 (dirty_marker_monotone (OpParse 0 (py_lines ["x"]))
                           ex_retargeted)) 0 (py_lines ["x"]) eq_refl);
      [|reflexivity].
    intros Hr. inversion Hr as [|? nd c ? E Hc Hr1]; subst.
    vm_compute in E. injection E as <-. cbn [_children] in Hc.
    repeat (apply elem_of_cons in Hc as [->|Hc];
            [inversion Hr1 as [|? nd2 c2 ? E2 Hc2 _]; subst;
             vm_compute in E2; injection E2 as <-;
             by apply elem_of_nil in Hc2|]).
    by apply elem_of_nil in Hc.
Defined.
